(** * Record linkage of the OCLC / TIND reconciliation programs

    A shallow embedding of the three Go programs of the repository
    ([src/reconcile.go], [src/reconcile2/reconcile2.go] and the older
    variant [src/unnamed/part_000]) and the properties their
    specification states about them.

    Go strings are byte sequences: they are modelled by [string]
    (a list of 8-bit [ascii]).  A [*Record] is a location in an explicit
    store, so that the in-place updates of [Merge] and [Scan] and the
    sharing of candidate records between scans are visible. *)

From Stdlib Require Import ZArith Ascii String List Bool Lia.
From stdpp Require Import base option list gmap strings.

Open Scope Z_scope.
Open Scope string_scope.
Open Scope list_scope.

(** ** The [Record] struct *)

Record RecordT : Type := mkRecord {
  MaterialType : string;
  MonoOrSerial : string;
  Date1        : string;
  Date2        : string;
  Form         : string;
  Tind         : string;
  OCLC         : string;
  ISBN         : string;
  ISSN         : string;
  Title        : string;
  SubTitle     : string;
  Author       : string;
  Publisher    : string;
  Year         : string;
  Pagination   : string;
  MatchedCount : Z
}.

(** [new(Record)]: every field at its zero value. *)
Definition newRecord : RecordT :=
  mkRecord "" "" "" "" "" "" "" "" "" "" "" "" "" "" "" 0.

(** The text fields of the struct, used to name the left-hand side of an
    assignment [rec.F = v]. *)
Inductive field : Type :=
  | FMaterialType | FMonoOrSerial | FDate1 | FDate2 | FForm
  | FTind | FOCLC | FISBN | FISSN | FTitle
  | FSubTitle | FAuthor | FPublisher | FYear | FPagination.

Definition getField (f : field) (r : RecordT) : string :=
  match f with
  | FMaterialType => MaterialType r | FMonoOrSerial => MonoOrSerial r
  | FDate1 => Date1 r | FDate2 => Date2 r | FForm => Form r
  | FTind => Tind r | FOCLC => OCLC r | FISBN => ISBN r | FISSN => ISSN r
  | FTitle => Title r | FSubTitle => SubTitle r | FAuthor => Author r
  | FPublisher => Publisher r | FYear => Year r | FPagination => Pagination r
  end.

(** [rec.F = v] on a record value. *)
Definition setField (f : field) (v : string) (r : RecordT) : RecordT :=
  let 'mkRecord mt ms d1 d2 fo ti oc ib is_ ttl st au pu ye pa mc := r in
  match f with
  | FMaterialType => mkRecord v ms d1 d2 fo ti oc ib is_ ttl st au pu ye pa mc
  | FMonoOrSerial => mkRecord mt v d1 d2 fo ti oc ib is_ ttl st au pu ye pa mc
  | FDate1 => mkRecord mt ms v d2 fo ti oc ib is_ ttl st au pu ye pa mc
  | FDate2 => mkRecord mt ms d1 v fo ti oc ib is_ ttl st au pu ye pa mc
  | FForm => mkRecord mt ms d1 d2 v ti oc ib is_ ttl st au pu ye pa mc
  | FTind => mkRecord mt ms d1 d2 fo v oc ib is_ ttl st au pu ye pa mc
  | FOCLC => mkRecord mt ms d1 d2 fo ti v ib is_ ttl st au pu ye pa mc
  | FISBN => mkRecord mt ms d1 d2 fo ti oc v is_ ttl st au pu ye pa mc
  | FISSN => mkRecord mt ms d1 d2 fo ti oc ib v ttl st au pu ye pa mc
  | FTitle => mkRecord mt ms d1 d2 fo ti oc ib is_ v st au pu ye pa mc
  | FSubTitle => mkRecord mt ms d1 d2 fo ti oc ib is_ ttl v au pu ye pa mc
  | FAuthor => mkRecord mt ms d1 d2 fo ti oc ib is_ ttl st v pu ye pa mc
  | FPublisher => mkRecord mt ms d1 d2 fo ti oc ib is_ ttl st au v ye pa mc
  | FYear => mkRecord mt ms d1 d2 fo ti oc ib is_ ttl st au pu v pa mc
  | FPagination => mkRecord mt ms d1 d2 fo ti oc ib is_ ttl st au pu ye v mc
  end.

(** [rec.MatchedCount = n] on a record value. *)
Definition setMatchedCount (n : Z) (r : RecordT) : RecordT :=
  let 'mkRecord mt ms d1 d2 fo ti oc ib is_ ttl st au pu ye pa _ := r in
  mkRecord mt ms d1 d2 fo ti oc ib is_ ttl st au pu ye pa n.

Definition field_eqb (f g : field) : bool :=
  match f, g with
  | FMaterialType, FMaterialType | FMonoOrSerial, FMonoOrSerial
  | FDate1, FDate1 | FDate2, FDate2 | FForm, FForm | FTind, FTind
  | FOCLC, FOCLC | FISBN, FISBN | FISSN, FISSN | FTitle, FTitle
  | FSubTitle, FSubTitle | FAuthor, FAuthor | FPublisher, FPublisher
  | FYear, FYear | FPagination, FPagination => true
  | _, _ => false
  end.

(** ** [RowToRecord]

    The [switch] of the source has fifteen arms of the same shape,
    [case "name": rec.F = row[colNo]]; [columnField] is the table of its
    case labels.  A name without an arm falls through the switch. *)
Definition columnField (cName : string) : option field :=
  if cName =? "material type" then Some FMaterialType
  else if cName =? "mono or serial" then Some FMonoOrSerial
  else if cName =? "date1" then Some FDate1
  else if cName =? "date2" then Some FDate2
  else if cName =? "form" then Some FForm
  else if cName =? "tind" then Some FTind
  else if cName =? "oclc" then Some FOCLC
  else if cName =? "isbn" then Some FISBN
  else if cName =? "issn" then Some FISSN
  else if cName =? "title" then Some FTitle
  else if cName =? "subtitle" then Some FSubTitle
  else if cName =? "author" then Some FAuthor
  else if cName =? "publisher" then Some FPublisher
  else if cName =? "year" then Some FYear
  else if cName =? "pagination" then Some FPagination
  else None.

(** The body of [for colNo, cName := range columnNames], started at column
    [colNo].  [row[colNo]] panics when [colNo] is not an index of [row]:
    the panic is the result [None]. *)
Fixpoint RowToRecord_from (colNo : nat) (columnNames row : list string)
    (rec : RecordT) : option RecordT :=
  match columnNames with
  | [] => Some rec
  | cName :: rest =>
      match columnField cName with
      | Some f =>
          match row !! colNo with
          | Some v => RowToRecord_from (S colNo) rest row (setField f v rec)
          | None => None
          end
      | None => RowToRecord_from (S colNo) rest row rec
      end
  end.

Definition RowToRecord (columnNames row : list string) : option RecordT :=
  RowToRecord_from 0 columnNames row newRecord.

(** ** [countTrue] *)
Fixpoint countTrue_from (cnt : Z) (booleans : list bool) : Z :=
  match booleans with
  | [] => cnt
  | val :: rest => countTrue_from (if val then cnt + 1 else cnt) rest
  end.

Definition countTrue (booleans : list bool) : Z := countTrue_from 0 booleans.

(** ** [strings.TrimSpace] (Go standard library)

    Leading and trailing white space, as Unicode defines it, is removed.
    On the UTF-8 bytes of a Go string the white-space runes are the six
    ASCII ones and the two- and three-byte encodings below; a rune is
    recognised at the front of the string from its encoding, and at the
    back from the encoding the string ends with. *)
Definition asciiSpace (c : N) : bool :=
  (* '\t' '\n' '\v' '\f' '\r' ' ' *)
  ((9 <=? c) && (c <=? 13) || (c =? 32))%N.

(** U+0085 and U+00A0. *)
Definition spaceRune2 (c1 c2 : N) : bool :=
  ((c1 =? 194) && ((c2 =? 133) || (c2 =? 160)))%N.

(** U+1680, U+2000..U+200A, U+2028, U+2029, U+202F, U+205F, U+3000. *)
Definition spaceRune3 (c1 c2 c3 : N) : bool :=
  ((c1 =? 225) && (c2 =? 154) && (c3 =? 128)
   || (c1 =? 226) && (c2 =? 128)
      && ((128 <=? c3) && (c3 <=? 138) || (c3 =? 168) || (c3 =? 169) || (c3 =? 175))
   || (c1 =? 226) && (c2 =? 129) && (c3 =? 159)
   || (c1 =? 227) && (c2 =? 128) && (c3 =? 128))%N.

Fixpoint trimLeft (s : list ascii) : list ascii :=
  match s with
  | [] => []
  | c1 :: s1 =>
      if asciiSpace (N_of_ascii c1) then trimLeft s1 else
      match s1 with
      | [] => s
      | c2 :: s2 =>
          if spaceRune2 (N_of_ascii c1) (N_of_ascii c2) then trimLeft s2 else
          match s2 with
          | [] => s
          | c3 :: s3 =>
              if spaceRune3 (N_of_ascii c1) (N_of_ascii c2) (N_of_ascii c3)
              then trimLeft s3 else s
          end
      end
  end.

(** The same scan from the back; the argument is the reversed string, so
    the bytes of a rune arrive last byte first. *)
Fixpoint trimLeft_rev (s : list ascii) : list ascii :=
  match s with
  | [] => []
  | c1 :: s1 =>
      if asciiSpace (N_of_ascii c1) then trimLeft_rev s1 else
      match s1 with
      | [] => s
      | c2 :: s2 =>
          if spaceRune2 (N_of_ascii c2) (N_of_ascii c1) then trimLeft_rev s2 else
          match s2 with
          | [] => s
          | c3 :: s3 =>
              if spaceRune3 (N_of_ascii c3) (N_of_ascii c2) (N_of_ascii c1)
              then trimLeft_rev s3 else s
          end
      end
  end.

Definition trimRight (s : list ascii) : list ascii :=
  rev (trimLeft_rev (rev s)).

Definition TrimSpace (s : string) : string :=
  string_of_list_ascii (trimRight (trimLeft (list_ascii_of_string s))).

(** ** Runes

    A Go string is a sequence of bytes; [[]rune(s)] and [for range s] read
    it as UTF-8.  [runes] is that decoding ([utf8.DecodeRuneInString]
    applied from the front): a byte that starts no well-formed encoding
    gives U+FFFD and is passed over alone. *)
Definition RuneError : Z := 65533.

Definition byte (c : ascii) : Z := Z.of_N (N_of_ascii c).

Definition between (lo hi : Z) (c : ascii) : bool :=
  ((lo <=? byte c) && (byte c <=? hi))%Z.

(** The six low bits of a continuation byte. *)
Definition low6 (c : ascii) : Z := Z.land (byte c) 63.

Fixpoint runes_of (s : list ascii) : list Z :=
  match s with
  | [] => []
  | c0 :: s1 =>
      let s0 := byte c0 in
      if (s0 <? 128)%Z then s0 :: runes_of s1
      else if ((s0 <? 194) || (244 <? s0))%Z then RuneError :: runes_of s1
      else
        (* the second byte that the first byte accepts *)
        let lo := if (s0 =? 224)%Z then 160
                  else if (s0 =? 240)%Z then 144 else 128 in
        let hi := if (s0 =? 237)%Z then 159
                  else if (s0 =? 244)%Z then 143 else 191 in
        match s1 with
        | [] => RuneError :: runes_of s1
        | c1 :: s2 =>
            if negb (between lo hi c1) then RuneError :: runes_of s1
            else if (s0 <? 224)%Z then
              Z.lor (Z.shiftl (Z.land s0 31) 6) (low6 c1) :: runes_of s2
            else
              match s2 with
              | [] => RuneError :: runes_of s1
              | c2 :: s3 =>
                  if negb (between 128 191 c2) then RuneError :: runes_of s1
                  else if (s0 <? 240)%Z then
                    Z.lor (Z.lor (Z.shiftl (Z.land s0 15) 12)
                                 (Z.shiftl (low6 c1) 6)) (low6 c2)
                    :: runes_of s3
                  else
                    match s3 with
                    | [] => RuneError :: runes_of s1
                    | c3 :: s4 =>
                        if negb (between 128 191 c3)
                        then RuneError :: runes_of s1
                        else
                          Z.lor (Z.lor (Z.lor (Z.shiftl (Z.land s0 7) 18)
                                              (Z.shiftl (low6 c1) 12))
                                       (Z.shiftl (low6 c2) 6)) (low6 c3)
                          :: runes_of s4
                    end
              end
        end
  end.

Definition runes (s : string) : list Z := runes_of (list_ascii_of_string s).

(** The runes with a lower case of their own, as ranges
    [(lo, hi, stride, delta)]: every [stride]-th rune from [lo] to [hi] has
    the lower case [delta] further on.  These are the simple lower-case
    mappings of the Unicode Character Database (version 14.0), which
    [unicode.ToLower] applies. *)
Definition lowerRanges : list (Z * Z * Z * Z) :=
  [
    (65, 90, 1, 32); (192, 214, 1, 32); (216, 222, 1, 32);
    (256, 302, 2, 1); (304, 304, 1, (-199)); (306, 310, 2, 1);
    (313, 327, 2, 1); (330, 374, 2, 1); (376, 376, 1, (-121));
    (377, 381, 2, 1); (385, 385, 1, 210); (386, 388, 2, 1);
    (390, 390, 1, 206); (391, 391, 1, 1); (393, 394, 1, 205);
    (395, 395, 1, 1); (398, 398, 1, 79); (399, 399, 1, 202);
    (400, 400, 1, 203); (401, 401, 1, 1); (403, 403, 1, 205);
    (404, 404, 1, 207); (406, 406, 1, 211); (407, 407, 1, 209);
    (408, 408, 1, 1); (412, 412, 1, 211); (413, 413, 1, 213);
    (415, 415, 1, 214); (416, 420, 2, 1); (422, 422, 1, 218);
    (423, 423, 1, 1); (425, 425, 1, 218); (428, 428, 1, 1);
    (430, 430, 1, 218); (431, 431, 1, 1); (433, 434, 1, 217);
    (435, 437, 2, 1); (439, 439, 1, 219); (440, 440, 1, 1);
    (444, 444, 1, 1); (452, 452, 1, 2); (453, 453, 1, 1);
    (455, 455, 1, 2); (456, 456, 1, 1); (458, 458, 1, 2);
    (459, 475, 2, 1); (478, 494, 2, 1); (497, 497, 1, 2);
    (498, 500, 2, 1); (502, 502, 1, (-97)); (503, 503, 1, (-56));
    (504, 542, 2, 1); (544, 544, 1, (-130)); (546, 562, 2, 1);
    (570, 570, 1, 10795); (571, 571, 1, 1); (573, 573, 1, (-163));
    (574, 574, 1, 10792); (577, 577, 1, 1); (579, 579, 1, (-195));
    (580, 580, 1, 69); (581, 581, 1, 71); (582, 590, 2, 1);
    (880, 882, 2, 1); (886, 886, 1, 1); (895, 895, 1, 116);
    (902, 902, 1, 38); (904, 906, 1, 37); (908, 908, 1, 64);
    (910, 911, 1, 63); (913, 929, 1, 32); (931, 939, 1, 32);
    (975, 975, 1, 8); (984, 1006, 2, 1); (1012, 1012, 1, (-60));
    (1015, 1015, 1, 1); (1017, 1017, 1, (-7)); (1018, 1018, 1, 1);
    (1021, 1023, 1, (-130)); (1024, 1039, 1, 80); (1040, 1071, 1, 32);
    (1120, 1152, 2, 1); (1162, 1214, 2, 1); (1216, 1216, 1, 15);
    (1217, 1229, 2, 1); (1232, 1326, 2, 1); (1329, 1366, 1, 48);
    (4256, 4293, 1, 7264); (4295, 4295, 1, 7264); (4301, 4301, 1, 7264);
    (5024, 5103, 1, 38864); (5104, 5109, 1, 8); (7312, 7354, 1, (-3008));
    (7357, 7359, 1, (-3008)); (7680, 7828, 2, 1); (7838, 7838, 1, (-7615));
    (7840, 7934, 2, 1); (7944, 7951, 1, (-8)); (7960, 7965, 1, (-8));
    (7976, 7983, 1, (-8)); (7992, 7999, 1, (-8)); (8008, 8013, 1, (-8));
    (8025, 8031, 2, (-8)); (8040, 8047, 1, (-8)); (8072, 8079, 1, (-8));
    (8088, 8095, 1, (-8)); (8104, 8111, 1, (-8)); (8120, 8121, 1, (-8));
    (8122, 8123, 1, (-74)); (8124, 8124, 1, (-9)); (8136, 8139, 1, (-86));
    (8140, 8140, 1, (-9)); (8152, 8153, 1, (-8)); (8154, 8155, 1, (-100));
    (8168, 8169, 1, (-8)); (8170, 8171, 1, (-112)); (8172, 8172, 1, (-7));
    (8184, 8185, 1, (-128)); (8186, 8187, 1, (-126)); (8188, 8188, 1, (-9));
    (8486, 8486, 1, (-7517)); (8490, 8490, 1, (-8383)); (8491, 8491, 1, (-8262));
    (8498, 8498, 1, 28); (8544, 8559, 1, 16); (8579, 8579, 1, 1);
    (9398, 9423, 1, 26); (11264, 11311, 1, 48); (11360, 11360, 1, 1);
    (11362, 11362, 1, (-10743)); (11363, 11363, 1, (-3814)); (11364, 11364, 1, (-10727));
    (11367, 11371, 2, 1); (11373, 11373, 1, (-10780)); (11374, 11374, 1, (-10749));
    (11375, 11375, 1, (-10783)); (11376, 11376, 1, (-10782)); (11378, 11378, 1, 1);
    (11381, 11381, 1, 1); (11390, 11391, 1, (-10815)); (11392, 11490, 2, 1);
    (11499, 11501, 2, 1); (11506, 11506, 1, 1); (42560, 42604, 2, 1);
    (42624, 42650, 2, 1); (42786, 42798, 2, 1); (42802, 42862, 2, 1);
    (42873, 42875, 2, 1); (42877, 42877, 1, (-35332)); (42878, 42886, 2, 1);
    (42891, 42891, 1, 1); (42893, 42893, 1, (-42280)); (42896, 42898, 2, 1);
    (42902, 42920, 2, 1); (42922, 42922, 1, (-42308)); (42923, 42923, 1, (-42319));
    (42924, 42924, 1, (-42315)); (42925, 42925, 1, (-42305)); (42926, 42926, 1, (-42308));
    (42928, 42928, 1, (-42258)); (42929, 42929, 1, (-42282)); (42930, 42930, 1, (-42261));
    (42931, 42931, 1, 928); (42932, 42946, 2, 1); (42948, 42948, 1, (-48));
    (42949, 42949, 1, (-42307)); (42950, 42950, 1, (-35384)); (42951, 42953, 2, 1);
    (42960, 42960, 1, 1); (42966, 42968, 2, 1); (42997, 42997, 1, 1);
    (65313, 65338, 1, 32); (66560, 66599, 1, 40); (66736, 66771, 1, 40);
    (66928, 66938, 1, 39); (66940, 66954, 1, 39); (66956, 66962, 1, 39);
    (66964, 66965, 1, 39); (68736, 68786, 1, 64); (71840, 71871, 1, 32);
    (93760, 93791, 1, 32); (125184, 125217, 1, 34) ].

Definition inLowerRange (r : Z) (range : Z * Z * Z * Z) : bool :=
  let '(lo, hi, stride, _) := range in
  ((lo <=? r) && (r <=? hi) && ((r - lo) mod stride =? 0))%Z.

(** [unicode.ToLower] *)
Definition toLower (r : Z) : Z :=
  match find (inLowerRange r) lowerRanges with
  | Some (_, _, _, delta) => r + delta
  | None => r
  end.

(** ** [datatools.Levenshtein]

    The function lives in the package [github.com/caltechlibrary/datatools],
    outside the three source files; only its calls
    [Levenshtein(a, b, 1, 1, 1, caseSensitive)] are in the programs. *)

Section EditDistance.
Variables insertCost deleteCost substituteCost : Z.

Definition substitution (a b : Z) : Z :=
  if (a =? b)%Z then 0 else substituteCost.

(** The cheapest way to turn [src] into [target] by deleting a rune of
    [src], inserting a rune of [target] or substituting one for another. *)
Fixpoint distance (src : list Z) : list Z -> Z :=
  match src with
  | [] => fun target => Z.of_nat (length target) * insertCost
  | a :: src' =>
      fix against (target : list Z) : Z :=
        match target with
        | [] => Z.of_nat (length src) * deleteCost
        | b :: target' =>
            Z.min (Z.min (distance src' target + deleteCost)
                         (against target' + insertCost))
                  (distance src' target' + substitution a b)
        end
  end.

(** The same distances computed a row at a time: the row of [src] holds
    the distance from [src] to every suffix of [target], longest first. *)
Fixpoint firstRow (target : list Z) : list Z :=
  match target with
  | [] => [0]
  | _ :: target' => Z.of_nat (length target) * insertCost :: firstRow target'
  end.

Fixpoint nextRow (a : Z) (target : list Z) (prev : list Z) : list Z :=
  match target, prev with
  | [], p0 :: _ => [p0 + deleteCost]
  | b :: target', p0 :: prev' =>
      let cur := nextRow a target' prev' in
      Z.min (Z.min (p0 + deleteCost) (hd 0 cur + insertCost))
            (hd 0 prev' + substitution a b) :: cur
  | _, [] => []
  end.

Fixpoint rows (src target : list Z) : list Z :=
  match src with
  | [] => firstRow target
  | a :: src' => nextRow a target (rows src' target)
  end.

Definition distance_by_rows (src target : list Z) : Z :=
  hd 0 (rows src target).
End EditDistance.

(** Modelled from the spec: [datatools.Levenshtein] is not among the source
    files.  Section 4.3 describes it as the edit distance with a cost for
    insertion, deletion and substitution, case-insensitive when its last
    argument is [false].  The distance is taken over the runes of the two
    strings, computed a row at a time, and without case sensitivity every
    rune is first replaced by its lower case, as [strings.ToLower] does. *)
Definition Levenshtein (src target : string)
    (insertCost deleteCost substituteCost : Z) (caseSensitive : bool) : Z :=
  let fold s := if caseSensitive then s else map toLower s in
  distance_by_rows insertCost deleteCost substituteCost
    (fold (runes src)) (fold (runes target)).

(** ** [Match] *)

(** The nine comparisons handed to [countTrue], in the order of the call. *)
Definition fieldComparisons (target source : RecordT) : list bool :=
  [ MaterialType target =? MaterialType source;
    MonoOrSerial target =? MonoOrSerial source;
    Date1 target =? Date1 source;
    Date2 target =? Date2 source;
    Form target =? Form source;
    ISBN target =? ISBN source;
    ISSN target =? ISSN source;
    Publisher target =? Publisher source;
    Year target =? Year source ].

Module Reconcile.
(** [Match] of [src/reconcile.go]; [src/reconcile2/reconcile2.go] has the
    same text.  It only reads the two records it is given pointers to. *)
Definition Match (target source : RecordT) (withLevenshtein : bool) : bool :=
  if withLevenshtein then
    if (Levenshtein (Title target) (Title source) 1 1 1 false <=? 1)%Z
       && (countTrue (fieldComparisons target source) >? 5)%Z
    then true else false
  else
    if (Title target =? Title source)
       && (countTrue (fieldComparisons target source) >? 5)%Z
    then true
    else if (TrimSpace (Title target) =? TrimSpace (Title source))
            && (countTrue (fieldComparisons target source) >? 5)%Z
    then true
    else false.
End Reconcile.

Module Reconcile1.
(** [Match] of [src/unnamed/part_000]: one predicate, no pass argument. *)
Definition Match (target source : RecordT) : bool :=
  if (TrimSpace (Title target) =? TrimSpace (Title source))
     && (countTrue (fieldComparisons target source) >? 5)%Z
  then true
  else if (Levenshtein (Title target) (Title source) 1 1 1 true =? 1)%Z
          && (countTrue (fieldComparisons target source) >? 5)%Z
  then true
  else false.
End Reconcile1.

(** ** Records behind pointers

    A [*Record] is an index into the store of allocated records.  A
    computation threads the store and fails ([None]) where the Go program
    would panic on a pointer that is not allocated. *)
Abbreviation ptr := nat.
Abbreviation heap := (list RecordT).
Definition M (A : Type) : Type := heap -> option (A * heap).

#[global] Instance M_ret : MRet M := fun A x h => Some (x, h).
#[global] Instance M_bind : MBind M := fun A B f m h =>
  match m h with
  | Some (x, h') => f x h'
  | None => None
  end.

(** [*p] *)
Definition load (p : ptr) : M RecordT := fun h =>
  match h !! p with
  | Some r => Some (r, h)
  | None => None
  end.

(** [*p = r] *)
Definition assign (p : ptr) (r : RecordT) : M unit := fun h =>
  match h !! p with
  | Some _ => Some (tt, <[p := r]> h)
  | None => None
  end.

(** [p := new(Record); *p = r] *)
Definition alloc (r : RecordT) : M ptr := fun h =>
  Some (length h, h ++ [r]).

(** [p.F] and [p.F = v] *)
Definition loadField (f : field) (p : ptr) : M string :=
  r ← load p; mret (getField f r).

Definition storeField (f : field) (p : ptr) (v : string) : M unit :=
  r ← load p; assign p (setField f v r).

(** [p.MatchedCount = n] *)
Definition storeMatchedCount (p : ptr) (n : Z) : M unit :=
  r ← load p; assign p (setMatchedCount n r).

(** The empty [else] branch. *)
Definition skip : M unit := mret tt.

(** [Match] through its two pointer arguments. *)
Definition MatchAt (target source : ptr) (withLevenshtein : bool) : M bool :=
  t ← load target; s ← load source;
  mret (Reconcile.Match t s withLevenshtein).

(** ** [Merge] and [Scan] of [src/reconcile.go]
    ([src/reconcile2/reconcile2.go] has the same text) *)
Module Merger.
Definition Merge (target source : ptr) : M ptr :=
  tind ← loadField FTind source;
  (if tind =? "" then v ← loadField FTind target; storeField FTind source v
   else skip);;
  oclc ← loadField FOCLC source;
  (if oclc =? "" then v ← loadField FOCLC target; storeField FOCLC source v
   else skip);;
  mret source.
End Merger.

Module Scanner.
(** [for _, source := range sources], from the list [matched] built so
    far. *)
Fixpoint collect (target : ptr) (sources : list ptr) (withLevenshtein : bool)
    (matched : list ptr) : M (list ptr) :=
  match sources with
  | [] => mret matched
  | source :: rest =>
      b ← MatchAt target source withLevenshtein;
      if (b : bool) then
        m ← Merger.Merge target source;
        collect target rest withLevenshtein (matched ++ [m])
      else collect target rest withLevenshtein matched
  end.

(** [for _, rec := range matched]: the count is stored in the record and
    the record is rendered at once; [s] holds the records rendered so far,
    one per line of the result. *)
Fixpoint render (mCnt : Z) (matched : list ptr) (s : list RecordT)
    : M (list RecordT) :=
  match matched with
  | [] => mret s
  | rec :: rest =>
      storeMatchedCount rec mCnt;;
      r ← load rec;
      render mCnt rest (s ++ [r])
  end.

(** The result of [Scan] is [strings.Join(s, "\n")], and [""] without a
    match.  It is kept as the list of the records that [rec.String()]
    rendered, one per line: a rendered record is never the empty string
    and [%q] leaves no line break in it, so the result is [""] exactly
    when the list is empty. *)
Definition Scan (target : ptr) (sources : list ptr) (withLevenshtein : bool)
    : M (list RecordT) :=
  matched ← collect target sources withLevenshtein [];
  let mCnt := Z.of_nat (length matched) in
  if (mCnt >? 0)%Z then render mCnt matched [] else mret [].
End Scanner.

(** ** [Merge] of [src/unnamed/part_000]: the target is the base. *)
Module Merger1.
Definition Merge (target source : ptr) : M ptr :=
  tind ← loadField FTind target;
  (if tind =? "" then v ← loadField FTind source; storeField FTind target v
   else skip);;
  oclc ← loadField FOCLC target;
  (if oclc =? "" then v ← loadField FOCLC source; storeField FOCLC target v
   else skip);;
  mret target.
End Merger1.

(** ** From tables to records *)

(** A panic, or [log.Fatal]: the run stops. *)
Definition abort {A : Type} : M A := fun _ => None.

(** [l[i]] on a slice of pointers. *)
Definition index (l : list ptr) (i : nat) : M ptr :=
  match l !! i with
  | Some p => mret p
  | None => abort
  end.

(** [mkRecords], after the CSV text has been read into [table]: the loop
    [for i, row := range table] from row [i] on. *)
Fixpoint mkRecords_from (i : nat) (table : list (list string))
    (columnNames : list string) (records : list ptr) : M (list ptr) :=
  match table with
  | [] => mret records
  | row :: rest =>
      if (0 <? i)%nat then
        match RowToRecord columnNames row with
        | Some r =>
            rec ← alloc r;
            mkRecords_from (S i) rest columnNames (records ++ [rec])
        | None => abort
        end
      else mkRecords_from (S i) rest columnNames records
  end.

Definition mkRecords (table : list (list string)) (columnNames : list string)
    : M (list ptr) :=
  mkRecords_from 0 table columnNames [].

Definition oclcColumns : list string :=
  [ "material type"; "mono or serial"; "date1"; "date2"; "form"; "isbn";
    "issn"; "oclc"; "title"; "subtitle"; "author"; "publisher"; "year";
    "pagination" ].

Definition tindColumns : list string :=
  [ "material type"; "mono or serial"; "date1"; "date2"; "form"; "tind";
    "oclc"; "isbn"; "issn"; "title"; "subtitle"; "author"; "publisher";
    "year"; "pagination" ].

(** ** Standard output

    One value per line written to [os.Stdout]: the header, a rendered
    record ([rec.String()], kept as the record it renders) or an empty
    line. *)
Inductive line : Type :=
  | Header
  | Line (r : RecordT)
  | Blank.

(** [fmt.Fprintf(os.Stdout, "%s\n", s)] for a result [s] of [Scan]: its
    lines, and one empty line when [s] is [""]. *)
Definition printed (s : list RecordT) : list line :=
  match s with
  | [] => [Blank]
  | _ => map Line s
  end.

(** ** [main] of [src/reconcile.go]

    The timing and progress messages of [log.Printf] go to standard error
    and nothing reads them back; they are left out. *)
Module Pipeline.
Record run : Type := mkRun {
  out          : list line;
  matchedCnt   : Z;
  unmatchedCnt : Z
}.

(** The branch of a loop body for a result [s] of [Scan] that is not
    empty: lines 265-266 and 286-287. *)
Definition matchedStep (s : list RecordT) (st : run) : run :=
  mkRun (out st ++ printed s) (matchedCnt st + 1) (unmatchedCnt st).

(** [unmatchedCnt++], lines 268 and 289. *)
Definition unmatchedStep (st : run) : run :=
  mkRun (out st) (matchedCnt st) (unmatchedCnt st + 1).

(** [for i, rec := range oclc], lines 263-278. *)
Fixpoint strictPass (i : nat) (oclc tind : list ptr) (unmatched : list nat)
    (st : run) : M (list nat * run) :=
  match oclc with
  | [] => mret (unmatched, st)
  | rec :: rest =>
      s ← Scanner.Scan rec tind false;
      match s : list RecordT with
      | _ :: _ => strictPass (S i) rest tind unmatched (matchedStep s st)
      | [] => strictPass (S i) rest tind (unmatched ++ [i]) (unmatchedStep st)
      end
  end.

(** [for i, no := range unmatched], lines 283-299. *)
Fixpoint fuzzyPass (oclc tind : list ptr) (unmatched : list nat)
    (missing : list nat) (st : run) : M (list nat * run) :=
  match unmatched with
  | [] => mret (missing, st)
  | no :: rest =>
      rec ← index oclc no;
      s ← Scanner.Scan rec tind true;
      match s : list RecordT with
      | _ :: _ => fuzzyPass oclc tind rest missing (matchedStep s st)
      | [] => fuzzyPass oclc tind rest (missing ++ [no]) (unmatchedStep st)
      end
  end.

(** Lines 260-299: the two loops, from the output and the counters [st]
    that the lines before them leave.  The result holds the slices
    [unmatched] and [missing] as they are after line 299. *)
Definition passes (oclc tind : list ptr) (st : run)
    : M (list nat * list nat * run) :=
  '(unmatched, st) ← strictPass 0 oclc tind [] st;
  '(missing, st) ← fuzzyPass oclc tind unmatched []
                      (mkRun (out st) (matchedCnt st) 0);
  mret (unmatched, missing, st).

(** [main] from its two calls of [mkRecords] to line 299.  The loop of
    lines 301-304 that follows is not part of the model: its [i] is never
    used and [oclc.MatchCount] names no field, neither of the slice [oclc]
    nor of a [Record]. *)
Definition main (oclcTable tindTable : list (list string))
    : M (list nat * list nat * run) :=
  oclc ← mkRecords oclcTable oclcColumns;
  tind ← mkRecords tindTable tindColumns;
  alloc newRecord;;
  passes oclc tind (mkRun [Header] 0 0).
End Pipeline.

(** ** [main] of [src/reconcile2/reconcile2.go] *)

(** [bytes.Split(src, []byte("\n"))] *)
Fixpoint splitLines (src : string) : list string :=
  match src with
  | EmptyString => [""]
  | String c rest =>
      if (N_of_ascii c =? 10)%N then "" :: splitLines rest
      else match splitLines rest with
           | l :: ls => String c l :: ls
           | [] => [String c ""]
           end
  end.

(** Lines 241-247: the global [matchedIDs], a [map[string]bool] whose
    values are all [true], is the set of its keys. *)
Fixpoint readMatchedIDs (lines : list string) (matchedIDs : gset string)
    : gset string :=
  match lines with
  | [] => matchedIDs
  | l :: rest =>
      let val := TrimSpace l in
      if (0 <? String.length val)%nat
      then readMatchedIDs rest ({[ val ]} ∪ matchedIDs)
      else readMatchedIDs rest matchedIDs
  end.

Module Pipeline2.
(** [reports] holds the pair [(p, oclcCnt)] of each progress message
    (lines 296-301): the rows processed and the denominator.  [calls]
    is a history of the calls of [Scan] (target and pass flag), in order:
    the program has no such variable, and the model only ever appends to
    it. *)
Record run : Type := mkRun {
  out          : list line;
  matchedCnt   : Z;
  unmatchedCnt : Z;
  oclcCnt      : Z;
  reports      : list (Z * Z);
  calls        : list (ptr * bool)
}.

(** The branch of lines 282-284: a target found in [matchedIDs]. *)
Definition skipped (st : run) : run :=
  mkRun (out st) (matchedCnt st) (unmatchedCnt st) (oclcCnt st - 1)
        (reports st) (calls st).

(** The branch of lines 286-288. *)
Definition matchedStep (p : ptr) (s : list RecordT) (st : run) : run :=
  mkRun (out st ++ printed s) (matchedCnt st + 1) (unmatchedCnt st)
        (oclcCnt st) (reports st) (calls st ++ [(p, false)]).

(** The branch of lines 289-293, after [rec.MatchedCount = 0]: what is
    printed is [s], the empty result of [Scan]. *)
Definition unmatchedStep (p : ptr) (s : list RecordT) (st : run) : run :=
  mkRun (out st ++ printed s) (matchedCnt st) (unmatchedCnt st + 1)
        (oclcCnt st) (reports st) (calls st ++ [(p, false)]).

(** Lines 295-302. *)
Definition report (i : nat) (st : run) : run :=
  if (Nat.modulo i 100 =? 0)%nat then
    let p := matchedCnt st + unmatchedCnt st in
    mkRun (out st) (matchedCnt st) (unmatchedCnt st) (oclcCnt st)
          (reports st ++ [(p, oclcCnt st)]) (calls st)
  else st.

(** The body of [for i, rec := range oclc], lines 281-302. *)
Definition step (matchedIDs : gset string) (tind : list ptr) (i : nat)
    (rec : ptr) (st : run) : M run :=
  id ← loadField FOCLC rec;
  st' ← (if bool_decide (id ∈ matchedIDs) then mret (skipped st)
         else
           s ← Scanner.Scan rec tind false;
           match s : list RecordT with
           | _ :: _ => mret (matchedStep rec s st)
           | [] => storeMatchedCount rec 0;; mret (unmatchedStep rec s st)
           end);
  mret (report i st').

Fixpoint pass (matchedIDs : gset string) (i : nat) (oclc tind : list ptr)
    (st : run) : M run :=
  match oclc with
  | [] => mret st
  | rec :: rest =>
      st' ← step matchedIDs tind i rec st;
      pass matchedIDs (S i) rest tind st'
  end.

Definition reconcile (matchedIDs : gset string) (oclc tind : list ptr)
    : M run :=
  pass matchedIDs 0 oclc tind
    (mkRun [Header] 0 0 (Z.of_nat (length oclc)) [] []).

Definition main (oclcTable tindTable : list (list string))
    (matchedIDsSrc : string) : M run :=
  oclc ← mkRecords oclcTable oclcColumns;
  tind ← mkRecords tindTable tindColumns;
  reconcile (readMatchedIDs (splitLines matchedIDsSrc) ∅) oclc tind.
End Pipeline2.

(** ** [Scan] and [main] of [src/unnamed/part_000]

    This older program keeps the two tables as rows of text.  [Scan] builds
    a candidate record from each row after the first, each time it is
    called, and [Merge] writes into the target. *)
Module Scanner1.
(** [Match] through its two pointer arguments. *)
Definition MatchAt (target source : ptr) : M bool :=
  t ← load target; s ← load source;
  mret (Reconcile1.Match t s).

(** [for i, row := range table], from row [i] on. *)
Fixpoint collect (target : ptr) (columnNames : list string) (i : nat)
    (table : list (list string)) (matched : list ptr) : M (list ptr) :=
  match table with
  | [] => mret matched
  | row :: rest =>
      if (0 <? i)%nat then
        match RowToRecord columnNames row with
        | Some r =>
            source ← alloc r;
            b ← MatchAt target source;
            if (b : bool) then
              m ← Merger1.Merge target source;
              collect target columnNames (S i) rest (matched ++ [m])
            else collect target columnNames (S i) rest matched
        | None => abort
        end
      else collect target columnNames (S i) rest matched
  end.

(** The second loop has the text of the one in [src/reconcile.go]. *)
Definition Scan (target : ptr) (columnNames : list string)
    (table : list (list string)) : M (list RecordT) :=
  matched ← collect target columnNames 0 table [];
  let mCnt := Z.of_nat (length matched) in
  if (mCnt >? 0)%Z then Scanner.render mCnt matched [] else mret [].
End Scanner1.

Module Pipeline1.
Record run : Type := mkRun {
  out          : list line;
  matchedCnt   : Z;
  unmatchedCnt : Z
}.

(** [for i, row := range oclc] with its guard [i > 1], from row [i] on. *)
Fixpoint rows (i : nat) (oclc tind : list (list string)) (st : run) : M run :=
  match oclc with
  | [] => mret st
  | row :: rest =>
      if (1 <? i)%nat then
        match RowToRecord oclcColumns row with
        | Some r =>
            rec ← alloc r;
            s ← Scanner1.Scan rec tindColumns tind;
            match s : list RecordT with
            | _ :: _ =>
                rows (S i) rest tind
                  (mkRun (out st ++ printed s) (matchedCnt st + 1) (unmatchedCnt st))
            | [] =>
                rows (S i) rest tind
                  (mkRun (out st) (matchedCnt st) (unmatchedCnt st + 1))
            end
        | None => abort
        end
      else rows (S i) rest tind st
  end.

(** [rec := new(Record)] serves [rec.Header()] before the loop. *)
Definition main (oclc tind : list (list string)) : M run :=
  alloc newRecord;;
  rows 0 oclc tind (mkRun [Header] 0 0).
End Pipeline1.

(** * Notions used to state the properties *)

(** The descriptive fields compared by [Match], in the order of the call of
    [countTrue]; the identifiers [FTind] and [FOCLC] are not among them. *)
Definition designated : list field :=
  [ FMaterialType; FMonoOrSerial; FDate1; FDate2; FForm;
    FISBN; FISSN; FPublisher; FYear ].

(** How many designated fields hold the same text in both records. *)
Definition agreement (a b : RecordT) : nat :=
  length (filter (fun f => getField f a = getField f b) designated).

(** What [Merge] leaves in the base record [base] when the other record is
    [other]: an empty identifier is taken from [other]. *)
Definition fillEmpty (f : field) (other base : RecordT) : RecordT :=
  if getField f base =? "" then setField f (getField f other) base else base.

Definition filled (other base : RecordT) : RecordT :=
  fillEmpty FOCLC other (fillEmpty FTind other base).

(** Two records that differ at most in their identifiers and their count. *)
Definition sameKey (a b : RecordT) : Prop :=
  forall f, f <> FTind -> f <> FOCLC -> getField f a = getField f b.

(** Two stores of the same size whose records differ at most in their
    identifiers and counts. *)
Definition akin (h h' : heap) : Prop := Forall2 sameKey h h'.

(** [p] is an allocated pointer of [h]. *)
Definition valid (h : heap) (p : ptr) : Prop := (p < length h)%nat.

(** The answer of [Match] for the records behind two pointers. *)
Definition matches (h : heap) (target : ptr) (withLevenshtein : bool)
    (source : ptr) : bool :=
  match h !! target, h !! source with
  | Some t, Some s => Reconcile.Match t s withLevenshtein
  | _, _ => false
  end.

(** The candidates of [sources] that match [target], in order. *)
Definition matching (h : heap) (target : ptr) (withLevenshtein : bool)
    (sources : list ptr) : list ptr :=
  filter (fun source => matches h target withLevenshtein source = true) sources.

(** The lines of a call of [Scan] for the target [p], seen from the store
    [h]: one for each candidate that matches [p], in the order of the
    candidates; each line carries their number as its count, and agrees
    with its candidate on every field that is not an identifier. *)
Definition scanned (h : heap) (tind : list ptr) (withLevenshtein : bool)
    (p : ptr) (chunk : list RecordT) : Prop :=
  Forall (fun r => MatchedCount r
                   = Z.of_nat (length (matching h p withLevenshtein tind)))
         chunk
  /\ Forall2 (fun c r => exists x, h !! c = Some x /\ sameKey x r)
             (matching h p withLevenshtein tind) chunk.

(** The positions, counted from [i], of the targets of [oclc] that no
    candidate of [tind] matches. *)
Fixpoint unmatchedFrom (h : heap) (tind : list ptr) (withLevenshtein : bool)
    (i : nat) (oclc : list ptr) : list nat :=
  match oclc with
  | [] => []
  | p :: rest =>
      if decide (matching h p withLevenshtein tind = [])
      then i :: unmatchedFrom h tind withLevenshtein (S i) rest
      else unmatchedFrom h tind withLevenshtein (S i) rest
  end.

(** The target behind [p] carries an identifier of the resume index. *)
Definition resolved (matchedIDs : gset string) (h : heap) (p : ptr) : Prop :=
  match h !! p with
  | Some r => OCLC r ∈ matchedIDs
  | None => False
  end.

#[global] Instance resolved_dec (matchedIDs : gset string) (h : heap) (p : ptr)
  : Decision (resolved matchedIDs h p).
Proof. unfold resolved. destruct (h !! p); apply _. Defined.

(** The records outside [tind] keep their [OCLC]. *)
Definition keepsOCLC (tind : list ptr) (h h' : heap) : Prop :=
  forall p r, p ∉ tind -> h !! p = Some r ->
    exists r', h' !! p = Some r' /\ OCLC r' = OCLC r.

(** The lines that one processed target contributes to the output of
    [src/reconcile2/reconcile2.go]: with [k > 0] matching candidates, [k]
    record lines; without one, a single empty line. *)
Definition chunkOf (h : heap) (tind : list ptr) (p : ptr) (chunk : list line)
    : Prop :=
  (matching h p false tind = [] /\ chunk = [Blank])
  \/ (exists ls, chunk = map Line ls /\ ls <> []
        /\ length ls = length (matching h p false tind)
        /\ Forall (fun r => MatchedCount r
                      = Z.of_nat (length (matching h p false tind))) ls).

(** Two small tables in the column order of [oclcColumns] and
    [tindColumns], each with a header row.  The first data rows agree on the
    title and on the nine designated fields; the second agree on the title
    and on four fields only. *)
Definition exampleOCLC : list (list string) :=
  [ [ "material type"; "mono or serial"; "date1"; "date2"; "form"; "isbn";
      "issn"; "oclc"; "title"; "subtitle"; "author"; "publisher"; "year";
      "pagination" ];
    [ "book"; "m"; "1999"; ""; "p"; "0-1"; ""; "o1"; "Hydrology Basics"; "";
      "A. Author"; "Pub"; "1999"; "10 p." ];
    [ "map"; "s"; "1980"; "1981"; "q"; "0-2"; "1-1"; "o2"; "Tides"; "";
      "B. Author"; "Other"; "1980"; "2 p." ] ].

Definition exampleTIND : list (list string) :=
  [ [ "material type"; "mono or serial"; "date1"; "date2"; "form"; "tind";
      "oclc"; "isbn"; "issn"; "title"; "subtitle"; "author"; "publisher";
      "year"; "pagination" ];
    [ "book"; "m"; "1999"; ""; "p"; "T1"; ""; "0-1"; ""; "Hydrology Basics";
      ""; "A. Author"; "Pub"; "1999"; "10 p." ];
    [ "map"; "s"; "1980"; "1981"; "x"; "T2"; ""; "0-3"; "1-2"; "Tides"; "";
      "B. Author"; "Else"; "1985"; "2 p." ] ].

(** A table row whose record [Match] of [src/unnamed/part_000] accepts
    for the target record [t]. *)
Definition rowMatches (columnNames : list string) (t : RecordT)
    (row : list string) : Prop :=
  match RowToRecord columnNames row with
  | Some s => Reconcile1.Match t s = true
  | None => False
  end.

#[global] Instance rowMatches_dec (columnNames : list string) (t : RecordT)
    (row : list string) : Decision (rowMatches columnNames t row).
Proof. unfold rowMatches. destruct (RowToRecord columnNames row); apply _. Defined.

(** The last column of [columnNames] that the switch of [RowToRecord] sends
    to field [f], counting from [colNo]; [None] when no column does. *)
Fixpoint lastColumn (f : field) (colNo : nat) (columnNames : list string)
    : option nat :=
  match columnNames with
  | [] => None
  | cName :: rest =>
      match lastColumn f (S colNo) rest with
      | Some i => Some i
      | None =>
          match columnField cName with
          | Some g => if field_eqb f g then Some colNo else None
          | None => None
          end
      end
  end.

(** Every column name with an arm in the switch has a slot in the row. *)
Definition slotsExist (colNo : nat) (columnNames row : list string) : Prop :=
  forall (i : nat) (cName : string),
    columnNames !! i = Some cName -> is_Some (columnField cName) ->
    (colNo + i < length row)%nat.

(** The suffixes of a list, longest first. *)
Fixpoint tails {A : Type} (l : list A) : list (list A) :=
  l :: match l with
       | [] => []
       | _ :: l' => tails l'
       end.

(** An edit script from [src] to [target] and its cost. *)
Inductive edits (insertCost deleteCost substituteCost : Z)
    : list Z -> list Z -> Z -> Prop :=
  | edits_nil : edits insertCost deleteCost substituteCost [] [] 0
  | edits_keep a src target n :
      edits insertCost deleteCost substituteCost src target n ->
      edits insertCost deleteCost substituteCost (a :: src) (a :: target) n
  | edits_substitute a b src target n :
      a <> b -> edits insertCost deleteCost substituteCost src target n ->
      edits insertCost deleteCost substituteCost (a :: src) (b :: target)
        (n + substituteCost)
  | edits_delete a src target n :
      edits insertCost deleteCost substituteCost src target n ->
      edits insertCost deleteCost substituteCost (a :: src) target
        (n + deleteCost)
  | edits_insert b src target n :
      edits insertCost deleteCost substituteCost src target n ->
      edits insertCost deleteCost substituteCost src (b :: target)
        (n + insertCost).

(** [target] is [src] with one rune substituted by another, with one rune
    inserted, or with one rune deleted. *)
Inductive oneEdit : list Z -> list Z -> Prop :=
  | oneEdit_substitute p a b q :
      a <> b -> oneEdit (p ++ a :: q) (p ++ b :: q)
  | oneEdit_insert p b q : oneEdit (p ++ q) (p ++ b :: q)
  | oneEdit_delete p a q : oneEdit (p ++ a :: q) (p ++ q).

(** * Properties *)

(** ** Counting and the nine designated fields *)

Lemma countTrue_from_filter (booleans : list bool) (cnt : Z) :
  countTrue_from cnt booleans
  = cnt + Z.of_nat (length (filter (fun b => b = true) booleans)).
Proof.
  revert cnt. induction booleans as [|b bs IH]; intros cnt; simpl.
  - lia.
  - rewrite IH. destruct b.
    + rewrite filter_cons_True by done. simpl. lia.
    + rewrite filter_cons_False by done. lia.
Qed.

Lemma fieldComparisons_designated (a b : RecordT) :
  fieldComparisons a b
  = map (fun f => getField f a =? getField f b) designated.
Proof. reflexivity. Qed.

Lemma filter_eqb_length (a b : RecordT) (fs : list field) :
  length (filter (fun x => x = true)
            (map (fun f => getField f a =? getField f b) fs))
  = length (filter (fun f => getField f a = getField f b) fs).
Proof.
  induction fs as [|f fs IH]; [done|]. simpl map.
  destruct (String.eqb_spec (getField f a) (getField f b)) as [E|E].
  - rewrite !filter_cons_True by done. simpl. by rewrite IH.
  - rewrite filter_cons_False by done.
    rewrite (filter_cons_False (fun f => getField f a = getField f b)) by done.
    done.
Qed.

Lemma countTrue_agreement (a b : RecordT) :
  countTrue (fieldComparisons a b) = Z.of_nat (agreement a b).
Proof.
  unfold countTrue, agreement.
  rewrite countTrue_from_filter, fieldComparisons_designated, filter_eqb_length.
  lia.
Qed.

Lemma agreement_le_9 (a b : RecordT) : (agreement a b <= 9)%nat.
Proof.
  unfold agreement.
  etransitivity; [apply length_filter|]. done.
Qed.

Lemma agreement_sym (a b : RecordT) : agreement a b = agreement b a.
Proof.
  unfold agreement. f_equal. apply list_filter_iff. intros f. split; congruence.
Qed.

Lemma getField_setField (f g : field) (v : string) (r : RecordT) :
  getField f (setField g v r) = if field_eqb f g then v else getField f r.
Proof. destruct r, f, g; reflexivity. Qed.

Lemma MatchedCount_setField (g : field) (v : string) (r : RecordT) :
  MatchedCount (setField g v r) = MatchedCount r.
Proof. destruct r, g; reflexivity. Qed.

Lemma getField_setMatchedCount (f : field) (n : Z) (r : RecordT) :
  getField f (setMatchedCount n r) = getField f r.
Proof. destruct r, f; reflexivity. Qed.

Lemma MatchedCount_setMatchedCount (n : Z) (r : RecordT) :
  MatchedCount (setMatchedCount n r) = n.
Proof. destruct r; reflexivity. Qed.

Lemma record_ext (a b : RecordT) :
  (forall f, getField f a = getField f b) ->
  MatchedCount a = MatchedCount b -> a = b.
Proof.
  intros H Hc. destruct a, b. simpl in Hc.
  pose proof (H FMaterialType). pose proof (H FMonoOrSerial).
  pose proof (H FDate1). pose proof (H FDate2). pose proof (H FForm).
  pose proof (H FTind). pose proof (H FOCLC). pose proof (H FISBN).
  pose proof (H FISSN). pose proof (H FTitle). pose proof (H FSubTitle).
  pose proof (H FAuthor). pose proof (H FPublisher). pose proof (H FYear).
  pose proof (H FPagination). simpl in *. subst. reflexivity.
Qed.

(** ** The edit distance *)

Section EditDistanceFacts.
Variables insertCost deleteCost substituteCost : Z.

Lemma distance_nil_r (src : list Z) :
  distance insertCost deleteCost substituteCost src []
  = Z.of_nat (length src) * deleteCost.
Proof. destruct src; simpl; lia. Qed.

Lemma distance_cons_cons (a b : Z) (src target : list Z) :
  distance insertCost deleteCost substituteCost (a :: src) (b :: target)
  = Z.min (Z.min (distance insertCost deleteCost substituteCost src (b :: target)
                  + deleteCost)
                 (distance insertCost deleteCost substituteCost (a :: src) target
                  + insertCost))
          (distance insertCost deleteCost substituteCost src target
           + substitution substituteCost a b).
Proof. reflexivity. Qed.

#[local] Abbreviation edits := (edits insertCost deleteCost substituteCost).

Lemma distance_delete (a : Z) (src target : list Z) :
  distance insertCost deleteCost substituteCost (a :: src) target
  <= distance insertCost deleteCost substituteCost src target + deleteCost.
Proof.
  destruct target as [|b target].
  - rewrite !distance_nil_r. simpl length. lia.
  - rewrite distance_cons_cons. lia.
Qed.

Lemma distance_insert (b : Z) (src target : list Z) :
  distance insertCost deleteCost substituteCost src (b :: target)
  <= distance insertCost deleteCost substituteCost src target + insertCost.
Proof.
  destruct src as [|a src].
  - simpl. lia.
  - rewrite distance_cons_cons. lia.
Qed.

(** No script is cheaper than [distance]. *)
Lemma distance_least (src target : list Z) (n : Z) :
  edits src target n ->
  distance insertCost deleteCost substituteCost src target <= n.
Proof.
  induction 1 as [|a src target n _ IH|a b src target n Hab _ IH
                  |a src target n _ IH|b src target n _ IH].
  - simpl. lia.
  - rewrite distance_cons_cons. unfold substitution.
    rewrite Z.eqb_refl. lia.
  - rewrite distance_cons_cons. unfold substitution.
    destruct (Z.eqb_spec a b); [done|]. lia.
  - pose proof (distance_delete a src target). lia.
  - pose proof (distance_insert b src target). lia.
Qed.

Lemma edits_from_nil (target : list Z) :
  edits [] target (Z.of_nat (length target) * insertCost).
Proof.
  induction target as [|b target IH]; [apply edits_nil|].
  replace (Z.of_nat (length (b :: target)) * insertCost)
    with (Z.of_nat (length target) * insertCost + insertCost)
    by (simpl length; lia).
  by apply edits_insert.
Qed.

Lemma edits_to_nil (src : list Z) :
  edits src [] (Z.of_nat (length src) * deleteCost).
Proof.
  induction src as [|a src IH]; [apply edits_nil|].
  replace (Z.of_nat (length (a :: src)) * deleteCost)
    with (Z.of_nat (length src) * deleteCost + deleteCost)
    by (simpl length; lia).
  by apply edits_delete.
Qed.

(** Some script costs exactly [distance]. *)
Lemma distance_attained (src target : list Z) :
  edits src target (distance insertCost deleteCost substituteCost src target).
Proof.
  revert target. induction src as [|a src IHsrc]; intros target.
  - apply edits_from_nil.
  - induction target as [|b target IHtarget].
    + rewrite distance_nil_r. apply edits_to_nil.
    + rewrite distance_cons_cons.
      set (d := distance insertCost deleteCost substituteCost) in *.
      destruct (Z.min_spec (Z.min (d src (b :: target) + deleteCost)
                                  (d (a :: src) target + insertCost))
                           (d src target + substitution substituteCost a b))
        as [[_ ->]|[_ ->]].
      * destruct (Z.min_spec (d src (b :: target) + deleteCost)
                             (d (a :: src) target + insertCost))
          as [[_ ->]|[_ ->]].
        -- apply edits_delete, IHsrc.
        -- apply edits_insert, IHtarget.
      * unfold substitution. destruct (Z.eqb_spec a b) as [->|Hab].
        -- rewrite Z.add_0_r. apply edits_keep, IHsrc.
        -- apply edits_substitute; [done|apply IHsrc].
Qed.

(** The rows hold the distances to the suffixes of the target. *)
Lemma firstRow_distance (target : list Z) :
  firstRow insertCost target
  = map (distance insertCost deleteCost substituteCost []) (tails target).
Proof.
  induction target as [|b target IH]; [done|].
  simpl firstRow. rewrite IH. reflexivity.
Qed.

Lemma hd_map_tails (g : list Z -> Z) (target : list Z) :
  hd 0 (map g (tails target)) = g target.
Proof. destruct target; reflexivity. Qed.

Lemma nextRow_distance (a : Z) (src target : list Z) :
  nextRow insertCost deleteCost substituteCost a target
    (map (distance insertCost deleteCost substituteCost src) (tails target))
  = map (distance insertCost deleteCost substituteCost (a :: src))
        (tails target).
Proof.
  induction target as [|b target IH].
  - simpl tails. simpl map. simpl nextRow. rewrite !distance_nil_r.
    simpl length. f_equal. lia.
  - change (tails (b :: target)) with ((b :: target) :: tails target).
    rewrite !map_cons. simpl nextRow. rewrite IH, !hd_map_tails.
    rewrite distance_cons_cons. reflexivity.
Qed.

Lemma rows_distance (src target : list Z) :
  rows insertCost deleteCost substituteCost src target
  = map (distance insertCost deleteCost substituteCost src) (tails target).
Proof.
  induction src as [|a src IH]; simpl rows.
  - apply firstRow_distance.
  - rewrite IH. apply nextRow_distance.
Qed.

Lemma distance_by_rows_correct (src target : list Z) :
  distance insertCost deleteCost substituteCost src target
  = distance_by_rows insertCost deleteCost substituteCost src target.
Proof.
  unfold distance_by_rows. by rewrite rows_distance, hd_map_tails.
Qed.
End EditDistanceFacts.

(** Exchanging the two strings exchanges insertion and deletion. *)
Lemma distance_swap (ins del sub : Z) (src target : list Z) :
  distance ins del sub src target = distance del ins sub target src.
Proof.
  revert target. induction src as [|a src IHsrc]; intros target.
  - rewrite distance_nil_r. reflexivity.
  - induction target as [|b target IHtarget].
    + rewrite distance_nil_r. reflexivity.
    + rewrite !distance_cons_cons.
      rewrite IHtarget, !IHsrc. unfold substitution.
      rewrite (Z.eqb_sym b a).
      rewrite (Z.min_comm (distance del ins sub (b :: target) src + del)).
      reflexivity.
Qed.

Lemma Levenshtein_sym (a b : string) (cost sub : Z) (caseSensitive : bool) :
  Levenshtein a b cost cost sub caseSensitive
  = Levenshtein b a cost cost sub caseSensitive.
Proof.
  unfold Levenshtein. rewrite <- !distance_by_rows_correct. apply distance_swap.
Qed.

(** The value of [Levenshtein] is the cheapest cost of [distance]. *)
Lemma Levenshtein_distance (a b : string) (ins del sub : Z) (cs : bool) :
  Levenshtein a b ins del sub cs
  = let fold s := if cs then s else map toLower s in
    distance ins del sub (fold (runes a)) (fold (runes b)).
Proof. unfold Levenshtein. symmetry. apply distance_by_rows_correct. Qed.

(** *** Unit costs *)

Lemma edits_same (ins del sub : Z) (x : list Z) : edits ins del sub x x 0.
Proof. induction x as [|a x IH]; [apply edits_nil|by apply edits_keep]. Qed.

Lemma oneEdit_cons (a : Z) (x y : list Z) :
  oneEdit x y -> oneEdit (a :: x) (a :: y).
Proof.
  intros [p c d q Hcd|p d q|p c q]; rewrite !app_comm_cons.
  - by apply oneEdit_substitute.
  - apply oneEdit_insert.
  - apply oneEdit_delete.
Qed.

Lemma oneEdit_edits (x y : list Z) : oneEdit x y -> edits 1 1 1 x y 1.
Proof.
  intros [p c d q Hcd|p d q|p c q]; induction p as [|a p IH]; simpl;
    try (by apply edits_keep).
  - apply (edits_substitute 1 1 1 c d q q 0 Hcd), edits_same.
  - apply (edits_insert 1 1 1 d q q 0), edits_same.
  - apply (edits_delete 1 1 1 c q q 0), edits_same.
Qed.

Lemma oneEdit_differ (x y : list Z) : oneEdit x y -> x <> y.
Proof.
  intros [p c d q Hcd|p d q|p c q] E.
  - apply app_inv_head in E. congruence.
  - apply (f_equal length) in E. rewrite !length_app in E. simpl in E. lia.
  - apply (f_equal length) in E. rewrite !length_app in E. simpl in E. lia.
Qed.

(** A script of unit cost steps costs nothing only between equal texts,
    and 1 only across one edit. *)
Lemma edits_unit (x y : list Z) (n : Z) :
  edits 1 1 1 x y n ->
  0 <= n /\ (n = 0 -> x = y) /\ (n = 1 -> oneEdit x y).
Proof.
  induction 1 as [|a x y n _ (IH0 & IH1 & IH2)|a b x y n Hab _ (IH0 & IH1 & IH2)
                  |a x y n _ (IH0 & IH1 & IH2)|b x y n _ (IH0 & IH1 & IH2)].
  - split; [lia|]. split; [done|]. intros H. discriminate H.
  - split; [lia|]. split.
    + intros Hn. by rewrite (IH1 Hn).
    + intros Hn. by apply oneEdit_cons, IH2.
  - split; [lia|]. split; [lia|]. intros Hn.
    rewrite (IH1 ltac:(lia)). by apply (oneEdit_substitute [] a b y).
  - split; [lia|]. split; [lia|]. intros Hn.
    rewrite (IH1 ltac:(lia)). apply (oneEdit_delete [] a y).
  - split; [lia|]. split; [lia|]. intros Hn.
    rewrite (IH1 ltac:(lia)). apply (oneEdit_insert [] b y).
Qed.

Lemma distance_unit_0 (x y : list Z) : distance 1 1 1 x y = 0 <-> x = y.
Proof.
  split.
  - intros E. pose proof (distance_attained 1 1 1 x y) as He. rewrite E in He.
    by apply (edits_unit x y 0 He).
  - intros ->. pose proof (distance_least 1 1 1 y y 0 (edits_same 1 1 1 y)).
    pose proof (edits_unit y y _ (distance_attained 1 1 1 y y)). lia.
Qed.

Lemma distance_unit_1 (x y : list Z) : distance 1 1 1 x y = 1 <-> oneEdit x y.
Proof.
  split.
  - intros E. pose proof (distance_attained 1 1 1 x y) as He. rewrite E in He.
    by apply (edits_unit x y 1 He).
  - intros H1. pose proof (distance_least 1 1 1 x y 1 (oneEdit_edits x y H1)).
    pose proof (edits_unit x y _ (distance_attained 1 1 1 x y)) as (H0 & _).
    destruct (decide (distance 1 1 1 x y = 0)) as [E|E]; [|lia].
    apply distance_unit_0 in E. by apply oneEdit_differ in H1.
Qed.

Lemma distance_unit_le_1 (x y : list Z) :
  distance 1 1 1 x y <= 1 <-> x = y \/ oneEdit x y.
Proof.
  rewrite <- distance_unit_0, <- distance_unit_1.
  pose proof (edits_unit x y _ (distance_attained 1 1 1 x y)) as (H0 & _). lia.
Qed.

(** ** The match predicate *)

Lemma Match_strict (target source : RecordT) :
  Reconcile.Match target source false
  = ((Title target =? Title source)
     || (TrimSpace (Title target) =? TrimSpace (Title source)))
    && (countTrue (fieldComparisons target source) >? 5)%Z.
Proof.
  unfold Reconcile.Match.
  destruct (Title target =? Title source),
           (TrimSpace (Title target) =? TrimSpace (Title source)),
           (countTrue (fieldComparisons target source) >? 5)%Z; reflexivity.
Qed.

Lemma Match_fuzzy (target source : RecordT) :
  Reconcile.Match target source true
  = (Levenshtein (Title target) (Title source) 1 1 1 false <=? 1)%Z
    && (countTrue (fieldComparisons target source) >? 5)%Z.
Proof.
  unfold Reconcile.Match.
  destruct (Levenshtein (Title target) (Title source) 1 1 1 false <=? 1)%Z,
           (countTrue (fieldComparisons target source) >? 5)%Z; reflexivity.
Qed.

Lemma Match1_unfold (target source : RecordT) :
  Reconcile1.Match target source
  = ((TrimSpace (Title target) =? TrimSpace (Title source))
     || (Levenshtein (Title target) (Title source) 1 1 1 true =? 1)%Z)
    && (countTrue (fieldComparisons target source) >? 5)%Z.
Proof.
  unfold Reconcile1.Match.
  destruct (TrimSpace (Title target) =? TrimSpace (Title source)),
           (Levenshtein (Title target) (Title source) 1 1 1 true =? 1)%Z,
           (countTrue (fieldComparisons target source) >? 5)%Z; reflexivity.
Qed.

Lemma count_gt_5 (a b : RecordT) :
  (countTrue (fieldComparisons a b) >? 5)%Z = true <-> (5 < agreement a b)%nat.
Proof. rewrite countTrue_agreement, Z.gtb_gt. lia. Qed.

(** An identifier field is not a designated field: writing one changes
    neither the title nor any comparison. *)
Lemma fieldComparisons_identifier (f g : field) (v w : string) (a b : RecordT) :
  f ∈ [FTind; FOCLC] -> g ∈ [FTind; FOCLC] ->
  fieldComparisons (setField f v a) (setField g w b) = fieldComparisons a b
  /\ Title (setField f v a) = Title a /\ Title (setField g w b) = Title b.
Proof.
  intros Hf Hg. rewrite !elem_of_cons, elem_of_nil in Hf, Hg.
  destruct a, b.
  destruct Hf as [->|[->|[]]], Hg as [->|[->|[]]]; repeat split.
Qed.

(** C1. In the strict pass ([withLevenshtein = false]) [Match] of
    [src/reconcile.go] is true exactly when the titles are equal as they
    are or after [strings.TrimSpace], and more than 5 of the 9 designated
    fields hold equal text.  The comparison of a field is plain string
    equality, and the two identifiers [Tind] and [OCLC] take no part: the
    result is the same whatever is written into them. *)
Theorem C1_strict_match_iff :
  (forall target source : RecordT,
     Reconcile.Match target source false = true
     <-> (Title target = Title source
          \/ TrimSpace (Title target) = TrimSpace (Title source))
         /\ (5 < agreement target source)%nat)
  /\ length designated = 9%nat
  /\ (FTind ∉ designated) /\ (FOCLC ∉ designated)
  /\ (forall (target source : RecordT) (f g : field) (v w : string),
        f ∈ [FTind; FOCLC] -> g ∈ [FTind; FOCLC] ->
        Reconcile.Match (setField f v target) (setField g w source) false
        = Reconcile.Match target source false).
Proof.
  split; [|split; [reflexivity|split; [|split]]].
  - intros target source. rewrite Match_strict, andb_true_iff, orb_true_iff.
    rewrite !String.eqb_eq, count_gt_5. reflexivity.
  - unfold designated. rewrite !elem_of_cons, elem_of_nil. intuition discriminate.
  - unfold designated. rewrite !elem_of_cons, elem_of_nil. intuition discriminate.
  - intros target source f g v w Hf Hg. rewrite !Match_strict.
    destruct (fieldComparisons_identifier f g v w target source Hf Hg)
      as (-> & -> & ->). reflexivity.
Qed.

(** The hypotheses of the last part of C1 hold for a record whose [Tind] is
    overwritten on one side and [OCLC] on the other. *)
Lemma C1_strict_match_iff_witness :
  FTind ∈ [FTind; FOCLC] /\ FOCLC ∈ [FTind; FOCLC]
  /\ Reconcile.Match (setField FTind "T1" newRecord)
       (setField FOCLC "o7" newRecord) false
     = Reconcile.Match newRecord newRecord false.
Proof.
  split; [|split].
  - apply list_elem_of_here.
  - apply list_elem_of_further, list_elem_of_here.
  - apply (proj2 (proj2 (proj2 (proj2 C1_strict_match_iff)))).
    + apply list_elem_of_here.
    + apply list_elem_of_further, list_elem_of_here.
Defined.

(** Two records that differ in their titles only agree on the nine
    designated fields. *)
Lemma agreement_retitled (a b : string) (r : RecordT) :
  agreement (setField FTitle a r) (setField FTitle b r) = 9%nat.
Proof.
  destruct r. unfold agreement, designated.
  by rewrite !filter_cons_True by done.
Qed.

(** C2 does not hold of [Match] of [src/unnamed/part_000], lines 117-124:
    the titles "Hydrology Basics" and "hydrology basics" are at
    case-insensitive distance 0 and the two records agree on all nine
    designated fields, yet [Match] gives false.  Its call of [Levenshtein]
    keeps the case, and two letters differ. *)
Lemma C2_part_000_keeps_the_case :
  let a := setField FTitle "Hydrology Basics" newRecord in
  let b := setField FTitle "hydrology basics" newRecord in
  Levenshtein (Title a) (Title b) 1 1 1 false = 0
  /\ agreement a b = 9%nat
  /\ Levenshtein (Title a) (Title b) 1 1 1 true = 2
  /\ Reconcile1.Match a b = false.
Proof.
  intros a b. split; [by vm_compute|]. split; [apply agreement_retitled|].
  split; by vm_compute.
Qed.

(** C2, as the code has it.  In the fuzzy pass ([withLevenshtein = true])
    [Match] of [src/reconcile.go] is true exactly when the two titles,
    read as runes and each rune replaced by its lower case, are equal or
    one edit apart (one rune substituted, inserted or deleted), and more
    than 5 designated fields agree.  [Match] of [src/unnamed/part_000] keeps the
    case: it is true exactly when the trimmed titles are equal or the
    titles as they are lie one edit apart, and more than 5 designated
    fields agree.  The value of [Levenshtein] with unit costs is the cost
    of the cheapest script of insertions, deletions and substitutions.
    With the other fields equal, [src/reconcile.go] pairs
    "Hydrology Basics" with "hydrology basics" (distance 0) and with
    "Hydrology Basic" (distance 1), and does not pair "Hydrology" with
    "Hydrological" (distance 4). *)
Theorem C2_fuzzy_title_within_one :
  (forall target source : RecordT,
     Reconcile.Match target source true = true
     <-> (map toLower (runes (Title target))
          = map toLower (runes (Title source))
          \/ oneEdit (map toLower (runes (Title target)))
                     (map toLower (runes (Title source))))
         /\ (5 < agreement target source)%nat)
  /\ (forall target source : RecordT,
        Reconcile1.Match target source = true
        <-> (TrimSpace (Title target) = TrimSpace (Title source)
             \/ oneEdit (runes (Title target)) (runes (Title source)))
            /\ (5 < agreement target source)%nat)
  /\ (forall (a b : string) (caseSensitive : bool) (d : Z),
        Levenshtein a b 1 1 1 caseSensitive <= d
        <-> exists n, n <= d
            /\ edits 1 1 1
                 (if caseSensitive then runes a else map toLower (runes a))
                 (if caseSensitive then runes b else map toLower (runes b)) n)
  /\ (forall r : RecordT,
        Levenshtein "Hydrology Basics" "hydrology basics" 1 1 1 false = 0
        /\ Reconcile.Match (setField FTitle "Hydrology Basics" r)
             (setField FTitle "hydrology basics" r) true = true
        /\ Levenshtein "Hydrology Basics" "Hydrology Basic" 1 1 1 false = 1
        /\ Reconcile.Match (setField FTitle "Hydrology Basics" r)
             (setField FTitle "Hydrology Basic" r) true = true
        /\ Levenshtein "Hydrology" "Hydrological" 1 1 1 false = 4
        /\ Reconcile.Match (setField FTitle "Hydrology" r)
             (setField FTitle "Hydrological" r) true = false).
Proof.
  split; [|split; [|split]].
  - intros target source. rewrite Match_fuzzy, andb_true_iff.
    rewrite Z.leb_le, count_gt_5, Levenshtein_distance.
    cbv zeta. by rewrite distance_unit_le_1.
  - intros target source. rewrite Match1_unfold, andb_true_iff, orb_true_iff.
    rewrite String.eqb_eq, Z.eqb_eq, count_gt_5, Levenshtein_distance.
    cbv zeta. by rewrite distance_unit_1.
  - intros a b cs d. rewrite Levenshtein_distance. cbv zeta. split.
    + intros H. eexists. split; [exact H|]. apply distance_attained.
    + intros (n & Hn & He). apply distance_least in He. lia.
  - intros r.
    assert (Hr : forall a b : string,
      Reconcile.Match (setField FTitle a r) (setField FTitle b r) true
      = (Levenshtein a b 1 1 1 false <=? 1)%Z).
    { intros a b. rewrite Match_fuzzy, countTrue_agreement, agreement_retitled.
      destruct r. simpl. by rewrite andb_true_r. }
    rewrite !Hr. repeat split; by vm_compute.
Qed.

(** C10. [Match] gives the same answer when its two records are exchanged,
    in the strict and in the fuzzy pass of [src/reconcile.go], and so does
    the single predicate of [src/unnamed/part_000]: each field test is an
    equality and the insertion and deletion costs are both 1. *)
Theorem C10_match_symmetric :
  (forall (a b : RecordT) (withLevenshtein : bool),
     Reconcile.Match a b withLevenshtein = Reconcile.Match b a withLevenshtein)
  /\ (forall a b : RecordT, Reconcile1.Match a b = Reconcile1.Match b a).
Proof.
  assert (Hcnt : forall a b,
    countTrue (fieldComparisons a b) = countTrue (fieldComparisons b a)).
  { intros a b. by rewrite !countTrue_agreement, agreement_sym. }
  split.
  - intros a b [|].
    + rewrite !Match_fuzzy, (Levenshtein_sym (Title a)), (Hcnt a b). reflexivity.
    + rewrite !Match_strict, (Hcnt a b), (String.eqb_sym (Title a)),
        (String.eqb_sym (TrimSpace (Title a))). reflexivity.
  - intros a b.
    rewrite !Match1_unfold, (Levenshtein_sym (Title a)), (Hcnt a b),
      (String.eqb_sym (TrimSpace (Title a))). reflexivity.
Qed.

(** ** Projection of a row *)

Lemma RowToRecord_from_slots (columnNames row : list string) :
  forall (colNo : nat) (rec : RecordT),
    slotsExist colNo columnNames row ->
    exists rec', RowToRecord_from colNo columnNames row rec = Some rec'
      /\ MatchedCount rec' = MatchedCount rec
      /\ forall f, getField f rec'
           = match lastColumn f colNo columnNames with
             | Some i => default "" (row !! i)
             | None => getField f rec
             end.
Proof.
  induction columnNames as [|cName rest IH]; intros colNo rec Hslots.
  - exists rec. repeat split.
  - assert (Hrest : slotsExist (S colNo) rest row).
    { intros i c Hi Hc. specialize (Hslots (S i) c Hi Hc). lia. }
    simpl RowToRecord_from. simpl lastColumn.
    destruct (columnField cName) as [g|] eqn:Hg.
    + assert (Hlt : (colNo < length row)%nat).
      { specialize (Hslots 0%nat cName eq_refl). rewrite Hg in Hslots.
        specialize (Hslots (mk_is_Some _ _ eq_refl)). lia. }
      destruct (lookup_lt_is_Some_2 row colNo Hlt) as [v Hv]. rewrite Hv.
      destruct (IH (S colNo) (setField g v rec) Hrest) as (rec' & -> & Hc & Hf).
      exists rec'. split; [done|]. split.
      * by rewrite Hc, MatchedCount_setField.
      * intros f. rewrite Hf.
        destruct (lastColumn f (S colNo) rest); [done|].
        rewrite getField_setField. destruct (field_eqb f g); [|done].
        by rewrite Hv.
    + destruct (IH (S colNo) rec Hrest) as (rec' & -> & Hc & Hf).
      exists rec'. split; [done|]. split; [done|].
      intros f. rewrite Hf. by destruct (lastColumn f (S colNo) rest).
Qed.

Lemma RowToRecord_from_returns (columnNames row : list string) :
  forall (colNo : nat) (rec rec' : RecordT),
    RowToRecord_from colNo columnNames row rec = Some rec' ->
    slotsExist colNo columnNames row.
Proof.
  induction columnNames as [|cName rest IH]; intros colNo rec rec' E.
  - intros i c Hi. by rewrite lookup_nil in Hi.
  - simpl in E. destruct (columnField cName) as [g|] eqn:Hg.
    + destruct (row !! colNo) as [v|] eqn:Hv; [|done].
      pose proof (IH _ _ _ E) as Hrest. intros [|i] c Hi Hc.
      * apply lookup_lt_Some in Hv. lia.
      * specialize (Hrest i c Hi Hc). lia.
    + pose proof (IH _ _ _ E) as Hrest. intros [|i] c Hi Hc.
      * simpl in Hi. injection Hi as <-. rewrite Hg in Hc. by destruct Hc.
      * specialize (Hrest i c Hi Hc). lia.
Qed.

(** A row shorter than the column list stops the program at the first
    column name with an arm and no slot. *)
Lemma C9_short_row_panics :
  RowToRecord ["material type"; "title"] ["book"] = None.
Proof. reflexivity. Qed.

(** C9, as the code has it.  [RowToRecord] returns a record exactly when
    every column name that has an arm in its switch stands at a position
    that exists in the row, which is so whenever the row is at least as long
    as the column list; with such a name beyond the end of the row it panics
    on [row[colNo]].  A name without an arm is skipped and never indexes the
    row.  In the record returned, a text field holds the row value of the
    last column naming it, or the empty text when no column names it, and
    [MatchedCount] is 0. *)
Theorem C9_projection_needs_slots (columnNames row : list string) :
  (is_Some (RowToRecord columnNames row) <-> slotsExist 0 columnNames row)
  /\ ((length columnNames <= length row)%nat ->
      is_Some (RowToRecord columnNames row))
  /\ (forall rec, RowToRecord columnNames row = Some rec ->
        MatchedCount rec = 0
        /\ forall f, getField f rec
             = match lastColumn f 0 columnNames with
               | Some i => default "" (row !! i)
               | None => ""
               end).
Proof.
  assert (Hyes : slotsExist 0 columnNames row ->
            exists rec, RowToRecord columnNames row = Some rec
              /\ MatchedCount rec = 0
              /\ forall f, getField f rec
                   = match lastColumn f 0 columnNames with
                     | Some i => default "" (row !! i)
                     | None => ""
                     end).
  { intros Hs.
    destruct (RowToRecord_from_slots columnNames row 0 newRecord Hs)
      as (rec & E & Hc & Hf).
    exists rec. split; [exact E|]. split; [exact Hc|].
    intros f. rewrite Hf. destruct (lastColumn f 0 columnNames); [done|].
    by destruct f. }
  split; [|split].
  - split.
    + intros [rec E]. by apply (RowToRecord_from_returns _ _ 0%nat newRecord rec).
    + intros Hs. destruct (Hyes Hs) as (rec & E & _). by exists rec.
  - intros Hlen.
    assert (Hs : slotsExist 0 columnNames row).
    { intros i c Hi _. apply lookup_lt_Some in Hi. lia. }
    destruct (Hyes Hs) as (rec & E & _). by exists rec.
  - intros rec E.
    pose proof (RowToRecord_from_returns _ _ 0%nat newRecord rec E) as Hs.
    destruct (Hyes Hs) as (rec' & E' & Hc & Hf).
    rewrite E in E'. injection E' as <-. by split.
Qed.

(** ** Reading and writing records *)

Lemma bind_eq {A B : Type} (m : M A) (k : A -> M B) (h h' : heap) (x : A) :
  m h = Some (x, h') -> (m ≫= k) h = k x h'.
Proof. intros E. unfold mbind, M_bind. by rewrite E. Qed.

Lemma bind_None {A B : Type} (m : M A) (k : A -> M B) (h : heap) :
  m h = None -> (m ≫= k) h = None.
Proof. intros E. unfold mbind, M_bind. by rewrite E. Qed.

Lemma bind_assoc {A B C : Type} (m : M A) (k : A -> M B) (k' : B -> M C)
    (h : heap) :
  ((m ≫= k) ≫= k') h = (m ≫= (fun x => k x ≫= k')) h.
Proof. unfold mbind, M_bind. by destruct (m h) as [[x h']|]. Qed.

Lemma load_ok (p : ptr) (h : heap) (r : RecordT) :
  h !! p = Some r -> load p h = Some (r, h).
Proof. intros E. unfold load. by rewrite E. Qed.

Lemma assign_ok (p : ptr) (r r0 : RecordT) (h : heap) :
  h !! p = Some r0 -> assign p r h = Some (tt, <[p := r]> h).
Proof. intros E. unfold assign. by rewrite E. Qed.

Lemma loadField_ok (f : field) (p : ptr) (h : heap) (r : RecordT) :
  h !! p = Some r -> loadField f p h = Some (getField f r, h).
Proof.
  intros E. unfold loadField. by rewrite (bind_eq _ _ _ _ _ (load_ok _ _ _ E)).
Qed.

Lemma storeField_ok (f : field) (p : ptr) (v : string) (h : heap) (r : RecordT) :
  h !! p = Some r ->
  storeField f p v h = Some (tt, <[p := setField f v r]> h).
Proof.
  intros E. unfold storeField.
  rewrite (bind_eq _ _ _ _ _ (load_ok _ _ _ E)). by apply assign_ok with r.
Qed.

Lemma storeMatchedCount_ok (p : ptr) (n : Z) (h : heap) (r : RecordT) :
  h !! p = Some r ->
  storeMatchedCount p n h = Some (tt, <[p := setMatchedCount n r]> h).
Proof.
  intros E. unfold storeMatchedCount.
  rewrite (bind_eq _ _ _ _ _ (load_ok _ _ _ E)). by apply assign_ok with r.
Qed.

Lemma setField_same (f : field) (r : RecordT) : setField f (getField f r) r = r.
Proof. destruct r, f; reflexivity. Qed.

(** One of the two [if] statements of [Merge]: field [f] of [dst] is taken
    from [src] when it is empty. *)
Lemma fill_statement (f : field) (src dst : ptr) (h : heap) (a b : RecordT) :
  h !! src = Some a -> h !! dst = Some b ->
  (x ← loadField f dst;
   if x =? "" then v ← loadField f src; storeField f dst v else skip) h
  = Some (tt, <[dst := fillEmpty f a b]> h).
Proof.
  intros Ha Hb. rewrite (bind_eq _ _ _ _ _ (loadField_ok f _ _ _ Hb)).
  unfold fillEmpty. destruct (getField f b =? "").
  - rewrite (bind_eq _ _ _ _ _ (loadField_ok f _ _ _ Ha)).
    by apply storeField_ok.
  - unfold skip, mret, M_ret. by rewrite list_insert_id.
Qed.

Lemma getField_fillEmpty (g f : field) (a b : RecordT) :
  getField g (fillEmpty f a b)
  = if field_eqb g f
    then (if getField f b =? "" then getField f a else getField f b)
    else getField g b.
Proof.
  unfold fillEmpty. destruct (getField f b =? "") eqn:E.
  - rewrite getField_setField. by destruct (field_eqb g f).
  - destruct (field_eqb g f) eqn:Eg; [|done]. by destruct g, f.
Qed.

Lemma MatchedCount_fillEmpty (f : field) (a b : RecordT) :
  MatchedCount (fillEmpty f a b) = MatchedCount b.
Proof.
  unfold fillEmpty. destruct (getField f b =? ""); [|done].
  apply MatchedCount_setField.
Qed.

(** The store after [Merge], with base [dst] and other side [src]; the
    two may be the same pointer. *)
Lemma fill_twice (src dst : ptr) (h : heap) (a b : RecordT) :
  h !! src = Some a -> h !! dst = Some b ->
  exists a', <[dst := fillEmpty FTind a b]> h !! src = Some a'
    /\ fillEmpty FOCLC a' (fillEmpty FTind a b) = filled a b.
Proof.
  intros Ha Hb. destruct (decide (src = dst)) as [->|Hne].
  - exists (fillEmpty FTind a b). split.
    + apply list_lookup_insert_eq. by apply lookup_lt_Some with b.
    + assert (a = b) as -> by congruence. unfold filled.
      unfold fillEmpty at 1 3. rewrite !getField_fillEmpty. reflexivity.
  - exists a. split; [|done]. by rewrite list_lookup_insert_ne.
Qed.

Lemma Merge_spec (target source : ptr) (h : heap) (t s : RecordT) :
  h !! target = Some t -> h !! source = Some s ->
  Merger.Merge target source h = Some (source, <[source := filled t s]> h).
Proof.
  intros Ht Hs. unfold Merger.Merge.
  rewrite <- bind_assoc.
  rewrite (bind_eq _ _ _ _ _ (fill_statement FTind _ _ _ _ _ Ht Hs)).
  destruct (fill_twice target source h t s Ht Hs) as (t' & Ht' & <-).
  assert (Hs' : <[source := fillEmpty FTind t s]> h !! source
                = Some (fillEmpty FTind t s)).
  { apply list_lookup_insert_eq. by apply lookup_lt_Some with s. }
  rewrite <- bind_assoc.
  rewrite (bind_eq _ _ _ _ _ (fill_statement FOCLC _ _ _ _ _ Ht' Hs')).
  by rewrite list_insert_insert_eq.
Qed.

Lemma Merge1_spec (target source : ptr) (h : heap) (t s : RecordT) :
  h !! target = Some t -> h !! source = Some s ->
  Merger1.Merge target source h = Some (target, <[target := filled s t]> h).
Proof.
  intros Ht Hs. unfold Merger1.Merge.
  rewrite <- bind_assoc.
  rewrite (bind_eq _ _ _ _ _ (fill_statement FTind _ _ _ _ _ Hs Ht)).
  destruct (fill_twice source target h s t Hs Ht) as (s' & Hs' & <-).
  assert (Ht' : <[target := fillEmpty FTind s t]> h !! target
                = Some (fillEmpty FTind s t)).
  { apply list_lookup_insert_eq. by apply lookup_lt_Some with t. }
  rewrite <- bind_assoc.
  rewrite (bind_eq _ _ _ _ _ (fill_statement FOCLC _ _ _ _ _ Hs' Ht')).
  by rewrite list_insert_insert_eq.
Qed.

Lemma identifier_filled (f : field) (a b : RecordT) :
  f ∈ [FTind; FOCLC] ->
  getField f (filled a b)
  = if getField f b =? "" then getField f a else getField f b.
Proof.
  intros Hf. rewrite !elem_of_cons, elem_of_nil in Hf. unfold filled.
  destruct Hf as [->|[->|[]]]; rewrite !getField_fillEmpty; reflexivity.
Qed.

Lemma other_field_filled (f : field) (a b : RecordT) :
  f <> FTind -> f <> FOCLC -> getField f (filled a b) = getField f b.
Proof.
  intros H1 H2. unfold filled. rewrite !getField_fillEmpty.
  by destruct f.
Qed.

Lemma populated_filled (f : field) (a b : RecordT) :
  getField f b <> "" -> getField f (filled a b) = getField f b.
Proof.
  intros Hne. unfold filled. rewrite !getField_fillEmpty.
  destruct (field_eqb f FOCLC) eqn:E1.
  - assert (f = FOCLC) as -> by (by destruct f). simpl.
    destruct (String.eqb_spec (OCLC b) ""); [|done]. by destruct Hne.
  - destruct (field_eqb f FTind) eqn:E2; [|done].
    assert (f = FTind) as -> by (by destruct f).
    destruct (String.eqb_spec (getField FTind b) ""); [|done]. by destruct Hne.
Qed.

Lemma MatchedCount_filled (a b : RecordT) :
  MatchedCount (filled a b) = MatchedCount b.
Proof. unfold filled. by rewrite !MatchedCount_fillEmpty. Qed.

Lemma identifier_cases (f : field) (a b : RecordT) :
  f ∈ [FTind; FOCLC] ->
  (getField f b <> "" -> getField f (filled a b) = getField f b)
  /\ (getField f b = "" -> getField f (filled a b) = getField f a).
Proof.
  intros Hf. rewrite (identifier_filled f a b Hf).
  destruct (String.eqb_spec (getField f b) ""); split; congruence.
Qed.

(** ** Merging *)

(** C3. [Merge] never overwrites an identifier that its base record already
    holds.  In [src/reconcile.go] and [src/reconcile2/reconcile2.go] the
    base is the candidate [source]: after the call its [Tind] (and likewise
    its [OCLC]) is what it was when that was not empty, and the target's
    when it was empty.  In [src/unnamed/part_000] the base is the target and
    the roles are exchanged. *)
Theorem C3_merge_keeps_populated_identifier
    (h : heap) (target source : ptr) (t s : RecordT) :
  h !! target = Some t -> h !! source = Some s ->
  (exists h' m, Merger.Merge target source h = Some (source, h')
     /\ h' !! source = Some m
     /\ forall f, f ∈ [FTind; FOCLC] ->
          (getField f s <> "" -> getField f m = getField f s)
          /\ (getField f s = "" -> getField f m = getField f t))
  /\ (exists h' m, Merger1.Merge target source h = Some (target, h')
     /\ h' !! target = Some m
     /\ forall f, f ∈ [FTind; FOCLC] ->
          (getField f t <> "" -> getField f m = getField f t)
          /\ (getField f t = "" -> getField f m = getField f s)).
Proof.
  intros Ht Hs. split.
  - exists (<[source := filled t s]> h), (filled t s).
    split; [by apply Merge_spec|]. split.
    + apply list_lookup_insert_eq. by apply lookup_lt_Some with s.
    + intros f Hf. by apply identifier_cases.
  - exists (<[target := filled s t]> h), (filled s t).
    split; [by apply Merge1_spec|]. split.
    + apply list_lookup_insert_eq. by apply lookup_lt_Some with t.
    + intros f Hf. by apply identifier_cases.
Qed.

(** C3 on the two examples of the specification: an empty [Tind] of the
    base takes "T100", and a base [OCLC] "T1" survives the other side's
    "T2". *)
Lemma C3_merge_keeps_populated_identifier_witness :
  let t := setField FOCLC "T2" (setField FTind "T100" newRecord) in
  let s := setField FOCLC "T1" newRecord in
  exists h' m, Merger.Merge 0 1 [t; s] = Some (1%nat, h')
    /\ h' !! 1%nat = Some m /\ Tind m = "T100" /\ OCLC m = "T1".
Proof.
  intros t s.
  destruct (C3_merge_keeps_populated_identifier [t; s] 0 1 t s eq_refl eq_refl)
    as [(h' & m & E & Hm & Hid) _].
  exists h', m. split; [exact E|]. split; [exact Hm|]. split.
  - apply (proj2 (Hid FTind (list_elem_of_here _ _))). reflexivity.
  - apply (proj1 (Hid FOCLC (list_elem_of_further _ _ _ (list_elem_of_here _ _)))).
    discriminate.
Defined.

(** [Merge] writes into the candidate it is given: the record behind
    [source] is no longer what it was, and a later merge of the same
    candidate with another target returns the identifier of the first
    target. *)
Lemma C4_merge_overwrites_candidate :
  let tA := setField FOCLC "o1" newRecord in
  let tB := setField FOCLC "o2" newRecord in
  let c := setField FTind "T9" newRecord in
  (exists h', Merger.Merge 0 2 [tA; tB; c] = Some (2%nat, h')
     /\ h' !! 2%nat <> Some c)
  /\ (m ← Merger.Merge 1 2; load m) [tA; tB; c]
     = Some (setField FOCLC "o2" c, [tA; tB; setField FOCLC "o2" c])
  /\ (Merger.Merge 0 2;; m ← Merger.Merge 1 2; load m) [tA; tB; c]
     = Some (setField FOCLC "o1" c, [tA; tB; setField FOCLC "o1" c]).
Proof.
  intros tA tB c. split; [|split].
  - eexists. split; [reflexivity|]. discriminate.
  - reflexivity.
  - reflexivity.
Qed.

(** C4, as the code has it.  [Merge] allocates nothing and returns its base
    pointer — the candidate in [src/reconcile.go] and
    [src/reconcile2/reconcile2.go], the target in [src/unnamed/part_000] —
    after updating the record behind it in place.  The update is confined to
    that record and to its two identifiers: every other record of the store,
    the other side included when it is another record, is unchanged, and in
    the base record every field that is not [Tind] or [OCLC], the count, and
    every identifier that was not empty are unchanged. *)
Theorem C4_merge_updates_base_in_place
    (h : heap) (target source : ptr) (t s : RecordT) :
  h !! target = Some t -> h !! source = Some s ->
  (exists h' m, Merger.Merge target source h = Some (source, h')
     /\ length h' = length h
     /\ (forall p, p <> source -> h' !! p = h !! p)
     /\ h' !! source = Some m
     /\ (forall f, f <> FTind -> f <> FOCLC -> getField f m = getField f s)
     /\ (forall f, getField f s <> "" -> getField f m = getField f s)
     /\ MatchedCount m = MatchedCount s)
  /\ (exists h' m, Merger1.Merge target source h = Some (target, h')
     /\ length h' = length h
     /\ (forall p, p <> target -> h' !! p = h !! p)
     /\ h' !! target = Some m
     /\ (forall f, f <> FTind -> f <> FOCLC -> getField f m = getField f t)
     /\ (forall f, getField f t <> "" -> getField f m = getField f t)
     /\ MatchedCount m = MatchedCount t).
Proof.
  intros Ht Hs. split.
  - exists (<[source := filled t s]> h), (filled t s).
    split; [by apply Merge_spec|]. split; [apply length_insert|].
    split; [intros p Hp; by apply list_lookup_insert_ne|].
    split; [apply list_lookup_insert_eq; by apply lookup_lt_Some with s|].
    split; [intros f; apply other_field_filled|].
    split; [intros f; apply populated_filled|apply MatchedCount_filled].
  - exists (<[target := filled s t]> h), (filled s t).
    split; [by apply Merge1_spec|]. split; [apply length_insert|].
    split; [intros p Hp; by apply list_lookup_insert_ne|].
    split; [apply list_lookup_insert_eq; by apply lookup_lt_Some with t|].
    split; [intros f; apply other_field_filled|].
    split; [intros f; apply populated_filled|apply MatchedCount_filled].
Qed.

(** C4 on a store of one target and one candidate: the target is left as it
    was and the candidate keeps its title. *)
Lemma C4_merge_updates_base_in_place_witness :
  let t := setField FOCLC "o1" newRecord in
  let s := setField FTitle "Hydrology" newRecord in
  exists h' m, Merger.Merge 0 1 [t; s] = Some (1%nat, h')
    /\ h' !! 0%nat = Some t /\ h' !! 1%nat = Some m /\ Title m = "Hydrology".
Proof.
  intros t s.
  destruct (C4_merge_updates_base_in_place [t; s] 0 1 t s eq_refl eq_refl)
    as [(h' & m & E & _ & Hother & Hm & Hkey & _) _].
  exists h', m. split; [exact E|]. split.
  - rewrite (Hother 0%nat); [reflexivity|discriminate].
  - split; [exact Hm|]. apply (Hkey FTitle); discriminate.
Defined.

(** C9 on a row with a column the switch does not know. *)
Lemma C9_projection_needs_slots_witness :
  exists rec, RowToRecord ["title"; "shelf"; "year"] ["Hydrology"; "B2"; "1999"]
              = Some rec
    /\ Title rec = "Hydrology" /\ Year rec = "1999" /\ Tind rec = "".
Proof.
  pose proof (C9_projection_needs_slots
                ["title"; "shelf"; "year"] ["Hydrology"; "B2"; "1999"])
    as (_ & Hlen & Hrec).
  destruct Hlen as [rec E]; [simpl; lia|].
  exists rec. split; [exact E|].
  destruct (Hrec rec E) as [_ Hf].
  split; [exact (Hf FTitle)|]. split; [exact (Hf FYear)|exact (Hf FTind)].
Defined.

(** ** Stores that differ in identifiers and counts only *)

Lemma sameKey_refl (a : RecordT) : sameKey a a.
Proof. by intros f _ _. Qed.

Lemma sameKey_trans (a b c : RecordT) : sameKey a b -> sameKey b c -> sameKey a c.
Proof. intros H1 H2 f Hf Hg. by rewrite (H1 f Hf Hg), (H2 f Hf Hg). Qed.

Lemma sameKey_filled (a b : RecordT) : sameKey b (filled a b).
Proof. intros f Hf Hg. by rewrite other_field_filled. Qed.

Lemma sameKey_setMatchedCount (n : Z) (a : RecordT) :
  sameKey a (setMatchedCount n a).
Proof. intros f _ _. by rewrite getField_setMatchedCount. Qed.

Lemma akin_refl (h : heap) : akin h h.
Proof. apply Forall2_same_length_lookup. split; [done|].
  intros i a b Ha Hb. assert (a = b) as -> by congruence. apply sameKey_refl.
Qed.

Lemma akin_trans (h1 h2 h3 : heap) : akin h1 h2 -> akin h2 h3 -> akin h1 h3.
Proof.
  unfold akin. intros H12. revert h3.
  induction H12 as [|a b h1 h2 Hab _ IH]; intros h3 H23.
  - by inversion H23.
  - inversion H23 as [|b' c h2' h3' Hbc H23']; subst.
    constructor; [by apply sameKey_trans with b|by apply IH].
Qed.

Lemma akin_length (h h' : heap) : akin h h' -> length h' = length h.
Proof. intros H. symmetry. by apply Forall2_length in H. Qed.

Lemma akin_valid (h h' : heap) (p : ptr) : akin h h' -> valid h p -> valid h' p.
Proof. unfold valid. intros H Hp. by rewrite (akin_length h h' H). Qed.

Lemma akin_lookup (h h' : heap) (p : ptr) (r : RecordT) :
  akin h h' -> h !! p = Some r -> exists r', h' !! p = Some r' /\ sameKey r r'.
Proof. intros H Hp. by apply (Forall2_lookup_l sameKey h h' p r). Qed.

Lemma akin_insert (h : heap) (p : ptr) (r r' : RecordT) :
  h !! p = Some r -> sameKey r r' -> akin h (<[p := r']> h).
Proof.
  intros Hp Hk. unfold akin.
  rewrite <- (list_insert_id h p r Hp) at 1.
  apply Forall2_insert; [apply akin_refl|done].
Qed.

Lemma valid_lookup (h : heap) (p : ptr) : valid h p -> exists r, h !! p = Some r.
Proof. intros Hp. by apply lookup_lt_is_Some_2. Qed.

Lemma Match_sameKey (t t' s s' : RecordT) (w : bool) :
  sameKey t t' -> sameKey s s' ->
  Reconcile.Match t s w = Reconcile.Match t' s' w.
Proof.
  intros Ht Hs.
  assert (Hf : forall f, f <> FTind -> f <> FOCLC ->
            getField f t = getField f t' /\ getField f s = getField f s')
    by (intros f H1 H2; split; [by apply Ht|by apply Hs]).
  destruct (Hf FTitle) as [T1 T2]; [done..|].
  assert (Hc : fieldComparisons t s = fieldComparisons t' s').
  { rewrite !fieldComparisons_designated. apply map_ext_in.
    intros f Hin. apply list_elem_of_In in Hin.
    destruct (Hf f) as [-> ->]; [| |done].
    - intros ->. revert Hin. unfold designated.
      rewrite !elem_of_cons, elem_of_nil. intuition discriminate.
    - intros ->. revert Hin. unfold designated.
      rewrite !elem_of_cons, elem_of_nil. intuition discriminate. }
  simpl in T1, T2. destruct w.
  - by rewrite !Match_fuzzy, T1, T2, Hc.
  - by rewrite !Match_strict, T1, T2, Hc.
Qed.

Lemma matches_akin (h h' : heap) (target source : ptr) (w : bool) :
  akin h h' -> matches h target w source = matches h' target w source.
Proof.
  intros H. unfold matches.
  destruct (h !! target) as [t|] eqn:Ht.
  - destruct (akin_lookup h h' target t H Ht) as (t' & -> & Hkt).
    destruct (h !! source) as [s|] eqn:Hs.
    + destruct (akin_lookup h h' source s H Hs) as (s' & -> & Hks).
      by apply Match_sameKey.
    + apply lookup_ge_None in Hs. rewrite <- (akin_length h h' H) in Hs.
      apply lookup_ge_None in Hs. by rewrite Hs.
  - apply lookup_ge_None in Ht. rewrite <- (akin_length h h' H) in Ht.
    apply lookup_ge_None in Ht. by rewrite Ht.
Qed.

Lemma matching_akin (h h' : heap) (target : ptr) (w : bool) (sources : list ptr) :
  akin h h' -> matching h target w sources = matching h' target w sources.
Proof.
  intros H. unfold matching. apply list_filter_iff.
  intros source. by rewrite (matches_akin h h' target source w H).
Qed.

Lemma MatchAt_ok (h : heap) (target source : ptr) (w : bool) :
  valid h target -> valid h source ->
  MatchAt target source w h = Some (matches h target w source, h).
Proof.
  intros Ht Hs. destruct (valid_lookup h target Ht) as [t Et].
  destruct (valid_lookup h source Hs) as [s Es].
  unfold MatchAt, matches.
  rewrite (bind_eq _ _ _ _ _ (load_ok _ _ _ Et)).
  rewrite (bind_eq _ _ _ _ _ (load_ok _ _ _ Es)).
  by rewrite Et, Es.
Qed.

(** ** Scanning *)

Lemma collect_spec (target : ptr) (w : bool) (sources : list ptr) :
  forall (h : heap) (matched : list ptr),
    valid h target -> Forall (valid h) sources ->
    exists h',
      Scanner.collect target sources w matched h
      = Some (matched ++ matching h target w sources, h')
      /\ akin h h'
      /\ (forall p, p ∉ sources -> h' !! p = h !! p).
Proof.
  induction sources as [|source rest IH]; intros h matched Ht Hs.
  - exists h. split; [|split; [apply akin_refl|done]].
    simpl. unfold matching. by rewrite filter_nil, app_nil_r.
  - apply Forall_cons in Hs as [Hs Hrest]. simpl Scanner.collect.
    rewrite (bind_eq _ _ _ _ _ (MatchAt_ok h target source w Ht Hs)).
    unfold matching. destruct (matches h target w source) eqn:Em.
    + rewrite filter_cons_True by done.
      destruct (valid_lookup h target Ht) as [t Et].
      destruct (valid_lookup h source Hs) as [s Es].
      rewrite (bind_eq _ _ _ _ _ (Merge_spec target source h t s Et Es)).
      set (h1 := <[source := filled t s]> h).
      assert (H1 : akin h h1) by (apply akin_insert with s; [done|apply sameKey_filled]).
      destruct (IH h1 (matched ++ [source])) as (h' & E & Hk & Hframe).
      { by apply akin_valid with h. }
      { eapply Forall_impl; [exact Hrest|]. intros p. by apply akin_valid. }
      exists h'. split; [|split].
      * rewrite E. rewrite <- (matching_akin h h1 target w rest H1).
        unfold matching. by rewrite <- app_assoc.
      * by apply akin_trans with h1.
      * intros p Hp. apply not_elem_of_cons in Hp as [Hne Hp].
        rewrite (Hframe p Hp). by apply list_lookup_insert_ne.
    + rewrite filter_cons_False by (by rewrite Em).
      destruct (IH h matched Ht Hrest) as (h' & E & Hk & Hframe).
      exists h'. split; [exact E|]. split; [exact Hk|].
      intros p Hp. apply not_elem_of_cons in Hp as [_ Hp]. by apply Hframe.
Qed.

Lemma render_spec (mCnt : Z) (matched : list ptr) :
  forall (h : heap) (s : list RecordT),
    Forall (valid h) matched ->
    exists (h' : heap) (lines : list RecordT),
      Scanner.render mCnt matched s h = Some (s ++ lines, h')
      /\ length lines = length matched
      /\ Forall (fun r => MatchedCount r = mCnt) lines
      /\ akin h h'
      /\ (forall p, p ∉ matched -> h' !! p = h !! p)
      /\ Forall2 (fun p r => exists c, h !! p = Some c /\ sameKey c r
                                      /\ Tind r = Tind c /\ OCLC r = OCLC c)
           matched lines.
Proof.
  induction matched as [|rec rest IH]; intros h s Hv.
  - exists h, []. rewrite app_nil_r. repeat split; try done. apply akin_refl.
  - apply Forall_cons in Hv as [Hrec Hrest]. simpl Scanner.render.
    destruct (valid_lookup h rec Hrec) as [r Er].
    rewrite (bind_eq _ _ _ _ _ (storeMatchedCount_ok rec mCnt h r Er)).
    set (r1 := setMatchedCount mCnt r). set (h1 := <[rec := r1]> h).
    assert (E1 : h1 !! rec = Some r1) by (by apply list_lookup_insert_eq).
    rewrite (bind_eq _ _ _ _ _ (load_ok rec h1 r1 E1)).
    assert (H1 : akin h h1)
      by (apply akin_insert with r; [done|apply sameKey_setMatchedCount]).
    destruct (IH h1 (s ++ [r1])) as (h' & lines & E & Hlen & Hcnt & Hk & Hframe & Hl).
    { eapply Forall_impl; [exact Hrest|]. intros p. by apply akin_valid. }
    exists h', (r1 :: lines). split; [by rewrite E, <- app_assoc|].
    split; [simpl; by rewrite Hlen|].
    split; [apply Forall_cons; split;
             [apply MatchedCount_setMatchedCount|exact Hcnt]|].
    split; [by apply akin_trans with h1|].
    split.
    + intros p Hp. apply not_elem_of_cons in Hp as [Hne Hp].
      rewrite (Hframe p Hp). by apply list_lookup_insert_ne.
    + apply Forall2_cons. split.
      * exists r. split; [done|]. split; [apply sameKey_setMatchedCount|].
        unfold r1. by destruct r.
      * eapply Forall2_impl; [exact Hl|]. intros p x (c & Hc & Hkc & HT & HO).
        destruct (decide (p = rec)) as [->|Hne].
        -- rewrite E1 in Hc. injection Hc as <-. exists r. split; [done|].
           split; [apply sameKey_trans with r1;
                    [apply sameKey_setMatchedCount|done]|].
           rewrite HT, HO. unfold r1. by destruct r.
        -- exists c. split; [|done].
           unfold h1 in Hc. by rewrite list_lookup_insert_ne in Hc.
Qed.

Lemma matching_valid (h : heap) (target : ptr) (w : bool) (sources : list ptr) :
  Forall (valid h) sources -> Forall (valid h) (matching h target w sources).
Proof.
  intros H. apply Forall_forall. intros p Hp.
  apply list_elem_of_filter in Hp as [_ Hp].
  by apply (proj1 (Forall_forall _ _) H).
Qed.

Lemma matching_subset (h : heap) (target : ptr) (w : bool) (sources : list ptr)
    (p : ptr) :
  p ∉ sources -> p ∉ matching h target w sources.
Proof. intros Hp Hin. apply Hp. by apply list_elem_of_filter in Hin as [_ ?]. Qed.

Lemma Scan_spec (h : heap) (target : ptr) (sources : list ptr) (w : bool) :
  valid h target -> Forall (valid h) sources ->
  exists (lines : list RecordT) (h' : heap),
    Scanner.Scan target sources w h = Some (lines, h')
    /\ length lines = length (matching h target w sources)
    /\ Forall (fun r => MatchedCount r
                        = Z.of_nat (length (matching h target w sources))) lines
    /\ akin h h'
    /\ (forall p, p ∉ sources -> h' !! p = h !! p)
    /\ Forall2 (fun p r => exists c, h !! p = Some c /\ sameKey c r)
         (matching h target w sources) lines.
Proof.
  intros Ht Hs. unfold Scanner.Scan.
  destruct (collect_spec target w sources h [] Ht Hs) as (h1 & E1 & Hk1 & Hf1).
  rewrite (bind_eq _ _ _ _ _ E1). rewrite app_nil_l.
  set (m := matching h target w sources) in *.
  destruct (Z.of_nat (length m) >? 0)%Z eqn:Epos.
  - assert (Hv : Forall (valid h1) m).
    { eapply Forall_impl; [apply matching_valid, Hs|].
      intros p. by apply akin_valid. }
    destruct (render_spec (Z.of_nat (length m)) m h1 [] Hv)
      as (h' & lines & E & Hlen & Hcnt & Hk & Hf & Hl).
    exists lines, h'. split; [by rewrite E|]. split; [exact Hlen|].
    split; [exact Hcnt|]. split; [by apply akin_trans with h1|].
    split.
    + intros p Hp. rewrite (Hf p (matching_subset h target w sources p Hp)).
      by apply Hf1.
    + eapply Forall2_impl; [exact Hl|]. intros p r (c & Hc & Hkc & _).
      destruct (valid_lookup h p) as [c0 Hc0].
      { apply lookup_lt_Some in Hc. unfold valid.
        by rewrite <- (akin_length h h1 Hk1). }
      destruct (akin_lookup h h1 p c0 Hk1 Hc0) as (c' & Hc' & Hk0).
      assert (c' = c) as -> by congruence.
      exists c0. split; [done|]. by apply sameKey_trans with c.
  - assert (m = []) as ->.
    { rewrite Z.gtb_ltb in Epos. apply Z.ltb_ge in Epos.
      destruct m; [done|simpl length in Epos; lia]. }
    exists [], h1. repeat split; done.
Qed.

(** C5. For an allocated target and allocated candidates, [Scan] of
    [src/reconcile.go] returns one rendered record per candidate that
    [Match] accepts, candidates that occur twice counted twice, and each of
    these records carries [MatchedCount = k], the number of such candidates;
    without a matching candidate the result is empty.  Each line belongs to
    its candidate: it agrees with it on every field that is not an
    identifier or the count. *)
Theorem C5_scan_emits_k_lines_with_count_k
    (h : heap) (target : ptr) (sources : list ptr) (withLevenshtein : bool) :
  valid h target -> Forall (valid h) sources ->
  let k := length (matching h target withLevenshtein sources) in
  exists (lines : list RecordT) (h' : heap),
    Scanner.Scan target sources withLevenshtein h = Some (lines, h')
    /\ length lines = k
    /\ Forall (fun r => MatchedCount r = Z.of_nat k) lines
    /\ (k = 0%nat -> lines = [])
    /\ Forall2 (fun p r => exists c, h !! p = Some c /\ sameKey c r)
         (matching h target withLevenshtein sources) lines.
Proof.
  intros Ht Hs k.
  destruct (Scan_spec h target sources withLevenshtein Ht Hs)
    as (lines & h' & E & Hlen & Hcnt & _ & _ & Hl).
  exists lines, h'. split; [exact E|]. split; [exact Hlen|].
  split; [exact Hcnt|]. split; [|exact Hl].
  intros Hk. fold k in Hlen. rewrite Hk in Hlen. by destruct lines.
Qed.

(** C5 on a target that three of four candidates match. *)
Lemma C5_scan_emits_k_lines_with_count_k_witness :
  let a := setField FTitle "Hydrology Basics" newRecord in
  let b := setField FTitle "Limnology" newRecord in
  exists (lines : list RecordT) (h' : heap),
    Scanner.Scan 0 [1; 2; 3; 4]%nat false [a; a; b; a; a] = Some (lines, h')
    /\ length lines = 3%nat
    /\ Forall (fun r => MatchedCount r = 3) lines.
Proof.
  intros a b.
  assert (Ht : valid [a; a; b; a; a] 0) by (unfold valid; simpl; lia).
  assert (Hs : Forall (valid [a; a; b; a; a]) [1; 2; 3; 4]%nat)
    by (repeat constructor; unfold valid; simpl; lia).
  destruct (C5_scan_emits_k_lines_with_count_k
              [a; a; b; a; a] 0 [1; 2; 3; 4]%nat false Ht Hs)
    as (lines & h' & E & Hlen & Hcnt & _).
  exists lines, h'. split; [exact E|]. split; [exact Hlen|exact Hcnt].
Defined.

(** ** The passes of [src/reconcile.go] *)

(** The positions that [unmatchedFrom] collects are those of the targets
    without a match, in ascending order. *)
Lemma unmatchedFrom_seq (h : heap) (tind : list ptr) (w : bool)
    (oclc : list ptr) :
  forall pre : list ptr,
    unmatchedFrom h tind w (length pre) oclc
    = filter (fun no => matching h (nth no (pre ++ oclc) 0%nat) w tind = [])
        (seq (length pre) (length oclc)).
Proof.
  induction oclc as [|p rest IH]; intros pre; [done|].
  specialize (IH (pre ++ [p])).
  rewrite <- app_assoc, length_app, Nat.add_1_r in IH. simpl app in IH.
  simpl unmatchedFrom. simpl length. simpl seq.
  assert (Hp : nth (length pre) (pre ++ p :: rest) 0%nat = p)
    by (rewrite app_nth2 by lia; by rewrite Nat.sub_diag).
  destruct (decide (matching h p w tind = [])) as [E|E].
  - rewrite filter_cons_True by (by rewrite Hp). by rewrite IH.
  - rewrite filter_cons_False by (by rewrite Hp). exact IH.
Qed.

Lemma index_ok (l : list ptr) (no : nat) (h : heap) :
  (no < length l)%nat -> index l no h = Some (nth no l 0%nat, h).
Proof.
  intros Hlt. unfold index.
  destruct (lookup_lt_is_Some_2 l no Hlt) as [p Hp]. rewrite Hp.
  by rewrite (nth_lookup_Some l no 0%nat p Hp).
Qed.

Lemma nth_valid (h : heap) (l : list ptr) (no : nat) :
  Forall (valid h) l -> (no < length l)%nat -> valid h (nth no l 0%nat).
Proof.
  intros Hl Hlt. destruct (lookup_lt_is_Some_2 l no Hlt) as [p Hp].
  rewrite (nth_lookup_Some l no 0%nat p Hp).
  by apply (Forall_lookup_1 _ _ _ _ Hl Hp).
Qed.

(** One call of [Scan] in the course of a pass: the store [h] it meets
    differs from the store [h0] of the start at most in identifiers and
    counts, which [Match] does not read. *)
Lemma Scan_scanned (h0 h : heap) (target : ptr) (sources : list ptr) (w : bool) :
  akin h0 h -> valid h0 target -> Forall (valid h0) sources ->
  exists (lines : list RecordT) (h' : heap),
    Scanner.Scan target sources w h = Some (lines, h')
    /\ akin h0 h'
    /\ (forall p, p ∉ sources -> h' !! p = h !! p)
    /\ length lines = length (matching h0 target w sources)
    /\ scanned h0 sources w target lines.
Proof.
  intros Hk Ht Hs.
  destruct (Scan_spec h target sources w) as (lines & h' & E & Hlen & Hcnt & Hk' & Hf & Hl).
  { by apply akin_valid with h0. }
  { eapply Forall_impl; [exact Hs|]. intros p. by apply akin_valid. }
  rewrite <- (matching_akin h0 h target w sources Hk) in Hlen, Hcnt, Hl.
  exists lines, h'. split; [exact E|]. split; [by apply akin_trans with h|].
  split; [exact Hf|]. split; [exact Hlen|]. split; [exact Hcnt|].
  eapply Forall2_impl; [exact Hl|]. intros p r (c & Hc & Hcr).
  destruct (valid_lookup h0 p) as [c0 Hc0].
  { apply lookup_lt_Some in Hc. unfold valid. by rewrite <- (akin_length h0 h Hk). }
  destruct (akin_lookup h0 h p c0 Hk Hc0) as (c' & Hc' & Hk0).
  assert (c' = c) as -> by congruence.
  exists c0. split; [done|]. by apply sameKey_trans with c.
Qed.

Lemma strictPass_spec (h0 : heap) (tind : list ptr) (oclc : list ptr) :
  forall (i : nat) (h : heap) (unmatched : list nat) (st : Pipeline.run),
    akin h0 h -> Forall (valid h0) oclc -> Forall (valid h0) tind ->
    let failed := unmatchedFrom h0 tind false i oclc in
    exists st' h' chunks,
      Pipeline.strictPass i oclc tind unmatched st h
      = Some ((unmatched ++ failed, st'), h')
      /\ akin h0 h'
      /\ (forall p, p ∉ tind -> h' !! p = h !! p)
      /\ Forall2 (scanned h0 tind false) oclc chunks
      /\ Pipeline.out st' = Pipeline.out st ++ map Line (concat chunks)
      /\ Pipeline.matchedCnt st'
         = Pipeline.matchedCnt st + Z.of_nat (length oclc - length failed)
      /\ Pipeline.unmatchedCnt st'
         = Pipeline.unmatchedCnt st + Z.of_nat (length failed)
      /\ (length failed <= length oclc)%nat.
Proof.
  induction oclc as [|rec rest IH]; intros i h unmatched st Hk Ho Ht failed.
  - exists st, h, []. simpl. rewrite !app_nil_r.
    repeat split; [done|constructor|lia|lia|lia].
  - apply Forall_cons in Ho as [Hrec Hrest]. simpl Pipeline.strictPass.
    destruct (Scan_scanned h0 h rec tind false Hk Hrec Ht)
      as (s & h1 & E & Hk1 & Hf1 & Hlen & Hsc).
    rewrite (bind_eq _ _ _ _ _ E).
    unfold failed. simpl unmatchedFrom. destruct s as [|r s].
    + destruct (decide (matching h0 rec false tind = [])) as [_|Hne];
        [|by destruct (matching h0 rec false tind)].
      destruct (IH (S i) h1 (unmatched ++ [i]) (Pipeline.unmatchedStep st)
                  Hk1 Hrest Ht)
        as (st' & h' & chunks & E' & Hk' & Hf & Hch & Hout & Hm & Hu & Hle).
      exists st', h', ([] :: chunks).
      split; [rewrite E'; by rewrite <- app_assoc|]. split; [done|].
      split; [intros p Hp; rewrite (Hf p Hp); by apply Hf1|].
      split; [by apply Forall2_cons|]. split; [done|].
      simpl in Hm, Hu |- *. repeat split; lia.
    + destruct (decide (matching h0 rec false tind = [])) as [Hnil|_];
        [by rewrite Hnil in Hlen|].
      destruct (IH (S i) h1 unmatched (Pipeline.matchedStep (r :: s) st)
                  Hk1 Hrest Ht)
        as (st' & h' & chunks & E' & Hk' & Hf & Hch & Hout & Hm & Hu & Hle).
      exists st', h', ((r :: s) :: chunks).
      split; [done|]. split; [done|].
      split; [intros p Hp; rewrite (Hf p Hp); by apply Hf1|].
      split; [by apply Forall2_cons|]. split.
      * rewrite Hout. simpl. by rewrite map_app, <- !app_assoc.
      * simpl in Hm, Hu |- *. repeat split; lia.
Qed.

Lemma fuzzyPass_spec (h0 : heap) (oclc tind : list ptr) (unmatched : list nat) :
  forall (h : heap) (missing : list nat) (st : Pipeline.run),
    akin h0 h -> Forall (valid h0) oclc -> Forall (valid h0) tind ->
    Forall (fun no => (no < length oclc)%nat) unmatched ->
    let target no := nth no oclc 0%nat in
    let failed :=
      filter (fun no => matching h0 (target no) true tind = []) unmatched in
    exists st' h' chunks,
      Pipeline.fuzzyPass oclc tind unmatched missing st h
      = Some ((missing ++ failed, st'), h')
      /\ akin h0 h'
      /\ (forall p, p ∉ tind -> h' !! p = h !! p)
      /\ Forall2 (scanned h0 tind true) (map target unmatched) chunks
      /\ Pipeline.out st' = Pipeline.out st ++ map Line (concat chunks)
      /\ Pipeline.matchedCnt st'
         = Pipeline.matchedCnt st + Z.of_nat (length unmatched - length failed)
      /\ Pipeline.unmatchedCnt st'
         = Pipeline.unmatchedCnt st + Z.of_nat (length failed)
      /\ (length failed <= length unmatched)%nat.
Proof.
  induction unmatched as [|no rest IH]; intros h missing st Hk Ho Ht Hu target failed.
  - exists st, h, []. simpl. rewrite !app_nil_r.
    repeat split; [done|constructor|lia|lia|lia].
  - apply Forall_cons in Hu as [Hno Hrest]. simpl Pipeline.fuzzyPass.
    rewrite (bind_eq _ _ _ _ _ (index_ok oclc no h Hno)). fold (target no).
    destruct (Scan_scanned h0 h (target no) tind true Hk
                (nth_valid h0 oclc no Ho Hno) Ht)
      as (s & h1 & E & Hk1 & Hf1 & Hlen & Hsc).
    rewrite (bind_eq _ _ _ _ _ E). unfold failed. destruct s as [|r s].
    + assert (Hnil : matching h0 (target no) true tind = [])
        by (by destruct (matching h0 (target no) true tind)).
      rewrite filter_cons_True by exact Hnil.
      destruct (IH h1 (missing ++ [no]) (Pipeline.unmatchedStep st)
                  Hk1 Ho Ht Hrest)
        as (st' & h' & chunks & E' & Hk' & Hf & Hch & Hout & Hm & Hc & Hle).
      exists st', h', ([] :: chunks).
      split; [rewrite E'; by rewrite <- app_assoc|]. split; [done|].
      split; [intros p Hp; rewrite (Hf p Hp); by apply Hf1|].
      split; [by apply Forall2_cons|]. split; [done|].
      unfold target in *. simpl in Hm, Hc |- *. repeat split; lia.
    + assert (Hne : matching h0 (target no) true tind <> [])
        by (intros Hnil; by rewrite Hnil in Hlen).
      rewrite filter_cons_False by exact Hne.
      destruct (IH h1 missing (Pipeline.matchedStep (r :: s) st)
                  Hk1 Ho Ht Hrest)
        as (st' & h' & chunks & E' & Hk' & Hf & Hch & Hout & Hm & Hc & Hle).
      exists st', h', ((r :: s) :: chunks).
      split; [done|]. split; [done|].
      split; [intros p Hp; rewrite (Hf p Hp); by apply Hf1|].
      split; [by apply Forall2_cons|]. split.
      * rewrite Hout. simpl. by rewrite map_app, <- !app_assoc.
      * unfold target in *. simpl in Hm, Hc |- *. repeat split; lia.
Qed.

(** The two loops of [main] in [src/reconcile.go], on any store that holds
    the targets and the candidates. *)
Lemma passes_spec (h : heap) (oclc tind : list ptr) (st : Pipeline.run) :
  Forall (valid h) oclc -> Forall (valid h) tind ->
  let target no := nth no oclc 0%nat in
  let unmatched :=
    filter (fun no => matching h (target no) false tind = [])
      (seq 0 (length oclc)) in
  let missing :=
    filter (fun no => matching h (target no) true tind = []) unmatched in
  exists st' h' strict fuzzy,
    Pipeline.passes oclc tind st h = Some ((unmatched, missing, st'), h')
    /\ akin h h'
    /\ (forall p, p ∉ tind -> h' !! p = h !! p)
    /\ Forall2 (scanned h tind false) oclc strict
    /\ Forall2 (scanned h tind true) (map target unmatched) fuzzy
    /\ Pipeline.out st'
       = Pipeline.out st ++ map Line (concat strict ++ concat fuzzy)
    /\ Pipeline.matchedCnt st'
       = Pipeline.matchedCnt st + Z.of_nat (length oclc - length missing)
    /\ Pipeline.unmatchedCnt st' = Z.of_nat (length missing)
    /\ (length missing <= length unmatched <= length oclc)%nat.
Proof.
  intros Ho Ht target unmatched missing. unfold Pipeline.passes.
  destruct (strictPass_spec h tind oclc 0 h [] st (akin_refl h) Ho Ht)
    as (st1 & h1 & strict & E1 & Hk1 & Hf1 & Hs1 & Ho1 & Hm1 & _ & Hle1).
  pose proof (unmatchedFrom_seq h tind false oclc []) as Hseq.
  simpl in Hseq. fold target in Hseq. fold unmatched in Hseq.
  rewrite Hseq in E1, Hm1, Hle1. simpl in E1.
  rewrite (bind_eq _ _ _ _ _ E1).
  assert (Hlt : Forall (fun no => (no < length oclc)%nat) unmatched).
  { apply Forall_forall. intros no Hin.
    apply list_elem_of_filter in Hin as [_ Hin]. apply elem_of_seq in Hin. lia. }
  destruct (fuzzyPass_spec h oclc tind unmatched h1 []
              (Pipeline.mkRun (Pipeline.out st1) (Pipeline.matchedCnt st1) 0)
              Hk1 Ho Ht Hlt)
    as (st2 & h2 & fuzzy & E2 & Hk2 & Hf2 & Hs2 & Ho2 & Hm2 & Hu2 & Hle2).
  fold target in E2, Hs2, Hm2, Hu2, Hle2. fold missing in E2, Hm2, Hu2, Hle2.
  simpl in E2. rewrite (bind_eq _ _ _ _ _ E2).
  exists st2, h2, strict, fuzzy. split; [done|]. split; [done|].
  split; [intros p Hp; rewrite (Hf2 p Hp); by apply Hf1|].
  split; [done|]. split; [done|]. split.
  - rewrite Ho2. simpl. rewrite Ho1. by rewrite map_app, <- app_assoc.
  - unfold missing, unmatched, target in *. simpl in Hm2, Hu2.
    repeat split; lia.
Qed.

(** C6 does not hold of [src/unnamed/part_000], whose [Match] (lines
    106-126) applies the trimmed test and then the distance test to every
    pair in a single pass.  The target "Tides" has a candidate with its
    own title, which the strict test of [src/reconcile.go] accepts, and a
    candidate "Tide", which only the distance test accepts.
    [src/unnamed/part_000] reports both, with count 2: the distance test
    has run for a target that the strict test had matched.  The two passes
    of [src/reconcile.go] report the first candidate alone, with count 1,
    and the fuzzy pass has no target left. *)
Lemma C6_part_000_has_a_single_pass :
  let t := setField FTitle "Tides" newRecord in
  let c := setField FTitle "Tide" newRecord in
  Reconcile.Match t t false = true
  /\ Reconcile.Match t c false = false
  /\ (exists h',
        Scanner1.Scan 0 ["title"] [["title"]; ["Tides"]; ["Tide"]] [t]
        = Some ([setMatchedCount 2 t; setMatchedCount 2 t], h'))
  /\ (exists h',
        Pipeline.passes [0%nat] [1; 2]%nat (Pipeline.mkRun [Header] 0 0) [t; t; c]
        = Some (([], [], Pipeline.mkRun [Header; Line (setMatchedCount 1 t)] 1 0),
                h')).
Proof.
  intros t c. split; [by vm_compute|]. split; [by vm_compute|].
  split; eexists; vm_compute; reflexivity.
Qed.

(** C6, as the code has it.  [main] of [src/reconcile.go] runs two loops
    in this order.  The first calls [Scan] with the strict title test, once for
    every target of [oclc] in turn, each time against the whole of [tind],
    and leaves in [unmatched] the positions of the targets that no
    candidate matched, in ascending order.  The second calls [Scan] with
    the fuzzy test, once for each position of [unmatched] and for no
    other target, and leaves in [missing] the positions that again found
    no match.  The output gains the lines of the strict calls, target by
    target, and after them the lines of the fuzzy calls; a call adds one
    line for each candidate that its test matches. *)
Theorem C6_strict_pass_then_fuzzy_pass
    (h : heap) (oclc tind : list ptr) (st : Pipeline.run) :
  Forall (valid h) oclc -> Forall (valid h) tind ->
  let target no := nth no oclc 0%nat in
  let unmatched :=
    filter (fun no => matching h (target no) false tind = [])
      (seq 0 (length oclc)) in
  let missing :=
    filter (fun no => matching h (target no) true tind = []) unmatched in
  exists st' h' strict fuzzy,
    Pipeline.passes oclc tind st h = Some ((unmatched, missing, st'), h')
    /\ Forall2 (scanned h tind false) oclc strict
    /\ Forall2 (scanned h tind true) (map target unmatched) fuzzy
    /\ Pipeline.out st'
       = Pipeline.out st ++ map Line (concat strict ++ concat fuzzy).
Proof.
  intros Ho Ht target unmatched missing.
  destruct (passes_spec h oclc tind st Ho Ht)
    as (st' & h' & strict & fuzzy & E & _ & _ & Hs & Hf & Hout & _).
  exists st', h', strict, fuzzy. split; [exact E|]. split; [exact Hs|].
  split; [exact Hf|exact Hout].
Qed.

(** C6 on three targets: the first has a strict match, the second a fuzzy
    match only, the third none.  The fuzzy pass takes the second and the
    third, and the output holds one line of each pass. *)
Lemma C6_strict_pass_then_fuzzy_pass_witness :
  let a := setField FTitle "Hydrology Basics" newRecord in
  let b := setField FTitle "Hydrology Basic" newRecord in
  let c := setField FTitle "Limnology" newRecord in
  exists st' h' (strict fuzzy : list RecordT),
    Pipeline.passes [0; 1; 2]%nat [3]%nat (Pipeline.mkRun [Header] 0 0)
      [a; b; c; a]
    = Some (([1; 2]%nat, [2]%nat, st'), h')
    /\ length strict = 1%nat /\ length fuzzy = 1%nat
    /\ Pipeline.out st' = Header :: map Line (strict ++ fuzzy).
Proof.
  intros a b c.
  assert (Ho : Forall (valid [a; b; c; a]) [0; 1; 2]%nat)
    by (repeat constructor; unfold valid; simpl; lia).
  assert (Ht : Forall (valid [a; b; c; a]) [3]%nat)
    by (repeat constructor; unfold valid; simpl; lia).
  destruct (C6_strict_pass_then_fuzzy_pass [a; b; c; a] [0; 1; 2]%nat [3]%nat
              (Pipeline.mkRun [Header] 0 0) Ho Ht)
    as (st' & h' & strict & fuzzy & E & Hs & Hf & Hout).
  apply Forall2_cons_inv_l in Hs as (s0 & rest0 & [_ Hs0] & Hs & ->).
  apply Forall2_cons_inv_l in Hs as (s1 & rest1 & [_ Hs1] & Hs & ->).
  apply Forall2_cons_inv_l in Hs as (s2 & rest2 & [_ Hs2] & Hs & ->).
  apply Forall2_nil_inv_l in Hs as ->.
  apply Forall2_length in Hs0, Hs1, Hs2.
  change (map _ _) with [1%nat; 2%nat] in Hf.
  apply Forall2_cons_inv_l in Hf as (f1 & rest3 & [_ Hf1] & Hf & ->).
  apply Forall2_cons_inv_l in Hf as (f2 & rest4 & [_ Hf2] & Hf & ->).
  apply Forall2_nil_inv_l in Hf as ->.
  apply Forall2_length in Hf1, Hf2.
  exists st', h', (s0 ++ s1 ++ s2), (f1 ++ f2). split; [exact E|].
  split; [rewrite !length_app, <- Hs0, <- Hs1, <- Hs2; by vm_compute|].
  split; [rewrite !length_app, <- Hf1, <- Hf2; by vm_compute|].
  rewrite Hout. simpl. by rewrite !app_nil_r, <- !app_assoc.
Defined.

(** ** The pass of [src/reconcile2/reconcile2.go] *)

Lemma step_skipped (matchedIDs : gset string) (tind : list ptr) (i : nat)
    (rec : ptr) (st : Pipeline2.run) (h : heap) (r : RecordT) :
  h !! rec = Some r -> OCLC r ∈ matchedIDs ->
  Pipeline2.step matchedIDs tind i rec st h
  = Some (Pipeline2.report i (Pipeline2.skipped st), h).
Proof.
  intros Hr Hin. unfold Pipeline2.step.
  rewrite (bind_eq _ _ _ _ _ (loadField_ok FOCLC rec h r Hr)).
  simpl getField. by rewrite (bool_decide_eq_true_2 _ Hin).
Qed.

Lemma keepsOCLC_refl (tind : list ptr) (h : heap) : keepsOCLC tind h h.
Proof. intros p r _ Hr. by exists r. Qed.

Lemma keepsOCLC_trans (tind : list ptr) (h1 h2 h3 : heap) :
  keepsOCLC tind h1 h2 -> keepsOCLC tind h2 h3 -> keepsOCLC tind h1 h3.
Proof.
  intros H12 H23 p r Hp Hr. destruct (H12 p r Hp Hr) as (r2 & Hr2 & E2).
  destruct (H23 p r2 Hp Hr2) as (r3 & Hr3 & E3). exists r3. split; congruence.
Qed.

Lemma step_scanned (matchedIDs : gset string) (tind : list ptr) (i : nat)
    (rec : ptr) (st : Pipeline2.run) (h : heap) (r : RecordT) :
  h !! rec = Some r -> OCLC r ∉ matchedIDs -> Forall (valid h) tind ->
  exists (s : list RecordT) (h' : heap),
    Pipeline2.step matchedIDs tind i rec st h
    = Some (Pipeline2.report i
              (match s with
               | [] => Pipeline2.unmatchedStep rec s st
               | _ :: _ => Pipeline2.matchedStep rec s st
               end), h')
    /\ akin h h' /\ keepsOCLC tind h h'
    /\ length s = length (matching h rec false tind)
    /\ Forall (fun x => MatchedCount x
                  = Z.of_nat (length (matching h rec false tind))) s.
Proof.
  intros Hr Hnot Ht. unfold Pipeline2.step.
  rewrite (bind_eq _ _ _ _ _ (loadField_ok FOCLC rec h r Hr)).
  simpl getField. rewrite (bool_decide_eq_false_2 _ Hnot).
  destruct (Scan_spec h rec tind false) as (s & h1 & E & Hlen & Hcnt & Hk & Hf & _);
    [by apply lookup_lt_Some with r|done|].
  assert (Hkeep : keepsOCLC tind h h1).
  { intros p x Hp Hx. exists x. by rewrite (Hf p Hp). }
  rewrite bind_assoc. rewrite (bind_eq _ _ _ _ _ E).
  destruct s as [|x s].
  - destruct (akin_lookup h h1 rec r Hk Hr) as (r1 & Hr1 & _).
    exists [], (<[rec := setMatchedCount 0 r1]> h1).
    rewrite bind_assoc.
    rewrite (bind_eq _ _ _ _ _ (storeMatchedCount_ok rec 0 h1 r1 Hr1)).
    split; [done|]. split; [|split; [|done]].
    + apply akin_trans with h1; [done|].
      apply akin_insert with r1; [done|apply sameKey_setMatchedCount].
    + apply keepsOCLC_trans with h1; [done|]. intros p y _ Hy.
      destruct (decide (p = rec)) as [->|Hne].
      * exists (setMatchedCount 0 r1). split.
        -- apply list_lookup_insert_eq. by apply lookup_lt_Some with r1.
        -- assert (y = r1) as -> by congruence. by destruct r1.
      * exists y. by rewrite list_lookup_insert_ne.
  - exists (x :: s), h1. by repeat split.
Qed.

Lemma resolved_kept (matchedIDs : gset string) (tind : list ptr)
    (h0 h : heap) (p : ptr) :
  keepsOCLC tind h0 h -> valid h0 p -> p ∉ tind ->
  exists r, h !! p = Some r /\ (OCLC r ∈ matchedIDs <-> resolved matchedIDs h0 p).
Proof.
  intros Hkeep Hv Hp. destruct (valid_lookup h0 p Hv) as [r0 Hr0].
  destruct (Hkeep p r0 Hp Hr0) as (r & Hr & E).
  exists r. split; [done|]. unfold resolved. by rewrite Hr0, E.
Qed.

Lemma chunkOf_printed (h : heap) (tind : list ptr) (p : ptr) (s : list RecordT) :
  length s = length (matching h p false tind) ->
  Forall (fun x => MatchedCount x = Z.of_nat (length (matching h p false tind))) s ->
  chunkOf h tind p (printed s).
Proof.
  intros Hlen Hcnt. destruct s as [|x s].
  - left. split; [by destruct (matching h p false tind)|done].
  - right. exists (x :: s). by repeat split.
Qed.

Lemma pass_spec (matchedIDs : gset string) (h0 : heap) (tind : list ptr)
    (oclc : list ptr) :
  forall (i : nat) (h : heap) (st : Pipeline2.run),
    akin h0 h -> keepsOCLC tind h0 h ->
    Forall (valid h0) oclc -> Forall (valid h0) tind ->
    Forall (fun p => p ∉ tind) oclc ->
    let processed := filter (fun p => ~ resolved matchedIDs h0 p) oclc in
    exists st' h' chunks,
      Pipeline2.pass matchedIDs i oclc tind st h = Some (st', h')
      /\ Pipeline2.calls st'
         = Pipeline2.calls st ++ map (fun p => (p, false)) processed
      /\ Pipeline2.oclcCnt st'
         = Pipeline2.oclcCnt st - Z.of_nat (length oclc - length processed)
      /\ Pipeline2.matchedCnt st' + Pipeline2.unmatchedCnt st'
         = Pipeline2.matchedCnt st + Pipeline2.unmatchedCnt st
           + Z.of_nat (length processed)
      /\ Pipeline2.out st' = Pipeline2.out st ++ concat chunks
      /\ Forall2 (chunkOf h0 tind) processed chunks.
Proof.
  induction oclc as [|rec rest IH]; intros i h st Hk Hkeep Ho Ht Hd processed.
  - exists st, h, []. simpl. rewrite !app_nil_r.
    repeat split; try done; try lia.
  - apply Forall_cons in Ho as [Hrec Hrest]. apply Forall_cons in Hd as [Hnt Hd].
    assert (Hfl : (length (filter (fun p => ~ resolved matchedIDs h0 p) rest)
                   <= length rest)%nat) by apply length_filter.
    destruct (resolved_kept matchedIDs tind h0 h rec Hkeep Hrec Hnt)
      as (r & Hr & Hiff).
    simpl Pipeline2.pass. unfold processed.
    destruct (decide (resolved matchedIDs h0 rec)) as [Hres|Hres].
    + rewrite filter_cons_False by (by intros Hn).
      rewrite (bind_eq _ _ _ _ _
                 (step_skipped matchedIDs tind i rec st h r Hr (proj2 Hiff Hres))).
      destruct (IH (S i) h (Pipeline2.report i (Pipeline2.skipped st))
                  Hk Hkeep Hrest Ht Hd) as (st' & h' & chunks & E & Hc & Hn & Hm & Hout & Hch).
      exists st', h', chunks. split; [exact E|].
      unfold Pipeline2.report in Hc, Hn, Hm, Hout.
      destruct (i `mod` 100 =? 0)%nat; simpl in Hc, Hn, Hm, Hout;
        (split; [exact Hc|]); (split; [simpl length; lia|]);
        (split; [exact Hm|]); (split; [exact Hout|exact Hch]).
    + rewrite filter_cons_True by done.
      assert (Hnot : OCLC r ∉ matchedIDs) by (intros Hin; by apply Hres, Hiff).
      destruct (step_scanned matchedIDs tind i rec st h r Hr Hnot)
        as (s & h1 & E1 & Hk1 & Hkeep1 & Hlen & Hcnt).
      { eapply Forall_impl; [exact Ht|]. intros p. by apply akin_valid. }
      rewrite (bind_eq _ _ _ _ _ E1).
      rewrite <- (matching_akin h0 h rec false tind Hk) in Hlen, Hcnt.
      set (st1 := match s with
                  | [] => Pipeline2.unmatchedStep rec s st
                  | _ :: _ => Pipeline2.matchedStep rec s st
                  end) in *.
      assert (Hst1 : Pipeline2.out st1 = Pipeline2.out st ++ printed s
                /\ Pipeline2.calls st1 = Pipeline2.calls st ++ [(rec, false)]
                /\ Pipeline2.oclcCnt st1 = Pipeline2.oclcCnt st
                /\ Pipeline2.matchedCnt st1 + Pipeline2.unmatchedCnt st1
                   = Pipeline2.matchedCnt st + Pipeline2.unmatchedCnt st + 1).
      { unfold st1. destruct s; simpl; repeat split; lia. }
      destruct Hst1 as (Ho1 & Hc1 & Hn1 & Hm1).
      destruct (IH (S i) h1 (Pipeline2.report i st1)
                  (akin_trans _ _ _ Hk Hk1) (keepsOCLC_trans _ _ _ _ Hkeep Hkeep1)
                  Hrest Ht Hd) as (st' & h' & chunks & E & Hc & Hn & Hm & Hout & Hch).
      exists st', h', (printed s :: chunks). split; [exact E|].
      unfold Pipeline2.report in Hc, Hn, Hm, Hout.
      assert (Hchunk : chunkOf h0 tind rec (printed s)) by (by apply chunkOf_printed).
      destruct (i `mod` 100 =? 0)%nat; simpl in Hc, Hn, Hm, Hout;
        (split; [rewrite Hc, Hc1; simpl; by rewrite <- app_assoc|]);
        (split; [simpl length; lia|]);
        (split; [simpl length; lia|]);
        (split; [rewrite Hout, Ho1; simpl; by rewrite <- app_assoc|]);
        by apply Forall2_cons.
Qed.

(** C7 in [src/reconcile2/reconcile2.go]: the branch for a target without a
    match stores [MatchedCount = 0] in the target and then prints [s], the
    empty result of [Scan], so the target shows as an empty line and not as
    a record line.  On the example tables the second target, which no
    candidate matches, gives the line [Blank]. *)
Theorem C7_reconcile2_prints_empty_line_for_unmatched :
  exists st h',
    Pipeline2.main exampleOCLC exampleTIND "" [] = Some (st, h')
    /\ Pipeline2.out st
       = [ Header;
           Line (mkRecord "book" "m" "1999" "" "p" "T1" "o1" "0-1" ""
                   "Hydrology Basics" "" "A. Author" "Pub" "1999" "10 p." 1);
           Blank ]
    /\ h' !! 1%nat
       = Some (mkRecord "map" "s" "1980" "1981" "q" "" "o2" "0-2" "1-1"
                 "Tides" "" "B. Author" "Other" "1980" "2 p." 0).
Proof. eexists _, _. split; [vm_compute; reflexivity|]. split; reflexivity. Qed.

(** C8. In [src/reconcile2/reconcile2.go] a target whose [OCLC] identifier
    is in [matchedIDs] takes the first branch of the loop body: [Scan] is not
    called, nothing is printed, no record is written, the two counters of
    processed rows stay as they are and the denominator [oclcCnt] goes down
    by one, which is the value the next progress message reports.  Over a
    whole run whose targets are records of their own (none is also a
    candidate), [Scan] is called for the targets outside the index, once each
    and in order; the output is the header followed by the lines of those
    targets only; and at the end the denominator equals both the number of
    those targets and the number of rows counted as processed. *)
Theorem C8_resume_index_excludes_target
    (matchedIDs : gset string) (h : heap) (oclc tind : list ptr) :
  Forall (valid h) oclc -> Forall (valid h) tind ->
  Forall (fun p => p ∉ tind) oclc ->
  let processed := filter (fun p => ~ resolved matchedIDs h p) oclc in
  (forall (i : nat) (rec : ptr) (st : Pipeline2.run) (h1 : heap) (r : RecordT),
     h1 !! rec = Some r -> OCLC r ∈ matchedIDs ->
     exists st',
       Pipeline2.step matchedIDs tind i rec st h1 = Some (st', h1)
       /\ Pipeline2.out st' = Pipeline2.out st
       /\ Pipeline2.calls st' = Pipeline2.calls st
       /\ Pipeline2.matchedCnt st' = Pipeline2.matchedCnt st
       /\ Pipeline2.unmatchedCnt st' = Pipeline2.unmatchedCnt st
       /\ Pipeline2.oclcCnt st' = Pipeline2.oclcCnt st - 1
       /\ Pipeline2.reports st'
          = Pipeline2.reports st
            ++ (if (Nat.modulo i 100 =? 0)%nat
                then [(Pipeline2.matchedCnt st + Pipeline2.unmatchedCnt st,
                       Pipeline2.oclcCnt st - 1)]
                else []))
  /\ exists st h' chunks,
       Pipeline2.reconcile matchedIDs oclc tind h = Some (st, h')
       /\ Pipeline2.calls st = map (fun p => (p, false)) processed
       /\ Pipeline2.oclcCnt st = Z.of_nat (length processed)
       /\ Pipeline2.matchedCnt st + Pipeline2.unmatchedCnt st
          = Z.of_nat (length processed)
       /\ Pipeline2.out st = Header :: concat chunks
       /\ Forall2 (chunkOf h tind) processed chunks.
Proof.
  intros Ho Ht Hd processed. split.
  - intros i rec st h1 r Hr Hin.
    exists (Pipeline2.report i (Pipeline2.skipped st)).
    split; [by apply step_skipped with r|].
    unfold Pipeline2.report. destruct (i `mod` 100 =? 0)%nat; simpl;
      rewrite ?app_nil_r; by repeat split.
  - unfold Pipeline2.reconcile.
    destruct (pass_spec matchedIDs h tind oclc 0 h
                (Pipeline2.mkRun [Header] 0 0 (Z.of_nat (length oclc)) [] [])
                (akin_refl h) (keepsOCLC_refl tind h) Ho Ht Hd)
      as (st & h' & chunks & E & Hc & Hn & Hm & Hout & Hch).
    exists st, h', chunks. split; [exact E|].
    assert (Hfl : (length processed <= length oclc)%nat) by apply length_filter.
    simpl in Hc, Hn, Hm, Hout. fold processed in Hc, Hn, Hm.
    split; [exact Hc|]. split; [lia|]. split; [lia|]. split; [exact Hout|exact Hch].
Qed.

(** C8 on the example tables with the first target in the resume index:
    only the second target is scanned and the denominator ends at 1. *)
Lemma C8_resume_index_excludes_target_witness :
  let a := setField FOCLC "o1" (setField FTitle "Hydrology Basics" newRecord) in
  let b := setField FOCLC "o2" (setField FTitle "Tides" newRecord) in
  let c := setField FTind "T1" (setField FTitle "Hydrology Basics" newRecord) in
  exists st h' chunks,
    Pipeline2.reconcile {[ "o1" ]} [0; 1]%nat [2]%nat [a; b; c] = Some (st, h')
    /\ Pipeline2.calls st = [(1%nat, false)]
    /\ Pipeline2.oclcCnt st = 1
    /\ Pipeline2.out st = Header :: concat chunks.
Proof.
  intros a b c.
  assert (Ho : Forall (valid [a; b; c]) [0; 1]%nat)
    by (repeat constructor; unfold valid; simpl; lia).
  assert (Ht : Forall (valid [a; b; c]) [2]%nat)
    by (repeat constructor; unfold valid; simpl; lia).
  assert (Hd : Forall (fun p : nat => p ∉ [2]%nat) [0; 1]%nat)
    by (repeat constructor; rewrite list_elem_of_singleton; lia).
  destruct (C8_resume_index_excludes_target {[ "o1" ]} [a; b; c]
              [0; 1]%nat [2]%nat Ho Ht Hd)
    as (_ & st & h' & chunks & E & Hc & Hn & _ & Hout & _).
  exists st, h', chunks. split; [exact E|].
  assert (Hp : filter (fun p => ~ resolved {[ "o1" ]} [a; b; c] p) [0; 1]%nat
               = [1%nat]).
  { rewrite filter_cons_False.
    - rewrite filter_cons_True; [done|].
      unfold resolved. simpl. rewrite elem_of_singleton. discriminate.
    - intros Hn'. apply Hn'. unfold resolved. simpl. by apply elem_of_singleton. }
  rewrite Hp in Hc, Hn. split; [exact Hc|]. split; [exact Hn|exact Hout].
Defined.

(** * Further properties of the programs *)

(** ** [countTrue] and the threshold of [Match] *)

(** [countTrue] returns the number of [true] among its arguments, a number
    between 0 and their count; for the nine comparisons of [Match] it is
    between 0 and 9. *)
Theorem countTrue_counts (booleans : list bool) (a b : RecordT) :
  countTrue booleans = Z.of_nat (length (filter (fun x => x = true) booleans))
  /\ 0 <= countTrue booleans <= Z.of_nat (length booleans)
  /\ 0 <= countTrue (fieldComparisons a b) <= 9.
Proof.
  assert (H : forall l, countTrue l
                = Z.of_nat (length (filter (fun x => x = true) l))).
  { intros l. unfold countTrue. rewrite countTrue_from_filter. lia. }
  split; [apply H|]. split.
  - rewrite H. pose proof (length_filter (fun x => x = true) booleans). lia.
  - rewrite countTrue_agreement. pose proof (agreement_le_9 a b). lia.
Qed.

(** With five or fewer of the nine designated fields in agreement no
    variant of [Match] accepts the pair, whatever the titles: not the strict
    and not the fuzzy pass of [src/reconcile.go], and not the predicate of
    [src/unnamed/part_000]. *)
Theorem Match_needs_six_fields (a b : RecordT) :
  (agreement a b <= 5)%nat ->
  (forall withLevenshtein, Reconcile.Match a b withLevenshtein = false)
  /\ Reconcile1.Match a b = false.
Proof.
  intros Hle.
  assert (Hc : (countTrue (fieldComparisons a b) >? 5)%Z = false).
  { rewrite countTrue_agreement, Z.gtb_ltb. apply Z.ltb_ge. lia. }
  split.
  - intros [|]; [rewrite Match_fuzzy|rewrite Match_strict];
      rewrite Hc; apply andb_false_r.
  - rewrite Match1_unfold, Hc. apply andb_false_r.
Qed.

Lemma Match_needs_six_fields_witness :
  let a := newRecord in
  let b := setField FYear "1999" (setField FForm "p" (setField FDate1 "1999"
             (setField FMaterialType "book" newRecord))) in
  (agreement a b <= 5)%nat
  /\ Reconcile.Match a b false = false /\ Reconcile.Match a b true = false
  /\ Reconcile1.Match a b = false.
Proof.
  intros a b.
  assert (Hle : (agreement a b <= 5)%nat) by (vm_compute; lia).
  destruct (Match_needs_six_fields a b Hle) as [H1 H2].
  split; [exact Hle|]. split; [apply H1|]. split; [apply H1|exact H2].
Defined.

(** Every pair that the strict pass of [src/reconcile.go] accepts is also
    accepted by [Match] of [src/unnamed/part_000], whose first test is the
    trimmed comparison: titles that are equal as they are stay equal after
    [strings.TrimSpace]. *)
Theorem strict_match_is_part_000_match (a b : RecordT) :
  Reconcile.Match a b false = true -> Reconcile1.Match a b = true.
Proof.
  rewrite Match_strict, Match1_unfold, !andb_true_iff, !orb_true_iff.
  intros [[Ht|Ht] Hc]; (split; [left|exact Hc]); [|exact Ht].
  apply String.eqb_eq in Ht. rewrite Ht. apply String.eqb_refl.
Qed.

Lemma strict_match_is_part_000_match_witness :
  let a := setField FTitle "Hydrology Basics" newRecord in
  Reconcile.Match a a false = true /\ Reconcile1.Match a a = true.
Proof.
  intros a.
  assert (H : Reconcile.Match a a false = true) by (vm_compute; reflexivity).
  split; [exact H|]. exact (strict_match_is_part_000_match a a H).
Defined.

(** [Match] reads the title and the nine designated fields and nothing
    else: whatever is stored in [Tind], [OCLC], [SubTitle], [Author],
    [Pagination] or [MatchedCount] of either record, the answer is the same,
    in both passes of [src/reconcile.go] and in [src/unnamed/part_000]. *)
Theorem Match_reads_title_and_designated_only
    (a b : RecordT) (f g : field) (v w : string) (m n : Z) :
  f ∉ FTitle :: designated -> g ∉ FTitle :: designated ->
  let a' := setMatchedCount m (setField f v a) in
  let b' := setMatchedCount n (setField g w b) in
  (forall withLevenshtein,
     Reconcile.Match a' b' withLevenshtein = Reconcile.Match a b withLevenshtein)
  /\ Reconcile1.Match a' b' = Reconcile1.Match a b.
Proof.
  intros Hf Hg a' b'.
  assert (Hget : forall x (r : RecordT) (k : field) (u : string) (z : Z),
            k ∉ FTitle :: designated -> x ∈ FTitle :: designated ->
            getField x (setMatchedCount z (setField k u r)) = getField x r).
  { intros x r k u z Hk Hx. rewrite getField_setMatchedCount, getField_setField.
    destruct (field_eqb x k) eqn:E; [|done].
    assert (x = k) as -> by (by destruct x, k). by destruct Hk. }
  assert (Ht : Title a' = Title a /\ Title b' = Title b).
  { split; [apply (Hget FTitle a f v m Hf)|apply (Hget FTitle b g w n Hg)];
      apply list_elem_of_here. }
  assert (Hc : fieldComparisons a' b' = fieldComparisons a b).
  { rewrite !fieldComparisons_designated. apply map_ext_in.
    intros x Hx. apply list_elem_of_In in Hx. unfold a', b'.
    rewrite (Hget x a f v m Hf), (Hget x b g w n Hg);
      [done|by apply list_elem_of_further..]. }
  destruct Ht as [Ta Tb]. split.
  - intros [|]; [rewrite !Match_fuzzy|rewrite !Match_strict];
      by rewrite Ta, Tb, Hc.
  - by rewrite !Match1_unfold, Ta, Tb, Hc.
Qed.

Lemma Match_reads_title_and_designated_only_witness :
  let a := setField FTitle "Tides" newRecord in
  Reconcile.Match (setMatchedCount 3 (setField FAuthor "A. Author" a))
                  (setMatchedCount 1 (setField FOCLC "o1" a)) false
  = Reconcile.Match a a false.
Proof.
  intros a.
  assert (Hf : FAuthor ∉ FTitle :: designated).
  { unfold designated. rewrite !elem_of_cons, elem_of_nil. intuition discriminate. }
  assert (Hg : FOCLC ∉ FTitle :: designated).
  { unfold designated. rewrite !elem_of_cons, elem_of_nil. intuition discriminate. }
  exact (proj1 (Match_reads_title_and_designated_only a a FAuthor FOCLC
                  "A. Author" "o1" 3 1 Hf Hg) false).
Defined.

(** ** [Merge] once more *)

Lemma filled_fields (f : field) (a b : RecordT) :
  getField f (filled a b)
  = if field_eqb f FTind || field_eqb f FOCLC
    then (if getField f b =? "" then getField f a else getField f b)
    else getField f b.
Proof.
  destruct (field_eqb f FTind || field_eqb f FOCLC) eqn:E.
  - apply identifier_filled. rewrite !elem_of_cons. destruct f; auto; discriminate.
  - apply other_field_filled; intros ->; discriminate.
Qed.

Lemma filled_idem (a b : RecordT) : filled a (filled a b) = filled a b.
Proof.
  apply record_ext; [|by rewrite !MatchedCount_filled].
  intros f. rewrite (filled_fields f a (filled a b)), (filled_fields f a b).
  destruct (field_eqb f FTind || field_eqb f FOCLC); [|done].
  destruct (String.eqb_spec (getField f b) "") as [E|E].
  - by destruct (getField f a =? "").
  - destruct (String.eqb_spec (getField f b) ""); [done|reflexivity].
Qed.

Lemma filled_populated (a b : RecordT) :
  Tind b <> "" -> OCLC b <> "" -> filled a b = b.
Proof.
  intros HT HO. apply record_ext; [|apply MatchedCount_filled].
  intros f. rewrite filled_fields.
  destruct (field_eqb f FTind || field_eqb f FOCLC) eqn:E; [|done].
  destruct (String.eqb_spec (getField f b) "") as [E0|]; [|done].
  destruct f; try discriminate; simpl in E0; by destruct HT + by destruct HO.
Qed.

Lemma filled_self (b : RecordT) : filled b b = b.
Proof.
  apply record_ext; [|apply MatchedCount_filled].
  intros f. rewrite filled_fields.
  destruct (field_eqb f FTind || field_eqb f FOCLC); [|done].
  by destruct (String.eqb_spec (getField f b) "").
Qed.

(** Merging the same pair a second time changes nothing more: [Merge]
    followed by [Merge] leaves the store that one [Merge] leaves, in
    [src/reconcile.go] and in [src/unnamed/part_000]. *)
Theorem Merge_twice_is_Merge_once
    (h : heap) (target source : ptr) (t s : RecordT) :
  h !! target = Some t -> h !! source = Some s ->
  (Merger.Merge target source;; Merger.Merge target source) h
  = Merger.Merge target source h
  /\ (Merger1.Merge target source;; Merger1.Merge target source) h
     = Merger1.Merge target source h.
Proof.
  intros Ht Hs. split.
  - rewrite (bind_eq _ _ _ _ _ (Merge_spec target source h t s Ht Hs)).
    rewrite (Merge_spec target source h t s Ht Hs).
    assert (Hs1 : <[source := filled t s]> h !! source = Some (filled t s))
      by (apply list_lookup_insert_eq; by apply lookup_lt_Some with s).
    destruct (decide (target = source)) as [->|Hne].
    + assert (t = s) as -> by congruence.
      rewrite (Merge_spec source source _ _ _ Hs1 Hs1).
      by rewrite list_insert_insert_eq, !filled_self.
    + assert (Ht1 : <[source := filled t s]> h !! target = Some t)
        by (by rewrite list_lookup_insert_ne).
      rewrite (Merge_spec target source _ _ _ Ht1 Hs1).
      by rewrite list_insert_insert_eq, filled_idem.
  - rewrite (bind_eq _ _ _ _ _ (Merge1_spec target source h t s Ht Hs)).
    rewrite (Merge1_spec target source h t s Ht Hs).
    assert (Ht1 : <[target := filled s t]> h !! target = Some (filled s t))
      by (apply list_lookup_insert_eq; by apply lookup_lt_Some with t).
    destruct (decide (target = source)) as [->|Hne].
    + assert (t = s) as -> by congruence.
      rewrite (Merge1_spec source source _ _ _ Ht1 Ht1).
      by rewrite list_insert_insert_eq, !filled_self.
    + assert (Hs1 : <[target := filled s t]> h !! source = Some s)
        by (by rewrite list_lookup_insert_ne).
      rewrite (Merge1_spec target source _ _ _ Ht1 Hs1).
      by rewrite list_insert_insert_eq, filled_idem.
Qed.

Lemma Merge_twice_is_Merge_once_witness :
  let t := setField FOCLC "o1" newRecord in
  let s := setField FTind "T1" newRecord in
  (Merger.Merge 0 1;; Merger.Merge 0 1) [t; s] = Merger.Merge 0 1 [t; s].
Proof.
  intros t s.
  exact (proj1 (Merge_twice_is_Merge_once [t; s] 0 1 t s eq_refl eq_refl)).
Defined.

(** [Merge] of [src/reconcile.go] leaves the whole store as it is when the
    candidate already holds both identifiers, and when it is given the same
    record twice. *)
Theorem Merge_leaves_store_when_nothing_to_fill
    (h : heap) (target source : ptr) (t s : RecordT) :
  h !! target = Some t -> h !! source = Some s ->
  (Tind s <> "" /\ OCLC s <> "") \/ target = source ->
  Merger.Merge target source h = Some (source, h).
Proof.
  intros Ht Hs Hcase. rewrite (Merge_spec target source h t s Ht Hs).
  destruct Hcase as [[HT HO]| ->].
  - by rewrite filled_populated, list_insert_id.
  - assert (t = s) as -> by congruence.
    by rewrite filled_self, list_insert_id.
Qed.

Lemma Merge_leaves_store_when_nothing_to_fill_witness :
  let t := setField FOCLC "o1" newRecord in
  let s := setField FOCLC "o2" (setField FTind "T1" newRecord) in
  Merger.Merge 0 1 [t; s] = Some (1%nat, [t; s]).
Proof.
  intros t s.
  apply (Merge_leaves_store_when_nothing_to_fill [t; s] 0 1 t s eq_refl eq_refl).
  left. split; discriminate.
Defined.

(** ** What [Scan] writes *)

Lemma collect_exact (target : ptr) (w : bool) (t : RecordT) (sources : list ptr) :
  forall (h : heap) (matched : list ptr),
    h !! target = Some t -> target ∉ sources -> NoDup sources ->
    Forall (valid h) sources ->
    exists h',
      Scanner.collect target sources w matched h
      = Some (matched ++ matching h target w sources, h')
      /\ forall p, h' !! p
           = if decide (p ∈ matching h target w sources)
             then filled t <$> h !! p else h !! p.
Proof.
  induction sources as [|source rest IH]; intros h matched Ht Hnt Hnd Hs.
  - exists h. split; [|done]. simpl. unfold matching. by rewrite filter_nil, app_nil_r.
  - apply Forall_cons in Hs as [Hs Hrest]. apply NoDup_cons in Hnd as [Hsr Hnd].
    apply not_elem_of_cons in Hnt as [Hne Hnt].
    assert (Hvt : valid h target) by (by apply lookup_lt_Some with t).
    simpl Scanner.collect.
    rewrite (bind_eq _ _ _ _ _ (MatchAt_ok h target source w Hvt Hs)).
    unfold matching. destruct (matches h target w source) eqn:Em.
    + rewrite filter_cons_True by done.
      destruct (valid_lookup h source Hs) as [s Es].
      rewrite (bind_eq _ _ _ _ _ (Merge_spec target source h t s Ht Es)).
      set (h1 := <[source := filled t s]> h).
      assert (H1 : akin h h1) by (apply akin_insert with s; [done|apply sameKey_filled]).
      destruct (IH h1 (matched ++ [source])) as (h' & E & Hh');
        [by unfold h1; rewrite list_lookup_insert_ne|done|done| |].
      { eapply Forall_impl; [exact Hrest|]. intros p. by apply akin_valid. }
      exists h'. rewrite <- (matching_akin h h1 target w rest H1) in E, Hh'.
      split; [rewrite E; unfold matching; by rewrite <- app_assoc|].
      intros p. rewrite Hh'. fold (matching h target w rest).
      destruct (decide (p = source)) as [->|Hp].
      * rewrite (decide_False (P := source ∈ matching h target w rest))
          by (by apply matching_subset).
        rewrite decide_True by apply list_elem_of_here.
        unfold h1. rewrite list_lookup_insert_eq by (by apply lookup_lt_Some with s).
        by rewrite Es.
      * unfold h1. rewrite list_lookup_insert_ne by done.
        destruct (decide (p ∈ matching h target w rest)) as [Hin|Hin].
        -- by rewrite decide_True by (by apply list_elem_of_further).
        -- rewrite decide_False; [done|].
           intros Hin'. apply elem_of_cons in Hin' as [?|?]; done.
    + rewrite filter_cons_False by (by rewrite Em).
      destruct (IH h matched Ht Hnt Hnd Hrest) as (h' & E & Hh').
      by exists h'.
Qed.

Lemma render_exact (mCnt : Z) (matched : list ptr) :
  forall (h : heap) (s : list RecordT),
    NoDup matched -> Forall (valid h) matched ->
    exists (h' : heap) (lines : list RecordT),
      Scanner.render mCnt matched s h = Some (s ++ lines, h')
      /\ Forall2 (fun p r => setMatchedCount mCnt <$> h !! p = Some r)
           matched lines
      /\ forall p, h' !! p
           = if decide (p ∈ matched)
             then setMatchedCount mCnt <$> h !! p else h !! p.
Proof.
  induction matched as [|rec rest IH]; intros h s Hnd Hv.
  - exists h, []. rewrite app_nil_r. by repeat split.
  - apply Forall_cons in Hv as [Hrec Hrest]. apply NoDup_cons in Hnd as [Hnr Hnd].
    simpl Scanner.render. destruct (valid_lookup h rec Hrec) as [r Er].
    rewrite (bind_eq _ _ _ _ _ (storeMatchedCount_ok rec mCnt h r Er)).
    set (r1 := setMatchedCount mCnt r). set (h1 := <[rec := r1]> h).
    assert (E1 : h1 !! rec = Some r1) by (by apply list_lookup_insert_eq).
    rewrite (bind_eq _ _ _ _ _ (load_ok rec h1 r1 E1)).
    destruct (IH h1 (s ++ [r1]) Hnd) as (h' & lines & E & Hl & Hh').
    { eapply Forall_impl; [exact Hrest|]. intros p Hp. unfold valid, h1.
      by rewrite length_insert. }
    exists h', (r1 :: lines). split; [by rewrite E, <- app_assoc|]. split.
    + apply Forall2_cons. split; [by rewrite Er|].
      apply Forall2_same_length_lookup. split; [by apply Forall2_length in Hl|].
      intros i p x Hp Hx.
      pose proof (Forall2_lookup_lr _ _ _ _ _ _ Hl Hp Hx) as Hpx.
      assert (p <> rec) by (intros ->; apply Hnr; by apply list_elem_of_lookup_2 with i).
      unfold h1 in Hpx. by rewrite list_lookup_insert_ne in Hpx.
    + intros p. rewrite Hh'. destruct (decide (p = rec)) as [->|Hp].
      * rewrite (decide_False (P := rec ∈ rest)) by done.
        rewrite decide_True by apply list_elem_of_here.
        by rewrite E1, Er.
      * unfold h1. rewrite list_lookup_insert_ne by done.
        destruct (decide (p ∈ rest)) as [Hin|Hin].
        -- by rewrite decide_True by (by apply list_elem_of_further).
        -- rewrite decide_False; [done|].
           intros Hin'. apply elem_of_cons in Hin' as [?|?]; done.
Qed.

(** With candidates that are distinct records, none of them the target,
    [Scan] of [src/reconcile.go] is this function: line [i] of its result is
    the [i]-th matching candidate, with each empty identifier taken from the
    target and with [MatchedCount] set to the number [k] of matching
    candidates; in the store exactly the matching candidates are replaced by
    their lines, and every other record, the target included, is what it
    was. *)
Theorem Scan_on_distinct_candidates
    (h : heap) (target : ptr) (sources : list ptr) (withLevenshtein : bool)
    (t : RecordT) :
  h !! target = Some t -> target ∉ sources -> NoDup sources ->
  Forall (valid h) sources ->
  let m := matching h target withLevenshtein sources in
  let line c := setMatchedCount (Z.of_nat (length m)) (filled t c) in
  exists (lines : list RecordT) (h' : heap),
    Scanner.Scan target sources withLevenshtein h = Some (lines, h')
    /\ Forall2 (fun p r => line <$> h !! p = Some r) m lines
    /\ forall p, h' !! p = if decide (p ∈ m) then line <$> h !! p else h !! p.
Proof.
  intros Ht Hnt Hnd Hs m line. unfold Scanner.Scan.
  destruct (collect_exact target withLevenshtein t sources h [] Ht Hnt Hnd Hs)
    as (h1 & E1 & Hh1).
  rewrite (bind_eq _ _ _ _ _ E1). rewrite app_nil_l. fold m in Hh1 |- *.
  destruct (Z.of_nat (length m) >? 0)%Z eqn:Epos.
  - assert (Hndm : NoDup m) by (by apply NoDup_filter).
    assert (Hv : Forall (valid h1) m).
    { apply Forall_forall. intros p Hp. unfold valid.
      destruct (lookup_lt_is_Some_2 h p) as [c Hc].
      { apply (proj1 (Forall_forall _ _) (matching_valid h target withLevenshtein
                                             sources Hs) p Hp). }
      apply lookup_lt_Some with (filled t c).
      by rewrite Hh1, decide_True, Hc. }
    destruct (render_exact (Z.of_nat (length m)) m h1 [] Hndm Hv)
      as (h' & lines & E & Hl & Hh').
    exists lines, h'. split; [by rewrite E|]. split.
    + apply Forall2_same_length_lookup. split; [by apply Forall2_length in Hl|].
      intros i p r Hp Hr.
      pose proof (Forall2_lookup_lr _ _ _ _ _ _ Hl Hp Hr) as Hpr.
      assert (Hin : p ∈ m) by (by apply list_elem_of_lookup_2 with i).
      cbv beta in Hpr. rewrite Hh1, decide_True in Hpr by done.
      unfold line. by destruct (h !! p).
    + intros p. rewrite Hh', Hh1. destruct (decide (p ∈ m)); [|done].
      unfold line. by destruct (h !! p).
  - assert (m = []) as Hm.
    { rewrite Z.gtb_ltb in Epos. apply Z.ltb_ge in Epos.
      destruct m; [done|simpl length in Epos; lia]. }
    exists [], h1. split; [done|]. rewrite Hm in Hh1 |- *. split; [done|].
    intros p. rewrite Hh1. by rewrite !decide_False by apply not_elem_of_nil.
Qed.

Lemma Scan_on_distinct_candidates_witness :
  let t := setField FOCLC "o1" (setField FTitle "Tides" newRecord) in
  let c := setField FTind "T1" (setField FTitle "Tides" newRecord) in
  let d := setField FTitle "Waves" newRecord in
  exists (lines : list RecordT) (h' : heap),
    Scanner.Scan 0 [1; 2]%nat false [t; c; d] = Some (lines, h')
    /\ lines = [setMatchedCount 1 (setField FOCLC "o1" c)]
    /\ h' !! 0%nat = Some t /\ h' !! 2%nat = Some d.
Proof.
  intros t c d.
  assert (Hnt : 0%nat ∉ [1; 2]%nat)
    by (rewrite !not_elem_of_cons; repeat split; [lia..|apply not_elem_of_nil]).
  assert (Hnd : NoDup [1; 2]%nat).
  { apply NoDup_cons. split; [rewrite list_elem_of_singleton; lia|].
    apply NoDup_singleton. }
  assert (Hs : Forall (valid [t; c; d]) [1; 2]%nat)
    by (repeat constructor; unfold valid; simpl; lia).
  destruct (Scan_on_distinct_candidates [t; c; d] 0 [1; 2]%nat false t
              eq_refl Hnt Hnd Hs) as (lines & h' & E & Hl & Hh').
  exists lines, h'. split; [exact E|]. split; [|split].
  - apply Forall2_cons_inv_l in Hl as (r & rest & Hr & Hrest & ->).
    apply Forall2_nil_inv_l in Hrest as ->.
    injection Hr as <-. reflexivity.
  - exact (Hh' 0%nat).
  - exact (Hh' 2%nat).
Defined.

Lemma collect_footprint (target : ptr) (w : bool) (sources : list ptr) :
  forall (h h' : heap) (matched res : list ptr),
    valid h target -> Forall (valid h) sources ->
    Scanner.collect target sources w matched h = Some (res, h') ->
    forall p, p ∉ matching h target w sources -> h' !! p = h !! p.
Proof.
  induction sources as [|source rest IH]; intros h h' matched res Ht Hs E p Hp.
  - simpl in E. unfold mret, M_ret in E. by injection E as _ <-.
  - apply Forall_cons in Hs as [Hs Hrest]. simpl Scanner.collect in E.
    rewrite (bind_eq _ _ _ _ _ (MatchAt_ok h target source w Ht Hs)) in E.
    unfold matching in Hp. destruct (matches h target w source) eqn:Em.
    + rewrite filter_cons_True in Hp by done.
      apply not_elem_of_cons in Hp as [Hne Hp].
      destruct (valid_lookup h target Ht) as [t Et].
      destruct (valid_lookup h source Hs) as [s Es].
      rewrite (bind_eq _ _ _ _ _ (Merge_spec target source h t s Et Es)) in E.
      set (h1 := <[source := filled t s]> h) in E.
      assert (H1 : akin h h1) by (apply akin_insert with s; [done|apply sameKey_filled]).
      transitivity (h1 !! p); [|unfold h1; by rewrite list_lookup_insert_ne].
      apply (IH h1 h' (matched ++ [source]) res); [by apply akin_valid with h| |done|].
      * eapply Forall_impl; [exact Hrest|]. intros q. by apply akin_valid.
      * by rewrite <- (matching_akin h h1 target w rest H1).
    + rewrite filter_cons_False in Hp by (by rewrite Em).
      by apply (IH h h' matched res Ht Hrest E).
Qed.

(** Whatever pointers are shared between its arguments, [Scan] of
    [src/reconcile.go] keeps the size of the store, writes to no record
    other than the matching candidates, and in those changes nothing but
    [Tind], [OCLC] and [MatchedCount]: every descriptive field of every
    record is what it was, so the answers of [Match] are the same after a
    scan as before. *)
Theorem Scan_writes_matching_candidates_only
    (h : heap) (target : ptr) (sources : list ptr) (withLevenshtein : bool) :
  valid h target -> Forall (valid h) sources ->
  exists (lines : list RecordT) (h' : heap),
    Scanner.Scan target sources withLevenshtein h = Some (lines, h')
    /\ length h' = length h
    /\ (forall p, p ∉ matching h target withLevenshtein sources ->
          h' !! p = h !! p)
    /\ (forall p r, h !! p = Some r ->
          exists r', h' !! p = Some r' /\ sameKey r r')
    /\ (forall a b w, matches h' a w b = matches h a w b).
Proof.
  intros Ht Hs. unfold Scanner.Scan.
  destruct (collect_spec target withLevenshtein sources h [] Ht Hs)
    as (h1 & E1 & Hk1 & _).
  pose proof (collect_footprint target withLevenshtein sources h h1 [] _ Ht Hs E1)
    as Hf1.
  rewrite (bind_eq _ _ _ _ _ E1). rewrite app_nil_l.
  set (m := matching h target withLevenshtein sources) in *.
  assert (Hgoal : forall (lines : list RecordT) (h' : heap), akin h h' ->
            (forall p, p ∉ m -> h' !! p = h !! p) ->
            length h' = length h
            /\ (forall p, p ∉ m -> h' !! p = h !! p)
            /\ (forall p r, h !! p = Some r ->
                  exists r', h' !! p = Some r' /\ sameKey r r')
            /\ (forall a b w, matches h' a w b = matches h a w b)).
  { intros _ h' Hk Hf. split; [by apply akin_length|]. split; [done|]. split.
    - intros p r. by apply akin_lookup.
    - intros a b w. symmetry. by apply matches_akin. }
  destruct (Z.of_nat (length m) >? 0)%Z.
  - assert (Hv : Forall (valid h1) m).
    { eapply Forall_impl; [apply matching_valid, Hs|].
      intros p. by apply akin_valid. }
    destruct (render_spec (Z.of_nat (length m)) m h1 [] Hv)
      as (h' & lines & E & _ & _ & Hk & Hf & _).
    exists lines, h'. split; [by rewrite E|].
    apply (Hgoal lines); [by apply akin_trans with h1|].
    intros p Hp. rewrite (Hf p Hp). by apply Hf1.
  - exists [], h1. split; [done|]. by apply (Hgoal []).
Qed.

Lemma Scan_writes_matching_candidates_only_witness :
  let t := setField FTitle "Tides" newRecord in
  let d := setField FTitle "Waves" newRecord in
  exists (lines : list RecordT) (h' : heap),
    Scanner.Scan 0 [0; 1; 0]%nat false [t; d] = Some (lines, h')
    /\ length h' = 2%nat /\ h' !! 1%nat = Some d.
Proof.
  intros t d.
  assert (Ht : valid [t; d] 0) by (unfold valid; simpl; lia).
  assert (Hs : Forall (valid [t; d]) [0; 1; 0]%nat)
    by (repeat constructor; unfold valid; simpl; lia).
  destruct (Scan_writes_matching_candidates_only [t; d] 0 [0; 1; 0]%nat false Ht Hs)
    as (lines & h' & E & Hlen & Hf & _).
  exists lines, h'. split; [exact E|]. split; [exact Hlen|].
  apply (Hf 1%nat). vm_compute. intros Hin.
  apply elem_of_cons in Hin as [Hin|Hin]; [discriminate|].
  apply elem_of_cons in Hin as [Hin|Hin]; [discriminate|].
  by apply elem_of_nil in Hin.
Defined.

(** ** The counters of [src/reconcile.go] *)

(** The counters of the two loops of [main] in [src/reconcile.go], and what
    the loops leave of the store.  [missing] ends as the positions of the
    targets that neither test matched.  [matchedCnt] gains one for every
    other target.  [unmatchedCnt] restarts at 0 before the second loop
    (line 280) and ends as the number of the missing targets, whatever it
    held at the start.  Together the two count every target once.  The
    store keeps its size, no record outside [tind] is written, and a
    candidate changes at most in its identifiers and its count. *)
Theorem passes_count_every_target_once
    (h : heap) (oclc tind : list ptr) (st : Pipeline.run) :
  Forall (valid h) oclc -> Forall (valid h) tind ->
  exists unmatched missing st' h',
    Pipeline.passes oclc tind st h = Some ((unmatched, missing, st'), h')
    /\ missing
       = filter (fun no => matching h (nth no oclc 0%nat) true tind = []
                           /\ matching h (nth no oclc 0%nat) false tind = [])
           (seq 0 (length oclc))
    /\ Pipeline.matchedCnt st'
       = Pipeline.matchedCnt st + Z.of_nat (length oclc - length missing)
    /\ Pipeline.unmatchedCnt st' = Z.of_nat (length missing)
    /\ Pipeline.matchedCnt st' + Pipeline.unmatchedCnt st'
       = Pipeline.matchedCnt st + Z.of_nat (length oclc)
    /\ length h' = length h
    /\ (forall p, p ∉ tind -> h' !! p = h !! p)
    /\ akin h h'.
Proof.
  intros Ho Ht.
  destruct (passes_spec h oclc tind st Ho Ht)
    as (st' & h' & strict & fuzzy & E & Hk & Hf & _ & _ & _ & Hm & Hu & Hle).
  eexists _, _, st', h'. split; [exact E|].
  split; [apply list_filter_filter|]. split; [exact Hm|]. split; [exact Hu|].
  split; [lia|]. split; [apply (akin_length h h' Hk)|]. split; [exact Hf|exact Hk].
Qed.

(** Three targets, of which the first has a strict match, the second a
    fuzzy match and the third none; [unmatchedCnt] starts at 7. *)
Lemma passes_count_every_target_once_witness :
  let a := setField FTitle "Hydrology Basics" newRecord in
  let b := setField FTitle "Hydrology Basic" newRecord in
  let c := setField FTitle "Limnology" newRecord in
  exists unmatched st' h',
    Pipeline.passes [0; 1; 2]%nat [3]%nat (Pipeline.mkRun [Header] 0 7)
      [a; b; c; a]
    = Some ((unmatched, [2%nat], st'), h')
    /\ Pipeline.matchedCnt st' = 2 /\ Pipeline.unmatchedCnt st' = 1
    /\ length h' = 4%nat.
Proof.
  intros a b c.
  assert (Ho : Forall (valid [a; b; c; a]) [0; 1; 2]%nat)
    by (repeat constructor; unfold valid; simpl; lia).
  assert (Ht : Forall (valid [a; b; c; a]) [3]%nat)
    by (repeat constructor; unfold valid; simpl; lia).
  destruct (passes_count_every_target_once [a; b; c; a] [0; 1; 2]%nat [3]%nat
              (Pipeline.mkRun [Header] 0 7) Ho Ht)
    as (unmatched & missing & st' & h' & E & Hmiss & Hm & Hu & _ & Hlen & _).
  assert (Hval : missing = [2%nat]) by (rewrite Hmiss; by vm_compute).
  rewrite Hval in E, Hm, Hu.
  exists unmatched, st', h'. split; [exact E|]. split; [exact Hm|].
  split; [exact Hu|exact Hlen].
Defined.

(** ** [mkRecords] and the whole of [main] *)

Lemma mkRecords_from_rows (columnNames : list string) (table : list (list string)) :
  forall (i : nat) (records : list ptr) (h : heap),
    (0 < i)%nat ->
    Forall (fun row => is_Some (RowToRecord columnNames row)) table ->
    exists recs,
      Forall2 (fun row r => RowToRecord columnNames row = Some r) table recs
      /\ mkRecords_from i table columnNames records h
         = Some (records ++ seq (length h) (length recs), h ++ recs).
Proof.
  induction table as [|row rest IH]; intros i records h Hi Hrows.
  - exists []. split; [done|]. simpl. by rewrite !app_nil_r.
  - apply Forall_cons in Hrows as [[r Hr] Hrest]. simpl mkRecords_from.
    assert ((0 <? i)%nat = true) as -> by (by apply Nat.ltb_lt).
    rewrite Hr.
    assert (Ea : alloc r h = Some (length h, h ++ [r])) by done.
    rewrite (bind_eq _ _ _ _ _ Ea).
    destruct (IH (S i) (records ++ [length h]) (h ++ [r])) as (recs & Hrecs & E);
      [lia|done|].
    exists (r :: recs). split; [by apply Forall2_cons|].
    rewrite E, length_app, Nat.add_1_r. simpl. by rewrite <- !app_assoc.
Qed.

Lemma mkRecords_from_panics (columnNames : list string) (table : list (list string)) :
  forall (i : nat) (records : list ptr) (h : heap),
    (0 < i)%nat ->
    Exists (fun row => RowToRecord columnNames row = None) table ->
    mkRecords_from i table columnNames records h = None.
Proof.
  induction table as [|row rest IH]; intros i records h Hi Hex.
  - by apply Exists_nil in Hex.
  - simpl mkRecords_from.
    assert ((0 <? i)%nat = true) as -> by (by apply Nat.ltb_lt).
    destruct (RowToRecord columnNames row) as [r|] eqn:Hr; [|done].
    apply Exists_cons in Hex as [Hex|Hex]; [congruence|].
    assert (Ea : alloc r h = Some (length h, h ++ [r])) by done.
    rewrite (bind_eq _ _ _ _ _ Ea). apply IH; [lia|done].
Qed.

Lemma mkRecords_ok (table : list (list string)) (columnNames : list string) (h : heap) :
  Forall (fun row => is_Some (RowToRecord columnNames row)) (tail table) ->
  exists recs,
    Forall2 (fun row r => RowToRecord columnNames row = Some r) (tail table) recs
    /\ mkRecords table columnNames h
       = Some (seq (length h) (length recs), h ++ recs).
Proof.
  unfold mkRecords. destruct table as [|header rows]; simpl tail.
  - intros _. exists []. split; [done|]. simpl. by rewrite app_nil_r.
  - simpl mkRecords_from. intros Hrows.
    destruct (mkRecords_from_rows columnNames rows 1 [] h) as (recs & Hr & E);
      [lia|done|].
    exists recs. by split.
Qed.

(** [mkRecords] never projects the first row of the table, whatever it
    holds.  When every later row can be projected it appends their records
    to the store, in order, and returns their pointers, which are the next
    free ones; the records already in the store are not touched.  When one
    of the later rows cannot be projected the program stops.  An empty table
    and a table with a header only give no record. *)
Theorem mkRecords_projects_rows_after_header
    (table : list (list string)) (columnNames : list string) (h : heap) :
  (Forall (fun row => is_Some (RowToRecord columnNames row)) (tail table) ->
   exists recs,
     Forall2 (fun row r => RowToRecord columnNames row = Some r) (tail table) recs
     /\ mkRecords table columnNames h
        = Some (seq (length h) (length recs), h ++ recs))
  /\ (Exists (fun row => RowToRecord columnNames row = None) (tail table) ->
      mkRecords table columnNames h = None).
Proof.
  split; [apply mkRecords_ok|].
  unfold mkRecords. destruct table as [|header rows]; simpl tail.
  - intros Hex. by apply Exists_nil in Hex.
  - simpl mkRecords_from. intros Hex. apply mkRecords_from_panics; [lia|done].
Qed.

Lemma mkRecords_projects_rows_after_header_witness :
  exists r, RowToRecord ["title"; "year"] ["Tides"; "1999"] = Some r
    /\ mkRecords [["no"; "header"; "at"; "all"]; ["Tides"; "1999"]]
         ["title"; "year"] [newRecord]
       = Some ([1%nat], [newRecord; r])
    /\ mkRecords [[]; ["Tides"]] ["title"; "year"] [newRecord] = None.
Proof.
  destruct (mkRecords_projects_rows_after_header
              [["no"; "header"; "at"; "all"]; ["Tides"; "1999"]]
              ["title"; "year"] [newRecord]) as [Hyes _].
  destruct Hyes as (recs & Hrecs & E).
  { repeat constructor. by eexists. }
  apply Forall2_cons_inv_l in Hrecs as (r & rest & Hr & Hrest & ->).
  apply Forall2_nil_inv_l in Hrest as ->.
  exists r. split; [exact Hr|]. split; [exact E|].
  apply (proj2 (mkRecords_projects_rows_after_header
                  [[]; ["Tides"]] ["title"; "year"] [newRecord])).
  by apply Exists_cons_hd.
Defined.

Lemma RowToRecord_long_row (columnNames row : list string) :
  (length columnNames <= length row)%nat ->
  is_Some (RowToRecord columnNames row).
Proof.
  intros Hlen.
  destruct (RowToRecord_from_slots columnNames row 0 newRecord) as (r & E & _).
  - intros i c Hi _. apply lookup_lt_Some in Hi. lia.
  - by exists r.
Qed.

(** Every line of a pass belongs to a candidate. *)
Lemma chunks_from_sources (h : heap) (tind : list ptr) (w : bool)
    (targets : list ptr) (chunks : list (list RecordT)) :
  Forall2 (scanned h tind w) targets chunks ->
  Forall (fun r => exists c x, c ∈ tind /\ h !! c = Some x /\ sameKey x r)
         (concat chunks).
Proof.
  induction 1 as [|p chunk targets chunks [_ Hl] _ IH]; [constructor|].
  simpl concat. apply Forall_app. split; [|exact IH].
  assert (Hsub : forall c, c ∈ matching h p w tind -> c ∈ tind)
    by (intros c Hc; by apply list_elem_of_filter in Hc as [_ Hc]).
  revert Hl Hsub. generalize (matching h p w tind). intros cs Hl Hsub.
  induction Hl as [|c r cs chunk (x & Hx & Hxr) _ IHl]; [constructor|].
  apply Forall_cons. split.
  - exists c, x. split; [apply Hsub, list_elem_of_here|by split].
  - apply IHl. intros c' Hc'. by apply Hsub, list_elem_of_further.
Qed.

(** [main] of [src/reconcile.go], from its two calls of [mkRecords] to the
    end of the second loop, on two tables whose data rows have at least
    the 14 and the 15 cells of [oclcColumns] and [tindColumns], started
    with no record allocated.  It gets that far.  The store then holds one
    record for each data row and the record of line 258.  The records of
    the OCLC rows are as they were read: the loops never write a target.
    A record of a TIND row differs from what was read at most in its
    identifiers and its count.  Every target is counted once, as matched
    or as unmatched.  The output is the header followed by record lines
    only, and each of them agrees with the record of some TIND row on
    every field that is not an identifier. *)
Theorem main_reaches_last_loop_on_wide_tables
    (oclcTable tindTable : list (list string)) :
  Forall (fun row => (14 <= length row)%nat) (tail oclcTable) ->
  Forall (fun row => (15 <= length row)%nat) (tail tindTable) ->
  let n := length (tail oclcTable) in
  let m := length (tail tindTable) in
  exists ro rt unmatched missing st h' lines,
    Forall2 (fun row r => RowToRecord oclcColumns row = Some r)
      (tail oclcTable) ro
    /\ Forall2 (fun row r => RowToRecord tindColumns row = Some r)
         (tail tindTable) rt
    /\ Pipeline.main oclcTable tindTable [] = Some ((unmatched, missing, st), h')
    /\ akin (ro ++ rt ++ [newRecord]) h'
    /\ (forall i, (i < n)%nat -> h' !! i = ro !! i)
    /\ h' !! (n + m)%nat = Some newRecord
    /\ Pipeline.matchedCnt st + Pipeline.unmatchedCnt st = Z.of_nat n
    /\ Pipeline.unmatchedCnt st = Z.of_nat (length missing)
    /\ Pipeline.out st = Header :: map Line lines
    /\ Forall (fun r => exists c, c ∈ rt /\ sameKey c r) lines.
Proof.
  intros HO HT n m. unfold Pipeline.main.
  destruct (mkRecords_ok oclcTable oclcColumns []) as (ro & Hro & Eo).
  { eapply Forall_impl; [exact HO|]. intros row Hrow.
    by apply RowToRecord_long_row. }
  rewrite (bind_eq _ _ _ _ _ Eo). simpl length. rewrite app_nil_l.
  destruct (mkRecords_ok tindTable tindColumns ro) as (rt & Hrt & Et).
  { eapply Forall_impl; [exact HT|]. intros row Hrow.
    by apply RowToRecord_long_row. }
  rewrite (bind_eq _ _ _ _ _ Et).
  assert (Hn : length ro = n) by (symmetry; by apply Forall2_length in Hro).
  assert (Hm : length rt = m) by (symmetry; by apply Forall2_length in Hrt).
  rewrite Hn, Hm.
  assert (Ea : alloc newRecord (ro ++ rt)
               = Some (length (ro ++ rt), (ro ++ rt) ++ [newRecord])) by done.
  rewrite (bind_eq _ _ _ _ _ Ea). rewrite <- app_assoc.
  set (h := ro ++ rt ++ [newRecord]).
  assert (Hlen : length h = (n + m + 1)%nat)
    by (unfold h; rewrite !length_app; simpl; lia).
  assert (Ho : Forall (valid h) (seq 0 n)).
  { apply Forall_forall. intros p Hp. apply elem_of_seq in Hp. unfold valid. lia. }
  assert (Ht : Forall (valid h) (seq n m)).
  { apply Forall_forall. intros p Hp. apply elem_of_seq in Hp. unfold valid. lia. }
  destruct (passes_spec h (seq 0 n) (seq n m) (Pipeline.mkRun [Header] 0 0) Ho Ht)
    as (st & h' & strict & fuzzy & E & Hk & Hf & Hs & Hfz & Hout & Hmc & Hu & Hle).
  eexists ro, rt, _, _, st, h', (concat strict ++ concat fuzzy).
  split; [exact Hro|]. split; [exact Hrt|]. split; [exact E|].
  split; [exact Hk|]. split; [|split; [|split; [|split; [|split]]]].
  - intros i Hi. rewrite Hf by (rewrite elem_of_seq; lia).
    unfold h. by rewrite lookup_app_l by lia.
  - rewrite Hf by (rewrite elem_of_seq; lia).
    unfold h. rewrite app_assoc.
    apply list_lookup_middle. rewrite length_app. lia.
  - pose proof (length_seq n 0) as Hsq. cbn [Pipeline.matchedCnt] in Hmc. lia.
  - exact Hu.
  - exact Hout.
  - assert (Hrt' : forall r,
      (exists c x, c ∈ seq n m /\ h !! c = Some x /\ sameKey x r) ->
      exists c, c ∈ rt /\ sameKey c r).
    { intros r (c & x & Hc & Hx & Hxr). exists x. split; [|exact Hxr].
      apply elem_of_seq in Hc. unfold h in Hx.
      rewrite lookup_app_r in Hx by lia.
      rewrite lookup_app_l in Hx by lia.
      by apply list_elem_of_lookup_2 in Hx. }
    apply Forall_app. split.
    + eapply Forall_impl; [exact (chunks_from_sources _ _ _ _ _ Hs)|exact Hrt'].
    + eapply Forall_impl; [exact (chunks_from_sources _ _ _ _ _ Hfz)|exact Hrt'].
Qed.

(** The two example tables: the first target has a strict match, the
    second none, and one record line is printed. *)
Lemma main_reaches_last_loop_on_wide_tables_witness :
  exists unmatched st h' r,
    Pipeline.main exampleOCLC exampleTIND [] = Some ((unmatched, [1%nat], st), h')
    /\ length h' = 5%nat
    /\ Pipeline.matchedCnt st = 1 /\ Pipeline.unmatchedCnt st = 1
    /\ Pipeline.out st = [Header; Line r].
Proof.
  assert (HO : Forall (fun row : list string => (14 <= length row)%nat)
                 (tail exampleOCLC)) by (repeat constructor; simpl; lia).
  assert (HT : Forall (fun row : list string => (15 <= length row)%nat)
                 (tail exampleTIND)) by (repeat constructor; simpl; lia).
  destruct (main_reaches_last_loop_on_wide_tables exampleOCLC exampleTIND HO HT)
    as (ro & rt & unmatched & missing & st & h' & lines & _ & _ & E & _).
  assert (Hval : exists r st0 h0,
    Pipeline.main exampleOCLC exampleTIND []
    = Some (([1%nat], [1%nat], st0), h0)
    /\ st0 = Pipeline.mkRun [Header; Line r] 1 1 /\ length h0 = 5%nat).
  { eexists _, _, _. split; [vm_compute; reflexivity|]. split; reflexivity. }
  destruct Hval as (r & st0 & h0 & E0 & Hst & Hl0).
  rewrite E in E0. injection E0 as -> -> -> ->.
  exists [1%nat], st0, h0, r. split; [exact E|]. split; [exact Hl0|].
  rewrite Hst. repeat split.
Defined.

(** ** The resume file of [src/reconcile2/reconcile2.go] *)

Lemma splitLines_cons (src : string) : exists l ls, splitLines src = l :: ls.
Proof.
  destruct src as [|c rest]; [by exists "", []|]. simpl.
  destruct (N_of_ascii c =? 10)%N; [by eexists _, _|].
  destruct (splitLines rest); by eexists _, _.
Qed.

(** The pieces that the loop over [bytes.Split(matchedIDsSrc, "\n")] sees
    are never none, hold no line break, and joined by line breaks give the
    file back. *)
Theorem splitLines_joins_back (src : string) :
  String.concat (String (ascii_of_N 10) "") (splitLines src) = src
  /\ splitLines src <> []
  /\ Forall (fun l => Forall (fun c => N_of_ascii c <> 10%N)
                        (list_ascii_of_string l)) (splitLines src).
Proof.
  split; [|split].
  - induction src as [|c rest IH]; [done|]. simpl splitLines.
    destruct (splitLines_cons rest) as (l & ls & E). rewrite E in IH |- *.
    destruct (N.eqb_spec (N_of_ascii c) 10) as [Hc|Hc].
    + assert (c = ascii_of_N 10) as -> by (by rewrite <- Hc, ascii_N_embedding).
      change (String.concat (String (ascii_of_N 10) "") ("" :: l :: ls))
        with (String (ascii_of_N 10)
                (String.concat (String (ascii_of_N 10) "") (l :: ls))).
      by rewrite IH.
    + destruct ls as [|l' ls].
      * simpl in IH |- *. by rewrite IH.
      * change (String c (String.concat (String (ascii_of_N 10) "") (l :: l' :: ls))
                = String c rest).
        by rewrite IH.
  - destruct (splitLines_cons src) as (l & ls & ->). done.
  - induction src as [|c rest IH]; [by repeat constructor|]. simpl splitLines.
    destruct (N.eqb_spec (N_of_ascii c) 10) as [Hc|Hc].
    + apply Forall_cons. split; [constructor|done].
    + destruct (splitLines rest) as [|l ls]; [by repeat constructor|].
      apply Forall_cons in IH as [Hl Hls].
      apply Forall_cons. split; [|done]. simpl. by apply Forall_cons.
Qed.

Lemma length_zero_empty (s : string) :
  (0 <? String.length s)%nat = false <-> s = "".
Proof. destruct s; simpl; split; intros H; done. Qed.

Lemma readMatchedIDs_spec
    (lines : list string) (matchedIDs : gset string) (v : string) :
  v ∈ readMatchedIDs lines matchedIDs
  <-> v ∈ matchedIDs \/ (v <> "" /\ exists l, l ∈ lines /\ TrimSpace l = v).
Proof.
  revert matchedIDs. induction lines as [|l rest IH]; intros matchedIDs.
  - simpl. split; [by left|]. intros [?|(_ & l & Hl & _)]; [done|].
    by apply elem_of_nil in Hl.
  - simpl readMatchedIDs.
    destruct (0 <? String.length (TrimSpace l))%nat eqn:E.
    + assert (Hne : TrimSpace l <> "").
      { intros H0. apply length_zero_empty in H0. congruence. }
      rewrite IH, elem_of_union, elem_of_singleton. split.
      * intros [[->|Hin]|(Hv & l' & Hl' & Ht)].
        -- right. split; [done|]. exists l. split; [apply list_elem_of_here|done].
        -- by left.
        -- right. split; [done|]. exists l'. split; [by apply list_elem_of_further|done].
      * intros [Hin|(Hv & l' & Hl' & Ht)]; [left; by right|].
        apply elem_of_cons in Hl' as [->|Hl']; [left; by left|].
        right. split; [done|]. by exists l'.
    + apply length_zero_empty in E. rewrite IH. split.
      * intros [Hin|(Hv & l' & Hl' & Ht)]; [by left|].
        right. split; [done|]. exists l'. split; [by apply list_elem_of_further|done].
      * intros [Hin|(Hv & l' & Hl' & Ht)]; [by left|].
        apply elem_of_cons in Hl' as [->|Hl']; [congruence|].
        right. split; [done|]. by exists l'.
Qed.

(** The resume index holds exactly the non-empty trimmed lines of the file
    (besides what it held before): a line of white space only adds nothing,
    and the empty text is never added. *)
Theorem readMatchedIDs_members
    (lines : list string) (matchedIDs : gset string) (v : string) :
  v ∈ readMatchedIDs lines matchedIDs
  <-> v ∈ matchedIDs \/ (v <> "" /\ exists l, l ∈ lines /\ TrimSpace l = v).
Proof. apply readMatchedIDs_spec. Qed.

(** In terms of the resume file: the loop body of [main] in
    [src/reconcile2/reconcile2.go] takes its skipping branch for a target
    exactly when the target's [OCLC] is not empty and equals some line of
    the file after [bytes.TrimSpace].  A target without an [OCLC] is never
    skipped. *)
Theorem target_skipped_iff_listed_in_file
    (matchedIDsSrc : string) (tind : list ptr) (i : nat) (rec : ptr)
    (st : Pipeline2.run) (h : heap) (r : RecordT) :
  h !! rec = Some r -> Forall (valid h) tind ->
  let matchedIDs := readMatchedIDs (splitLines matchedIDsSrc) ∅ in
  Pipeline2.step matchedIDs tind i rec st h
  = Some (Pipeline2.report i (Pipeline2.skipped st), h)
  <-> OCLC r <> ""
      /\ exists l, l ∈ splitLines matchedIDsSrc /\ TrimSpace l = OCLC r.
Proof.
  intros Hr Ht matchedIDs.
  assert (Hmem : OCLC r ∈ matchedIDs
            <-> OCLC r <> ""
                /\ exists l, l ∈ splitLines matchedIDsSrc /\ TrimSpace l = OCLC r).
  { unfold matchedIDs. rewrite readMatchedIDs_spec. split; [|by right].
    intros [Hin|H]; [|done]. by apply not_elem_of_empty in Hin. }
  rewrite <- Hmem. split.
  - intros E. destruct (decide (OCLC r ∈ matchedIDs)) as [|Hnot]; [done|].
    destruct (step_scanned matchedIDs tind i rec st h r Hr Hnot Ht)
      as (s & h' & E' & _).
    rewrite E in E'. injection E' as Hst _.
    assert (Hc : Pipeline2.calls (Pipeline2.report i (Pipeline2.skipped st))
                 = Pipeline2.calls st).
    { unfold Pipeline2.report. by destruct (i `mod` 100 =? 0)%nat. }
    rewrite Hst in Hc. unfold Pipeline2.report in Hc.
    assert (Hlen : length (Pipeline2.calls st ++ [(rec, false)])
                   = length (Pipeline2.calls st)).
    { destruct (i `mod` 100 =? 0)%nat, s; simpl in Hc; by rewrite Hc. }
    rewrite length_app in Hlen. simpl in Hlen. lia.
  - intros Hin. by apply step_skipped with r.
Qed.

Lemma target_skipped_iff_listed_in_file_witness :
  let a := setField FOCLC "o1" newRecord in
  Pipeline2.step (readMatchedIDs (splitLines "o7
 o1 
") ∅) [] 0 0 (Pipeline2.mkRun [Header] 0 0 1 [] []) [a]
  = Some (Pipeline2.report 0
            (Pipeline2.skipped (Pipeline2.mkRun [Header] 0 0 1 [] [])), [a]).
Proof.
  intros a.
  apply (target_skipped_iff_listed_in_file "o7
 o1 
" [] 0 0 _ [a] a eq_refl (Forall_nil_2 _)).
  split; [discriminate|]. exists " o1 ". split; [|reflexivity].
  apply list_elem_of_further, list_elem_of_here.
Defined.

Lemma pass_reports (matchedIDs : gset string) (tind : list ptr) (total : Z)
    (oclc : list ptr) :
  forall (i : nat) (h h' : heap) (st st' : Pipeline2.run),
    Forall (valid h) oclc -> Forall (valid h) tind ->
    Pipeline2.pass matchedIDs i oclc tind st h = Some (st', h') ->
    Z.of_nat i + Z.of_nat (length oclc) = total ->
    0 <= Pipeline2.matchedCnt st -> 0 <= Pipeline2.unmatchedCnt st ->
    Pipeline2.oclcCnt st <= total ->
    Pipeline2.matchedCnt st + Pipeline2.unmatchedCnt st
      + (total - Pipeline2.oclcCnt st) = Z.of_nat i ->
    Forall (fun pd => 0 <= pd.1 <= pd.2 /\ pd.2 <= total) (Pipeline2.reports st) ->
    Forall (fun pd => 0 <= pd.1 <= pd.2 /\ pd.2 <= total) (Pipeline2.reports st').
Proof.
  induction oclc as [|rec rest IH];
    intros i h h' st st' Ho Ht E Hi Hm Hu Hle Hsum Hrep.
  - simpl in E. unfold mret, M_ret in E. by injection E as <- _.
  - apply Forall_cons in Ho as [Hrec Hrest]. simpl Pipeline2.pass in E.
    simpl length in Hi. destruct (valid_lookup h rec Hrec) as [r Hr].
    assert (Hstep : exists st1 h1,
              Pipeline2.step matchedIDs tind i rec st h
              = Some (Pipeline2.report i st1, h1)
              /\ akin h h1
              /\ Pipeline2.reports st1 = Pipeline2.reports st
              /\ 0 <= Pipeline2.matchedCnt st1 /\ 0 <= Pipeline2.unmatchedCnt st1
              /\ Pipeline2.oclcCnt st1 <= total
              /\ Pipeline2.matchedCnt st1 + Pipeline2.unmatchedCnt st1
                 + (total - Pipeline2.oclcCnt st1) = Z.of_nat i + 1).
    { destruct (decide (OCLC r ∈ matchedIDs)) as [Hin|Hnot].
      - exists (Pipeline2.skipped st), h.
        split; [by apply step_skipped with r|]. split; [apply akin_refl|].
        simpl. repeat split; lia.
      - destruct (step_scanned matchedIDs tind i rec st h r Hr Hnot Ht)
          as (s & h1 & E1 & Hk1 & _).
        eexists _, h1. split; [exact E1|]. split; [done|].
        destruct s; simpl; repeat split; lia. }
    destruct Hstep as (st1 & h1 & E1 & Hk1 & Hr1 & Hm1 & Hu1 & Hle1 & Hsum1).
    rewrite (bind_eq _ _ _ _ _ E1) in E.
    assert (Ho1 : Forall (valid h1) rest)
      by (eapply Forall_impl; [exact Hrest|]; intros p; by apply akin_valid).
    assert (Ht1 : Forall (valid h1) tind)
      by (eapply Forall_impl; [exact Ht|]; intros p; by apply akin_valid).
    assert (Hfields : Pipeline2.matchedCnt (Pipeline2.report i st1)
                      = Pipeline2.matchedCnt st1
              /\ Pipeline2.unmatchedCnt (Pipeline2.report i st1)
                 = Pipeline2.unmatchedCnt st1
              /\ Pipeline2.oclcCnt (Pipeline2.report i st1) = Pipeline2.oclcCnt st1).
    { unfold Pipeline2.report. by destruct (i `mod` 100 =? 0)%nat. }
    destruct Hfields as (F1 & F2 & F3).
    apply (IH (S i) h1 h' (Pipeline2.report i st1) st' Ho1 Ht1 E);
      rewrite ?F1, ?F2, ?F3; try lia.
    unfold Pipeline2.report. destruct (i `mod` 100 =? 0)%nat; [|by rewrite Hr1].
    simpl. rewrite Hr1. apply Forall_app. split; [done|].
    apply Forall_singleton. simpl. lia.
Qed.

(** Every progress message of [src/reconcile2/reconcile2.go] reports a count
    of processed rows [p] and a denominator [oclcCnt] with
    [0 <= p <= oclcCnt <= len(oclc)]: the skipped targets leave the
    denominator as they are met, and the fraction never passes 100%. *)
Theorem reconcile2_reports_stay_within_denominator
    (matchedIDs : gset string) (h : heap) (oclc tind : list ptr) :
  Forall (valid h) oclc -> Forall (valid h) tind ->
  exists st h',
    Pipeline2.reconcile matchedIDs oclc tind h = Some (st, h')
    /\ Forall (fun pd => 0 <= pd.1 <= pd.2 /\ pd.2 <= Z.of_nat (length oclc))
         (Pipeline2.reports st).
Proof.
  intros Ho Ht. unfold Pipeline2.reconcile.
  set (st0 := Pipeline2.mkRun [Header] 0 0 (Z.of_nat (length oclc)) [] []).
  assert (Hex : forall (l : list ptr) (st1 : Pipeline2.run) (i : nat) (h1 : heap),
            Forall (valid h1) l -> Forall (valid h1) tind ->
            exists st h', Pipeline2.pass matchedIDs i l tind st1 h1
                          = Some (st, h')).
  { clear. induction l as [|rec rest IH]; intros st i h Ho Ht; [by eexists _, _|].
    apply Forall_cons in Ho as [Hrec Hrest]. simpl.
    destruct (valid_lookup h rec Hrec) as [r Hr].
    assert (Hstep : exists st1 h1,
              Pipeline2.step matchedIDs tind i rec st h = Some (st1, h1)
              /\ akin h h1).
    { destruct (decide (OCLC r ∈ matchedIDs)) as [Hin|Hnot].
      - eexists _, h. split; [by apply step_skipped with r|apply akin_refl].
      - destruct (step_scanned matchedIDs tind i rec st h r Hr Hnot Ht)
          as (s & h1 & E1 & Hk1 & _). by eexists _, h1. }
    destruct Hstep as (st1 & h1 & E1 & Hk1).
    rewrite (bind_eq _ _ _ _ _ E1). apply IH.
    - eapply Forall_impl; [exact Hrest|]. intros p. by apply akin_valid.
    - eapply Forall_impl; [exact Ht|]. intros p. by apply akin_valid. }
  destruct (Hex oclc st0 0%nat h Ho Ht) as (st & h' & E).
  exists st, h'. split; [exact E|].
  apply (pass_reports matchedIDs tind (Z.of_nat (length oclc)) oclc 0 h h' st0 st
           Ho Ht E); simpl; try lia. constructor.
Qed.

Lemma reconcile2_reports_stay_within_denominator_witness :
  let a := setField FOCLC "o1" newRecord in
  exists st h',
    Pipeline2.reconcile {[ "o1" ]} [0; 1]%nat [] [a; newRecord] = Some (st, h')
    /\ Forall (fun pd => 0 <= pd.1 <= pd.2 /\ pd.2 <= 2) (Pipeline2.reports st).
Proof.
  intros a.
  assert (Ho : Forall (valid [a; newRecord]) [0; 1]%nat)
    by (repeat constructor; unfold valid; simpl; lia).
  exact (reconcile2_reports_stay_within_denominator {[ "o1" ]} [a; newRecord]
           [0; 1]%nat [] Ho (Forall_nil_2 _)).
Defined.

(** ** The older program [src/unnamed/part_000] *)

Lemma Match1_sameKey (t t' s s' : RecordT) :
  sameKey t t' -> sameKey s s' -> Reconcile1.Match t s = Reconcile1.Match t' s'.
Proof.
  intros Ht Hs.
  assert (Hf : forall f, f <> FTind -> f <> FOCLC ->
            getField f t = getField f t' /\ getField f s = getField f s')
    by (intros f H1 H2; split; [by apply Ht|by apply Hs]).
  destruct (Hf FTitle) as [T1 T2]; [done..|].
  assert (Hc : fieldComparisons t s = fieldComparisons t' s').
  { rewrite !fieldComparisons_designated. apply map_ext_in.
    intros f Hin. apply list_elem_of_In in Hin.
    destruct (Hf f) as [-> ->]; [| |done].
    - intros ->. revert Hin. unfold designated.
      rewrite !elem_of_cons, elem_of_nil. intuition discriminate.
    - intros ->. revert Hin. unfold designated.
      rewrite !elem_of_cons, elem_of_nil. intuition discriminate. }
  simpl in T1, T2. by rewrite !Match1_unfold, T1, T2, Hc.
Qed.

Lemma rowMatches_sameKey (columnNames : list string) (t t' : RecordT)
    (table : list (list string)) :
  sameKey t t' ->
  filter (rowMatches columnNames t) table = filter (rowMatches columnNames t') table.
Proof.
  intros Hk. apply list_filter_iff. intros row. unfold rowMatches.
  destruct (RowToRecord columnNames row) as [s|]; [|done].
  by rewrite (Match1_sameKey t t' s s Hk (sameKey_refl s)).
Qed.

Lemma collect1_spec (target : ptr) (columnNames : list string)
    (table : list (list string)) :
  forall (i : nat) (h : heap) (matched : list ptr) (t : RecordT),
    (0 < i)%nat -> h !! target = Some t ->
    Forall (fun row => is_Some (RowToRecord columnNames row)) table ->
    exists (h' : heap) (t' : RecordT),
      Scanner1.collect target columnNames i table matched h
      = Some (matched
              ++ replicate (length (filter (rowMatches columnNames t) table)) target,
              h')
      /\ h' !! target = Some t'
      /\ sameKey t t' /\ MatchedCount t' = MatchedCount t
      /\ (forall f, getField f t <> "" -> getField f t' = getField f t)
      /\ length h' = (length h + length table)%nat
      /\ (forall p, p <> target -> (p < length h)%nat -> h' !! p = h !! p).
Proof.
  induction table as [|row rest IH]; intros i h matched t Hi Ht Hrows.
  - exists h, t. simpl. rewrite app_nil_r, Nat.add_0_r. repeat split; done.
  - apply Forall_cons in Hrows as [[r Hr] Hrest]. simpl Scanner1.collect.
    assert ((0 <? i)%nat = true) as -> by (by apply Nat.ltb_lt).
    rewrite Hr.
    assert (Ea : alloc r h = Some (length h, h ++ [r])) by done.
    rewrite (bind_eq _ _ _ _ _ Ea).
    set (source := length h). set (ha := h ++ [r]).
    assert (Hlt : (target < length h)%nat) by (by apply lookup_lt_Some with t).
    assert (Hta : ha !! target = Some t) by (unfold ha; by rewrite lookup_app_l).
    assert (Hsa : ha !! source = Some r).
    { unfold ha, source. rewrite lookup_app_r by lia. by rewrite Nat.sub_diag. }
    assert (Em : Scanner1.MatchAt target source ha
                 = Some (Reconcile1.Match t r, ha)).
    { unfold Scanner1.MatchAt.
      rewrite (bind_eq _ _ _ _ _ (load_ok _ _ _ Hta)).
      by rewrite (bind_eq _ _ _ _ _ (load_ok _ _ _ Hsa)). }
    rewrite (bind_eq _ _ _ _ _ Em).
    assert (Hla : length ha = S (length h))
      by (unfold ha; rewrite length_app; simpl; lia).
    destruct (Reconcile1.Match t r) eqn:Hm.
    + rewrite filter_cons_True by (unfold rowMatches; by rewrite Hr).
      rewrite (bind_eq _ _ _ _ _ (Merge1_spec target source ha t r Hta Hsa)).
      set (t1 := filled r t). set (h1 := <[target := t1]> ha).
      assert (Ht1 : h1 !! target = Some t1)
        by (apply list_lookup_insert_eq; by apply lookup_lt_Some with t).
      assert (Hk1 : sameKey t t1) by apply sameKey_filled.
      destruct (IH (S i) h1 (matched ++ [target]) t1) as
        (h' & t' & E & Ht' & Hk & Hc & Hpop & Hlen & Hfr); [lia|done|done|].
      exists h', t'. rewrite <- (rowMatches_sameKey columnNames t t1 rest Hk1) in E.
      split; [rewrite E; simpl; by rewrite <- app_assoc|].
      split; [done|]. split; [by apply sameKey_trans with t1|].
      split; [by rewrite Hc; apply MatchedCount_filled|].
      split; [|split].
      * intros f Hf. rewrite Hpop; unfold t1; rewrite populated_filled; done.
      * rewrite Hlen. unfold h1. rewrite length_insert, Hla. simpl. lia.
      * intros p Hp Hlp. rewrite Hfr; [|done|unfold h1; rewrite length_insert; lia].
        unfold h1. rewrite list_lookup_insert_ne by done.
        unfold ha. by rewrite lookup_app_l.
    + rewrite filter_cons_False by (unfold rowMatches; rewrite Hr; congruence).
      destruct (IH (S i) ha matched t) as
        (h' & t' & E & Ht' & Hk & Hc & Hpop & Hlen & Hfr); [lia|done|done|].
      exists h', t'. split; [exact E|]. split; [done|]. split; [done|].
      split; [done|]. split; [done|]. split.
      * rewrite Hlen, Hla. simpl. lia.
      * intros p Hp Hlp. rewrite Hfr; [|done|lia]. unfold ha. by rewrite lookup_app_l.
Qed.

Lemma render_same_pointer (mCnt : Z) (target : ptr) (k : nat) :
  forall (h : heap) (s : list RecordT) (x : RecordT),
    h !! target = Some x ->
    exists h',
      Scanner.render mCnt (replicate k target) s h
      = Some (s ++ replicate k (setMatchedCount mCnt x), h')
      /\ length h' = length h
      /\ (forall p, p <> target -> h' !! p = h !! p)
      /\ h' !! target = Some (if decide (k = 0%nat) then x else setMatchedCount mCnt x).
Proof.
  induction k as [|k IH]; intros h s x Hx.
  - exists h. simpl. by rewrite app_nil_r.
  - simpl replicate. simpl Scanner.render.
    rewrite (bind_eq _ _ _ _ _ (storeMatchedCount_ok target mCnt h x Hx)).
    set (x1 := setMatchedCount mCnt x). set (h1 := <[target := x1]> h).
    assert (E1 : h1 !! target = Some x1)
      by (apply list_lookup_insert_eq; by apply lookup_lt_Some with x).
    rewrite (bind_eq _ _ _ _ _ (load_ok target h1 x1 E1)).
    destruct (IH h1 (s ++ [x1]) x1 E1) as (h' & E & Hlen & Hfr & Ht).
    assert (Hidem : setMatchedCount mCnt x1 = x1) by (unfold x1; by destruct x).
    rewrite Hidem in E, Ht.
    exists h'. split; [rewrite E; simpl; by rewrite <- app_assoc|].
    split; [rewrite Hlen; apply length_insert|]. split.
    + intros p Hp. rewrite (Hfr p Hp). unfold h1. by rewrite list_lookup_insert_ne.
    + rewrite Ht. by destruct (decide (k = 0%nat)).
Qed.

Lemma Scan1_spec
    (h : heap) (target : ptr) (columnNames : list string)
    (table : list (list string)) (t : RecordT) :
  h !! target = Some t ->
  Forall (fun row => is_Some (RowToRecord columnNames row)) (tail table) ->
  let k := length (filter (rowMatches columnNames t) (tail table)) in
  exists (h' : heap) (r : RecordT),
    Scanner1.Scan target columnNames table h = Some (replicate k r, h')
    /\ MatchedCount r = Z.of_nat k
    /\ sameKey t r
    /\ (forall f, getField f t <> "" -> getField f r = getField f t)
    /\ (k <> 0%nat -> h' !! target = Some r)
    /\ length h' = (length h + length (tail table))%nat.
Proof.
  intros Ht Hrows k. unfold Scanner1.Scan.
  assert (Hc : exists h1 t1,
            Scanner1.collect target columnNames 0 table [] h
            = Some (replicate k target, h1)
            /\ h1 !! target = Some t1 /\ sameKey t t1
            /\ MatchedCount t1 = MatchedCount t
            /\ (forall f, getField f t <> "" -> getField f t1 = getField f t)
            /\ length h1 = (length h + length (tail table))%nat).
  { destruct table as [|header rows].
    - exists h, t. simpl. rewrite Nat.add_0_r. repeat split; done.
    - simpl Scanner1.collect. simpl tail in *.
      destruct (collect1_spec target columnNames rows 1 h [] t)
        as (h1 & t1 & E & H1 & H2 & H3 & H4 & H5 & _); [lia|done|done|].
      exists h1, t1. by repeat split. }
  destruct Hc as (h1 & t1 & E1 & Ht1 & Hk1 & Hc1 & Hp1 & Hl1).
  rewrite (bind_eq _ _ _ _ _ E1). rewrite length_replicate.
  destruct (Z.of_nat k >? 0)%Z eqn:Epos.
  - destruct (render_same_pointer (Z.of_nat k) target k h1 [] t1 Ht1)
      as (h' & E & Hlen & _ & Ht').
    exists h', (setMatchedCount (Z.of_nat k) t1).
    split; [by rewrite E|]. split; [apply MatchedCount_setMatchedCount|].
    split; [apply sameKey_trans with t1; [done|apply sameKey_setMatchedCount]|].
    split; [intros f Hf; by rewrite getField_setMatchedCount, Hp1|].
    split; [|by rewrite Hlen].
    intros Hk. by rewrite Ht', decide_False.
  - assert (k = 0%nat) as Hk.
    { rewrite Z.gtb_ltb in Epos. apply Z.ltb_ge in Epos. lia. }
    exists h1, (setMatchedCount 0 t1). rewrite Hk. simpl replicate.
    split; [done|]. split; [apply MatchedCount_setMatchedCount|].
    split; [apply sameKey_trans with t1; [done|apply sameKey_setMatchedCount]|].
    split; [intros f Hf; by rewrite getField_setMatchedCount, Hp1|].
    split; [done|exact Hl1].
Qed.

(** [Scan] of [src/unnamed/part_000] merges every matching row into the
    target and then renders the target once per match: with [k] matching
    rows among the rows after the header its result is [k] times the same
    line, the target as the merges left it with [MatchedCount = k].  That
    line agrees with the target on every descriptive field and on every
    identifier the target already held.  Each call leaves one more record in
    the store for every row after the header, matching or not. *)
Theorem part_000_Scan_repeats_the_target
    (h : heap) (target : ptr) (columnNames : list string)
    (table : list (list string)) (t : RecordT) :
  h !! target = Some t ->
  Forall (fun row => is_Some (RowToRecord columnNames row)) (tail table) ->
  let k := length (filter (rowMatches columnNames t) (tail table)) in
  exists (h' : heap) (r : RecordT),
    Scanner1.Scan target columnNames table h = Some (replicate k r, h')
    /\ MatchedCount r = Z.of_nat k
    /\ sameKey t r
    /\ (forall f, getField f t <> "" -> getField f r = getField f t)
    /\ (k <> 0%nat -> h' !! target = Some r)
    /\ length h' = (length h + length (tail table))%nat.
Proof. apply Scan1_spec. Qed.

Lemma part_000_Scan_repeats_the_target_witness :
  let t := setField FTitle "Tides" newRecord in
  exists (h' : heap) (r : RecordT),
    Scanner1.Scan 0 ["title"; "tind"]
      [["title"; "tind"]; ["Tides"; "T1"]; ["Waves"; "T2"]; [" Tides"; "T3"]] [t]
    = Some ([r; r], h')
    /\ MatchedCount r = 2 /\ Title r = "Tides" /\ length h' = 4%nat.
Proof.
  intros t.
  destruct (part_000_Scan_repeats_the_target [t] 0 ["title"; "tind"]
              [["title"; "tind"]; ["Tides"; "T1"]; ["Waves"; "T2"]; [" Tides"; "T3"]]
              t eq_refl) as (h' & r & E & Hc & Hk & _ & _ & Hlen).
  { repeat constructor; by eexists. }
  exists h', r. split; [exact E|]. split; [exact Hc|].
  split; [symmetry; apply (Hk FTitle); discriminate|exact Hlen].
Defined.

Lemma rows_spec (tind : list (list string)) (oclc : list (list string)) :
  forall (i : nat) (h : heap) (st : Pipeline1.run),
    (1 < i)%nat ->
    Forall (fun row => is_Some (RowToRecord oclcColumns row)) oclc ->
    Forall (fun row => is_Some (RowToRecord tindColumns row)) (tail tind) ->
    exists st' h' chunks,
      Pipeline1.rows i oclc tind st h = Some (st', h')
      /\ Pipeline1.matchedCnt st' + Pipeline1.unmatchedCnt st'
         = Pipeline1.matchedCnt st + Pipeline1.unmatchedCnt st
           + Z.of_nat (length oclc)
      /\ Pipeline1.out st' = Pipeline1.out st ++ concat chunks
      /\ Forall2 (fun row chunk =>
                    exists t r,
                      RowToRecord oclcColumns row = Some t
                      /\ chunk
                         = replicate
                             (length (filter (rowMatches tindColumns t) (tail tind)))
                             (Line r)
                      /\ sameKey t r)
           oclc chunks
      /\ length h' = (length h + length oclc * S (length (tail tind)))%nat.
Proof.
  induction oclc as [|row rest IH]; intros i h st Hi Ho Ht.
  - exists st, h, []. simpl. rewrite app_nil_r, Nat.add_0_r. repeat split; try done.
    lia.
  - apply Forall_cons in Ho as [[t Hrow] Hrest]. simpl Pipeline1.rows.
    assert ((1 <? i)%nat = true) as -> by (by apply Nat.ltb_lt).
    rewrite Hrow.
    assert (Ea : alloc t h = Some (length h, h ++ [t])) by done.
    rewrite (bind_eq _ _ _ _ _ Ea).
    assert (Hta : (h ++ [t]) !! length h = Some t).
    { rewrite lookup_app_r by lia. by rewrite Nat.sub_diag. }
    destruct (Scan1_spec (h ++ [t]) (length h) tindColumns tind t Hta Ht)
      as (h1 & r & E1 & Hc & Hk & _ & _ & Hl1).
    rewrite (bind_eq _ _ _ _ _ E1).
    rewrite length_app in Hl1. simpl in Hl1.
    remember (length (filter (rowMatches tindColumns t) (tail tind))) as k eqn:Ek.
    destruct k as [|k].
    + simpl replicate.
      destruct (IH (S i) h1 (Pipeline1.mkRun (Pipeline1.out st) (Pipeline1.matchedCnt st)
                               (Pipeline1.unmatchedCnt st + 1)))
        as (st' & h' & chunks & E & Hcnt & Hout & Hch & Hlen); [lia|done|done|].
      exists st', h', ([] :: chunks). split; [exact E|].
      simpl in Hcnt, Hout |- *. split; [lia|]. split; [exact Hout|]. split.
      * apply Forall2_cons. split; [|done]. exists t, r. by rewrite <- Ek.
      * rewrite Hlen, Hl1. lia.
    + simpl replicate.
      destruct (IH (S i) h1
                  (Pipeline1.mkRun (Pipeline1.out st ++ printed (r :: replicate k r))
                     (Pipeline1.matchedCnt st + 1) (Pipeline1.unmatchedCnt st)))
        as (st' & h' & chunks & E & Hcnt & Hout & Hch & Hlen); [lia|done|done|].
      exists st', h', (replicate (S k) (Line r) :: chunks). split; [exact E|].
      simpl in Hcnt, Hout |- *. split; [lia|]. split; [|split].
      * rewrite Hout. rewrite <- app_assoc. simpl. by rewrite fmap_replicate.
      * apply Forall2_cons. split; [|done]. exists t, r. by rewrite <- Ek.
      * rewrite Hlen, Hl1. lia.
Qed.

(** [main] of [src/unnamed/part_000] leaves out the first two rows of the
    OCLC table, not only the header: whatever these two rows hold, the run
    is that of the rows from the third on, and the targets counted as
    matched or unmatched are as many as those rows.  A target without a
    match contributes no line at all; a target that [k] rows of the TIND
    table match contributes [k] equal lines.  Besides the record made for
    the header line, every target costs a new record for itself and one for
    each TIND row after the header. *)
Theorem part_000_main_starts_at_third_row
    (oclc tind : list (list string)) (h : heap) :
  Forall (fun row => is_Some (RowToRecord oclcColumns row)) (drop 2 oclc) ->
  Forall (fun row => is_Some (RowToRecord tindColumns row)) (tail tind) ->
  (forall r0 r1, Pipeline1.main (r0 :: r1 :: drop 2 oclc) tind h
                 = Pipeline1.main oclc tind h \/ (length oclc < 2)%nat)
  /\ exists st h' chunks,
       Pipeline1.main oclc tind h = Some (st, h')
       /\ Pipeline1.matchedCnt st + Pipeline1.unmatchedCnt st
          = Z.of_nat (length (drop 2 oclc))
       /\ Pipeline1.out st = Header :: concat chunks
       /\ Forall2 (fun row chunk =>
                     exists t r,
                       RowToRecord oclcColumns row = Some t
                       /\ chunk
                          = replicate
                              (length (filter (rowMatches tindColumns t) (tail tind)))
                              (Line r)
                       /\ sameKey t r)
            (drop 2 oclc) chunks
       /\ length h'
          = (length h + 1 + length (drop 2 oclc) * S (length (tail tind)))%nat.
Proof.
  intros Ho Ht.
  assert (Hskip : forall st h1, Pipeline1.rows 0 oclc tind st h1
                                = Pipeline1.rows 2 (drop 2 oclc) tind st h1).
  { intros st h1. by destruct oclc as [|r0 [|r1 rest]]. }
  assert (Ea : alloc newRecord h = Some (length h, h ++ [newRecord])) by done.
  split.
  - intros r0 r1. destruct oclc as [|a [|b rest]]; [right; simpl; lia..|by left].
  - unfold Pipeline1.main. rewrite (bind_eq _ _ _ _ _ Ea), Hskip.
    destruct (rows_spec tind (drop 2 oclc) 2 (h ++ [newRecord])
                (Pipeline1.mkRun [Header] 0 0))
      as (st & h' & chunks & E & Hcnt & Hout & Hch & Hlen); [lia|done|done|].
    exists st, h', chunks. split; [exact E|]. simpl in Hcnt, Hout.
    split; [lia|]. split; [done|]. split; [done|].
    rewrite Hlen, length_app. simpl. lia.
Qed.

Lemma part_000_main_starts_at_third_row_witness :
  exists st h',
    Pipeline1.main exampleOCLC exampleTIND [] = Some (st, h')
    /\ Pipeline1.matchedCnt st + Pipeline1.unmatchedCnt st = 1
    /\ length h' = 4%nat.
Proof.
  destruct (part_000_main_starts_at_third_row exampleOCLC exampleTIND [])
    as (_ & st & h' & chunks & E & Hcnt & _ & _ & Hlen).
  { repeat constructor. by eexists. }
  { repeat constructor; by eexists. }
  exists st, h'. split; [exact E|]. split; [exact Hcnt|exact Hlen].
Defined.

(** ** The two column lists of [main] *)

Lemma RowToRecord_fields (columnNames row : list string) (r : RecordT) :
  RowToRecord columnNames row = Some r ->
  forall f, getField f r
            = match lastColumn f 0 columnNames with
              | Some i => default "" (row !! i)
              | None => ""
              end.
Proof.
  intros E f.
  pose proof (RowToRecord_from_returns _ _ 0%nat newRecord r E) as Hs.
  destruct (RowToRecord_from_slots columnNames row 0 newRecord Hs)
    as (r' & E' & _ & Hf).
  unfold RowToRecord in E. rewrite E in E'. injection E' as <-.
  rewrite Hf. destruct (lastColumn f 0 columnNames); [done|]. by destruct f.
Qed.

(** With the column list [oclcColumns] a row is projected exactly when it
    has at least 14 cells, and its record has no [Tind]: the identifier
    [OCLC] is cell 7 and the title cell 8.  With [tindColumns] a row needs
    15 cells; [Tind] is cell 5, [OCLC] cell 6 and the title cell 9.  Cells
    beyond the column list are not read. *)
Theorem column_lists_of_main (row : list string) :
  (is_Some (RowToRecord oclcColumns row) <-> (14 <= length row)%nat)
  /\ (is_Some (RowToRecord tindColumns row) <-> (15 <= length row)%nat)
  /\ (forall r, RowToRecord oclcColumns row = Some r ->
        Tind r = "" /\ row !! 7%nat = Some (OCLC r) /\ row !! 8%nat = Some (Title r)
        /\ RowToRecord oclcColumns (take 14 row) = Some r)
  /\ (forall r, RowToRecord tindColumns row = Some r ->
        row !! 5%nat = Some (Tind r) /\ row !! 6%nat = Some (OCLC r)
        /\ row !! 9%nat = Some (Title r)
        /\ RowToRecord tindColumns (take 15 row) = Some r).
Proof.
  assert (Hneed : forall cols n,
            (forall i c, cols !! i = Some c -> is_Some (columnField c)) ->
            length cols = S n ->
            (is_Some (RowToRecord cols row) <-> (S n <= length row)%nat)).
  { intros cols n Hall Hlen. split.
    - intros [r E].
      pose proof (RowToRecord_from_returns _ _ 0%nat newRecord r E) as Hs.
      destruct (lookup_lt_is_Some_2 cols n) as [c Hc]; [lia|].
      specialize (Hs n c Hc (Hall n c Hc)). lia.
    - intros Hle. apply RowToRecord_long_row. lia. }
  assert (Hao : forall i c, oclcColumns !! i = Some c -> is_Some (columnField c)).
  { intros i c Hi. do 14 (destruct i as [|i]; [injection Hi as <-; by eexists|]).
    done. }
  assert (Hat : forall i c, tindColumns !! i = Some c -> is_Some (columnField c)).
  { intros i c Hi. do 15 (destruct i as [|i]; [injection Hi as <-; by eexists|]).
    done. }
  assert (Hcell : forall (i : nat) (x : string),
            (i < length row)%nat -> default "" (row !! i) = x -> row !! i = Some x).
  { intros i x Hi Hx. destruct (lookup_lt_is_Some_2 row i Hi) as [y Hy].
    rewrite Hy in Hx |- *. simpl in Hx. by rewrite Hx. }
  assert (Htake : forall cols n r,
            length cols = n -> RowToRecord cols row = Some r ->
            (n <= length row)%nat -> RowToRecord cols (take n row) = Some r).
  { intros cols n r Hlen E Hle.
    destruct (RowToRecord_long_row cols (take n row)) as [r' E'].
    { rewrite length_take. lia. }
    rewrite E'. f_equal. apply record_ext.
    - intros f. rewrite (RowToRecord_fields _ _ _ E f), (RowToRecord_fields _ _ _ E' f).
      destruct (lastColumn f 0 cols) as [i|] eqn:Hl; [|done].
      assert (Hi : (i < n)%nat).
      { clear -Hl Hlen. subst n. 
        assert (Hg : forall cs k j, lastColumn f k cs = Some j ->
                       (j < k + length cs)%nat).
        { induction cs as [|c cs IH]; intros k j Hj; [done|]. simpl in Hj.
          destruct (lastColumn f (S k) cs) as [j'|] eqn:Hj'.
          - injection Hj as <-. specialize (IH _ _ Hj'). simpl. lia.
          - destruct (columnField c) as [g|]; [|done].
            destruct (field_eqb f g); [|done]. injection Hj as <-. simpl. lia. }
        exact (Hg cols 0%nat i Hl). }
      by rewrite lookup_take_lt.
    - pose proof (RowToRecord_from_returns _ _ 0%nat newRecord r E) as Hs.
      destruct (RowToRecord_from_slots cols row 0 newRecord Hs) as (x & Ex & Hx & _).
      unfold RowToRecord in E. rewrite E in Ex. injection Ex as <-.
      pose proof (RowToRecord_from_returns _ _ 0%nat newRecord r' E') as Hs'.
      destruct (RowToRecord_from_slots cols (take n row) 0 newRecord Hs')
        as (x' & Ex' & Hx' & _).
      unfold RowToRecord in E'. rewrite E' in Ex'. injection Ex' as <-.
      by rewrite Hx, Hx'. }
  split; [exact (Hneed oclcColumns 13%nat Hao eq_refl)|].
  split; [exact (Hneed tindColumns 14%nat Hat eq_refl)|]. split.
  - intros r E.
    assert (Hle : (14 <= length row)%nat)
      by (apply (Hneed oclcColumns 13%nat Hao eq_refl); by exists r).
    pose proof (RowToRecord_fields _ _ _ E) as Hf.
    split; [exact (Hf FTind)|]. split; [|split].
    + apply Hcell; [lia|]. symmetry. exact (Hf FOCLC).
    + apply Hcell; [lia|]. symmetry. exact (Hf FTitle).
    + by apply Htake.
  - intros r E.
    assert (Hle : (15 <= length row)%nat)
      by (apply (Hneed tindColumns 14%nat Hat eq_refl); by exists r).
    pose proof (RowToRecord_fields _ _ _ E) as Hf.
    split; [|split; [|split]].
    + apply Hcell; [lia|]. symmetry. exact (Hf FTind).
    + apply Hcell; [lia|]. symmetry. exact (Hf FOCLC).
    + apply Hcell; [lia|]. symmetry. exact (Hf FTitle).
    + by apply Htake.
Qed.

Lemma column_lists_of_main_witness :
  exists r,
    RowToRecord oclcColumns
      [ "book"; "m"; "1999"; ""; "p"; "0-1"; ""; "o1"; "Tides"; ""; "A"; "P";
        "1999"; "10 p."; "left over" ] = Some r
    /\ Tind r = "" /\ OCLC r = "o1" /\ Title r = "Tides".
Proof.
  pose proof (column_lists_of_main
                [ "book"; "m"; "1999"; ""; "p"; "0-1"; ""; "o1"; "Tides"; ""; "A";
                  "P"; "1999"; "10 p."; "left over" ]) as (Hsome & _ & Hf & _).
  destruct (proj2 Hsome) as [r E]; [simpl; lia|].
  destruct (Hf r E) as (HT & HO & Hti & _).
  exists r. split; [exact E|]. split; [exact HT|].
  split; [by injection HO|by injection Hti].
Defined.
